(** * The optimal balancing strategy of the router

    A shallow embedding of [app/router/balancing_optimal_strategy.go] and
    of the messages of [app/router/config.pb.go], the properties of the
    specification, and further properties of the code.

    Conventions.
    - Go integers are [Z] with their wrap-around written out.
    - [float64] is Rocq's primitive binary64 [float]; every operation of the
      source is the IEEE operation of the same name.
    - A Go [panic] is the [Panicked] outcome.
    - What the Go standard library and the network do is input of the model:
      [url.Parse] and [sort.Slice] are parameters, a probe's observations
      (the two clock readings and the response) come from a [Network]. *)

From Stdlib Require Import ZArith List String Ascii Strings.Byte Bool Lia.
From Stdlib Require Import Floats Permutation Sorted QArith Qpower Lqa.
Import ListNotations.

Local Open Scope Z_scope.

(** ** Go basics *)

Inductive Outcome (A : Type) : Type :=
| Returned (a : A)
| Panicked (msg : string).
Arguments Returned {A} a.
Arguments Panicked {A} msg.

Definition bind {A B : Type} (m : Outcome A) (k : A -> Outcome B) : Outcome B :=
  match m with
  | Returned a => k a
  | Panicked msg => Panicked msg
  end.

Notation "x <- m ;; k" := (bind m (fun x => k))
  (at level 61, m at next level, right associativity).

(** [l[i]], which panics out of range. *)
Definition index {A : Type} (l : list A) (i : nat) : Outcome A :=
  match nth_error l i with
  | Some a => Returned a
  | None => Panicked "index out of range"
  end.

(** [l[i] = x], for [i] in range. *)
Fixpoint set_nth {A : Type} (l : list A) (i : nat) (x : A) : list A :=
  match l, i with
  | [], _ => []
  | _ :: rest, O => x :: rest
  | y :: rest, S i' => y :: set_nth rest i' x
  end.

Fixpoint mapM {A B : Type} (f : A -> Outcome B) (l : list A) : Outcome (list B) :=
  match l with
  | [] => Returned []
  | a :: l' => b <- f a ;; bs <- mapM f l' ;; Returned (b :: bs)
  end.

Definition wrap_int64 (z : Z) : Z := (z + 2 ^ 63) mod 2 ^ 64 - 2 ^ 63.
Definition wrap_uint32 (z : Z) : Z := z mod 2 ^ 32.

Definition MaxInt64 : Z := 9223372036854775807.
Definition MinInt64 : Z := -9223372036854775808.
Definition MaxUint32 : Z := 4294967295.

(** [float64(z)] for an integer [z]: rounding to nearest, ties to even. *)
Definition float64_of_Z (z : Z) : float :=
  SF2Prim (binary_normalize prec emax z 0 false).

(** [a > b] on float64. *)
Definition float64_gt (a b : float) : bool := PrimFloat.ltb b a.

(** ** time *)

Definition Duration := Z.
Definition Millisecond : Duration := 1000000.
Definition Second : Duration := 1000000000.

(** ** The configuration message (config.pb.go) *)

Record BalancingOptimalStrategyConfig : Type := {
  Timeout : Z;    (* uint32 *)
  Interval : Z;   (* uint32 *)
  Url : string;
  Count : Z       (* uint32 *)
}.

Definition uint32_range (z : Z) : Prop := 0 <= z <= MaxUint32.

Definition config_wf (c : BalancingOptimalStrategyConfig) : Prop :=
  uint32_range (Timeout c) /\ uint32_range (Interval c) /\ uint32_range (Count c).

(** ** The other messages of config.pb.go

    A pointer to a message is an [option], [None] for nil; a repeated field
    is a list, empty for nil. Each message has a module of its own, as the
    methods of a Go type have a name space of their own. *)

(** [m[k]] on a map literal, with its ok flag. *)
Fixpoint map_index {K V : Type} (eqb : K -> K -> bool) (m : list (K * V)) (k : K)
  : option V :=
  match m with
  | [] => None
  | (k', v) :: m' => if eqb k' k then Some v else map_index eqb m' k
  end.

Definition nil_dereference : string :=
  "invalid memory address or nil pointer dereference".

(** [Domain_Type] and [Config_DomainStrategy] are int32. *)
Definition Domain_Type := Z.
Definition Domain_Plain : Domain_Type := 0.
Definition Domain_Regex : Domain_Type := 1.
Definition Domain_Domain : Domain_Type := 2.
Definition Domain_Full : Domain_Type := 3.

Definition Domain_Type_name : list (Z * string) :=
  [ (0, "Plain"); (1, "Regex"); (2, "Domain"); (3, "Full") ]%string.

Definition Domain_Type_value : list (string * Z) :=
  [ ("Plain", 0); ("Regex", 1); ("Domain", 2); ("Full", 3) ]%string.

Definition Config_DomainStrategy := Z.
Definition Config_AsIs : Config_DomainStrategy := 0.
Definition Config_UseIp : Config_DomainStrategy := 1.
Definition Config_IpIfNonMatch : Config_DomainStrategy := 2.
Definition Config_IpOnDemand : Config_DomainStrategy := 3.

Definition Config_DomainStrategy_name : list (Z * string) :=
  [ (0, "AsIs"); (1, "UseIp"); (2, "IpIfNonMatch"); (3, "IpOnDemand") ]%string.

Definition Config_DomainStrategy_value : list (string * Z) :=
  [ ("AsIs", 0); ("UseIp", 1); ("IpIfNonMatch", 2); ("IpOnDemand", 3) ]%string.

(** The wrappers of the oneof [typed_value]; the interface value holds a
    pointer to one of them. *)
Record Domain_Attribute_BoolValue : Type := { BoolValue : bool }.
Record Domain_Attribute_IntValue : Type := { IntValue : Z (* int64 *) }.

Inductive isDomain_Attribute_TypedValue : Type :=
| TypedValue_BoolValue (x : option Domain_Attribute_BoolValue)
| TypedValue_IntValue (x : option Domain_Attribute_IntValue).

Module Domain_Attribute.

Record t : Type := {
  Key : string;
  TypedValue : option isDomain_Attribute_TypedValue
}.

Definition Reset (m : t) : t := {| Key := ""; TypedValue := None |}.

Definition GetKey (m : option t) : string :=
  match m with
  | Some m => Key m
  | None => ""
  end.

Definition GetTypedValue (m : option t) : option isDomain_Attribute_TypedValue :=
  match m with
  | Some m => TypedValue m
  | None => None
  end.

Definition GetBoolValue (m : option t) : Outcome bool :=
  match GetTypedValue m with
  | Some (TypedValue_BoolValue (Some x)) => Returned (BoolValue x)
  | Some (TypedValue_BoolValue None) => Panicked nil_dereference
  | _ => Returned false
  end.

Definition GetIntValue (m : option t) : Outcome Z :=
  match GetTypedValue m with
  | Some (TypedValue_IntValue (Some x)) => Returned (IntValue x)
  | Some (TypedValue_IntValue None) => Panicked nil_dereference
  | _ => Returned 0
  end.

End Domain_Attribute.

Module Domain.

Record t : Type := {
  Type_ : Domain_Type;
  Value : string;
  Attribute : list (option Domain_Attribute.t)
}.

Definition Reset (m : t) : t := {| Type_ := 0; Value := ""; Attribute := [] |}.

Definition GetType (m : option t) : Domain_Type :=
  match m with
  | Some m => Type_ m
  | None => Domain_Plain
  end.

Definition GetValue (m : option t) : string :=
  match m with
  | Some m => Value m
  | None => ""
  end.

Definition GetAttribute (m : option t) : list (option Domain_Attribute.t) :=
  match m with
  | Some m => Attribute m
  | None => []
  end.

End Domain.

Module CIDR.

Record t : Type := {
  Ip : list Byte.byte;
  Prefix : Z    (* uint32 *)
}.

Definition Reset (m : t) : t := {| Ip := []; Prefix := 0 |}.

Definition GetIp (m : option t) : list Byte.byte :=
  match m with
  | Some m => Ip m
  | None => []
  end.

Definition GetPrefix (m : option t) : Z :=
  match m with
  | Some m => Prefix m
  | None => 0
  end.

End CIDR.

Module GeoIP.

Record t : Type := {
  CountryCode : string;
  Cidr : list (option CIDR.t)
}.

Definition Reset (m : t) : t := {| CountryCode := ""; Cidr := [] |}.

Definition GetCountryCode (m : option t) : string :=
  match m with
  | Some m => CountryCode m
  | None => ""
  end.

Definition GetCidr (m : option t) : list (option CIDR.t) :=
  match m with
  | Some m => Cidr m
  | None => []
  end.

End GeoIP.

Module GeoIPList.

Record t : Type := { Entry : list (option GeoIP.t) }.

Definition Reset (m : t) : t := {| Entry := [] |}.

Definition GetEntry (m : option t) : list (option GeoIP.t) :=
  match m with
  | Some m => Entry m
  | None => []
  end.

End GeoIPList.

Module GeoSite.

Record t : Type := {
  CountryCode : string;
  Domain : list (option Domain.t)
}.

Definition Reset (m : t) : t := {| CountryCode := ""; Domain := [] |}.

Definition GetCountryCode (m : option t) : string :=
  match m with
  | Some m => CountryCode m
  | None => ""
  end.

Definition GetDomain (m : option t) : list (option Domain.t) :=
  match m with
  | Some m => Domain m
  | None => []
  end.

End GeoSite.

Module GeoSiteList.

Record t : Type := { Entry : list (option GeoSite.t) }.

Definition Reset (m : t) : t := {| Entry := [] |}.

Definition GetEntry (m : option t) : list (option GeoSite.t) :=
  match m with
  | Some m => Entry m
  | None => []
  end.

End GeoSiteList.

(** The wrappers of the oneof [target_tag]. *)
Record RoutingRule_Tag : Type := { Tag : string }.
Record RoutingRule_BalancingTag : Type := { BalancingTag : string }.

Inductive isRoutingRule_TargetTag : Type :=
| TargetTag_Tag (x : option RoutingRule_Tag)
| TargetTag_BalancingTag (x : option RoutingRule_BalancingTag).

Module RoutingRule.

Section Net.

(** The messages of the net package that a rule points to. *)
Variables net_PortRange net_PortList net_NetworkList net_Network : Type.

Record t : Type := {
  TargetTag : option isRoutingRule_TargetTag;
  Domain : list (option Domain.t);
  Cidr : list (option CIDR.t);
  Geoip : list (option GeoIP.t);
  PortRange : option net_PortRange;
  PortList : option net_PortList;
  NetworkList : option net_NetworkList;
  Networks : list net_Network;
  SourceCidr : list (option CIDR.t);
  SourceGeoip : list (option GeoIP.t);
  UserEmail : list string;
  InboundTag : list string;
  Protocol : list string;
  Attributes : string
}.

Definition Reset (m : t) : t :=
  {| TargetTag := None; Domain := []; Cidr := []; Geoip := []; PortRange := None;
     PortList := None; NetworkList := None; Networks := []; SourceCidr := [];
     SourceGeoip := []; UserEmail := []; InboundTag := []; Protocol := [];
     Attributes := "" |}.

Definition GetTargetTag (m : option t) : option isRoutingRule_TargetTag :=
  match m with
  | Some m => TargetTag m
  | None => None
  end.

Definition GetTag (m : option t) : Outcome string :=
  match GetTargetTag m with
  | Some (TargetTag_Tag (Some x)) => Returned (Tag x)
  | Some (TargetTag_Tag None) => Panicked nil_dereference
  | _ => Returned ""%string
  end.

Definition GetBalancingTag (m : option t) : Outcome string :=
  match GetTargetTag m with
  | Some (TargetTag_BalancingTag (Some x)) => Returned (BalancingTag x)
  | Some (TargetTag_BalancingTag None) => Panicked nil_dereference
  | _ => Returned ""%string
  end.

Definition GetDomain (m : option t) : list (option Domain.t) :=
  match m with
  | Some m => Domain m
  | None => []
  end.

Definition GetCidr (m : option t) : list (option CIDR.t) :=
  match m with
  | Some m => Cidr m
  | None => []
  end.

Definition GetGeoip (m : option t) : list (option GeoIP.t) :=
  match m with
  | Some m => Geoip m
  | None => []
  end.

Definition GetPortRange (m : option t) : option net_PortRange :=
  match m with
  | Some m => PortRange m
  | None => None
  end.

Definition GetPortList (m : option t) : option net_PortList :=
  match m with
  | Some m => PortList m
  | None => None
  end.

Definition GetNetworkList (m : option t) : option net_NetworkList :=
  match m with
  | Some m => NetworkList m
  | None => None
  end.

Definition GetNetworks (m : option t) : list net_Network :=
  match m with
  | Some m => Networks m
  | None => []
  end.

Definition GetSourceCidr (m : option t) : list (option CIDR.t) :=
  match m with
  | Some m => SourceCidr m
  | None => []
  end.

Definition GetSourceGeoip (m : option t) : list (option GeoIP.t) :=
  match m with
  | Some m => SourceGeoip m
  | None => []
  end.

Definition GetUserEmail (m : option t) : list string :=
  match m with
  | Some m => UserEmail m
  | None => []
  end.

Definition GetInboundTag (m : option t) : list string :=
  match m with
  | Some m => InboundTag m
  | None => []
  end.

Definition GetProtocol (m : option t) : list string :=
  match m with
  | Some m => Protocol m
  | None => []
  end.

Definition GetAttributes (m : option t) : string :=
  match m with
  | Some m => Attributes m
  | None => ""
  end.

End Net.

End RoutingRule.

(** The getters of [BalancingOptimalStrategyConfig]. *)
Definition GetTimeout (m : option BalancingOptimalStrategyConfig) : Z :=
  match m with
  | Some m => Timeout m
  | None => 0
  end.

Definition GetInterval (m : option BalancingOptimalStrategyConfig) : Z :=
  match m with
  | Some m => Interval m
  | None => 0
  end.

Definition GetUrl (m : option BalancingOptimalStrategyConfig) : string :=
  match m with
  | Some m => Url m
  | None => ""
  end.

Definition GetCount (m : option BalancingOptimalStrategyConfig) : Z :=
  match m with
  | Some m => Count m
  | None => 0
  end.

Module BalancingRule.

Record t : Type := {
  Tag : string;
  OutboundSelector : list string;
  Strategy : string;
  OptimalStrategyConfig : option BalancingOptimalStrategyConfig
}.

Definition Reset (m : t) : t :=
  {| Tag := ""; OutboundSelector := []; Strategy := ""; OptimalStrategyConfig := None |}.

Definition GetTag (m : option t) : string :=
  match m with
  | Some m => Tag m
  | None => ""
  end.

Definition GetOutboundSelector (m : option t) : list string :=
  match m with
  | Some m => OutboundSelector m
  | None => []
  end.

Definition GetStrategy (m : option t) : string :=
  match m with
  | Some m => Strategy m
  | None => ""
  end.

Definition GetOptimalStrategyConfig (m : option t) : option BalancingOptimalStrategyConfig :=
  match m with
  | Some m => OptimalStrategyConfig m
  | None => None
  end.

End BalancingRule.

Module Config.

Section Net.

Variables net_PortRange net_PortList net_NetworkList net_Network : Type.

Record t : Type := {
  DomainStrategy : Config_DomainStrategy;
  Rule : list (option (RoutingRule.t net_PortRange net_PortList net_NetworkList net_Network));
  BalancingRule : list (option BalancingRule.t)
}.

Definition Reset (m : t) : t :=
  {| DomainStrategy := 0; Rule := []; BalancingRule := [] |}.

Definition GetDomainStrategy (m : option t) : Config_DomainStrategy :=
  match m with
  | Some m => DomainStrategy m
  | None => Config_AsIs
  end.

Definition GetRule (m : option t)
  : list (option (RoutingRule.t net_PortRange net_PortList net_NetworkList net_Network)) :=
  match m with
  | Some m => Rule m
  | None => []
  end.

Definition GetBalancingRule (m : option t) : list (option BalancingRule.t) :=
  match m with
  | Some m => BalancingRule m
  | None => []
  end.

End Net.

End Config.

(** ** net/url, outbound.Manager, task.Periodic *)

Record URL : Type := {
  Scheme : string;
  Host : string;
  Path : string
}.

(** An outbound handler is known to the model by its identity only. *)
Definition Handler := nat.

(** [obm.GetHandler(tag)]; [None] is Go's nil. *)
Definition Manager := string -> option Handler.

Inductive Task : Type := task_run.   (* the method value [s.run] *)

Record Periodic : Type := {
  p_Interval : Duration;
  p_Execute : Task
}.

(** A goroutine launched by a call. *)
Inductive Goroutine : Type :=
| GoPeriodicStart (p : Periodic).

(** ** OptimalStrategy *)

Record OptimalStrategy : Type := {
  timeout : Duration;
  interval : Duration;
  url : option URL;
  count : Z;                   (* uint32 *)
  obm : option Manager;
  tag : string;
  tags : list string;
  periodic : option Periodic
}.

Definition with_obm (s : OptimalStrategy) (m : Manager) :=
  {| timeout := timeout s; interval := interval s; url := url s; count := count s;
     obm := Some m; tag := tag s; tags := tags s; periodic := periodic s |}.

Definition with_tags (s : OptimalStrategy) (ts : list string) :=
  {| timeout := timeout s; interval := interval s; url := url s; count := count s;
     obm := obm s; tag := tag s; tags := ts; periodic := periodic s |}.

Definition with_tag (s : OptimalStrategy) (t : string) :=
  {| timeout := timeout s; interval := interval s; url := url s; count := count s;
     obm := obm s; tag := t; tags := tags s; periodic := periodic s |}.

Definition with_periodic (s : OptimalStrategy) (p : Periodic) :=
  {| timeout := timeout s; interval := interval s; url := url s; count := count s;
     obm := obm s; tag := tag s; tags := tags s; periodic := Some p |}.

Definition default_url : string := "https://www.google.com".

Section Construction.

(** [url.Parse]: the URL, or the error. *)
Variable url_Parse : string -> URL + string.

(** The pointer [url.Parse] returns next to its error: nil with an error. *)
Definition parsed (r : URL + string) : option URL :=
  match r with
  | inl u => Some u
  | inr _ => None
  end.

Definition NewOptimalStrategy (config : BalancingOptimalStrategyConfig)
  : Outcome OptimalStrategy :=
  let s_timeout :=
    if Timeout config =? 0 then wrap_int64 (Second * 5)
    else wrap_int64 (Millisecond * Timeout config) in
  let s_interval :=
    if Interval config =? 0 then wrap_int64 (wrap_int64 (Second * 60) * 10)
    else wrap_int64 (Millisecond * Interval config) in
  s_url <-
    (if (Url config =? "")%string then Returned (parsed (url_Parse default_url))
     else match url_Parse (Url config) with
          | inr err => Panicked err
          | inl u =>
              if negb (Scheme u =? "http")%string && negb (Scheme u =? "https")%string
              then Panicked "Only http/https url support"
              else Returned (Some u)
          end) ;;
  let s_count := if Count config =? 0 then 3 else Count config in
  Returned {| timeout := s_timeout; interval := s_interval; url := s_url;
              count := s_count; obm := None; tag := ""; tags := [];
              periodic := None |}.

End Construction.

(** ** PickOutbound *)

Definition PickOutbound (s : OptimalStrategy) (m : Manager) (ts : list string)
  : Outcome (string * OptimalStrategy * list Goroutine) :=
  if (List.length ts =? 0)%nat then Panicked "0 tags"
  else if (List.length ts =? 1)%nat then Returned (tag s, s, [])
  else
    let s := with_obm s m in
    let s := with_tags s ts in
    match periodic s with
    | None =>
        (* periodicMutex.Lock(); the second test reads the same nil *)
        t0 <- index (tags s) 0 ;;
        let s := with_tag s t0 in
        let p := {| p_Interval := interval s; p_Execute := task_run |} in
        let s := with_periodic s p in
        Returned (tag s, s, [GoPeriodicStart p])
    | Some _ => Returned (tag s, s, [])
    end.

(** The calls of PickOutbound a caller makes one after the other: what each
    returns, the strategy after the last, and the goroutines launched. *)
Fixpoint PickOutbound_each (s : OptimalStrategy) (calls : list (Manager * list string))
  : Outcome (list string * OptimalStrategy * list Goroutine) :=
  match calls with
  | [] => Returned ([], s, [])
  | (m, ts) :: calls' =>
      r <- PickOutbound s m ts ;;
      let '(t, s1, gs) := r in
      r' <- PickOutbound_each s1 calls' ;;
      let '(picked, s2, gs') := r' in
      Returned (t :: picked, s2, gs ++ gs')
  end.

(** ** One probe (the body of the loop of testOutboud) *)

(** What one probe through an outbound observes: the clock before the request
    ([time.Now().UnixNano()], int64), what [client.Do] returns ([None] for
    an error, else the bytes the response body delivers), and the clock after
    the body has been scanned. The body delivers bytes until one of its reads
    returns [io.EOF] or fails (the connection breaks, or [Client.Timeout]
    expires during the read); the Scanner ends its input on both alike, and
    testOutboud does not ask [scanner.Err()] which of them it was. *)
Record Probe : Type := {
  startAt : Z;
  response : option (list Byte.byte);
  finishAt : Z
}.

(** The probes of a round, by outbound handler and trial number. *)
Definition Network := Handler -> nat -> Probe.

Definition newline : Byte.byte := Byte.x0a.
Definition carriage_return : Byte.byte := Byte.x0d.

(** [bufio.MaxScanTokenSize]: the buffer a [bufio.Scanner] may grow to. *)
Definition MaxScanTokenSize : Z := 65536.

(** [dropCR] of bufio: a line loses one trailing carriage return. *)
Definition dropCR (line : list Byte.byte) : list Byte.byte :=
  match rev line with
  | c :: front => if Byte.eqb c carriage_return then rev front else line
  | [] => line
  end.

(** The tokens [scanner.Scan()] yields over a [bufio.NewScanner] of the
    body, whose split function is [bufio.ScanLines]: each line without its
    end-of-line marker (a newline, with one carriage return before it); the
    last line also when no newline ends it, unless it is empty. A line that
    does not fit the buffer together with its newline ends the scan
    ([bufio.ErrTooLong]; [Scan] returns false). [cur] is the line read so
    far, last byte first, and [n] its length. *)
Fixpoint scanLines_from (cur : list Byte.byte) (n : Z) (body : list Byte.byte)
  : list (list Byte.byte) :=
  match body with
  | [] =>
      match cur with
      | [] => []
      | _ => [dropCR (rev cur)]
      end
  | b :: rest =>
      if Byte.eqb b newline then dropCR (rev cur) :: scanLines_from [] 0 rest
      else if n + 1 <? MaxScanTokenSize then scanLines_from (b :: cur) (n + 1) rest
      else []
  end.

Definition scanLines (body : list Byte.byte) : list (list Byte.byte) :=
  scanLines_from [] 0 body.

(** [contentSize] after the loop [for scanner.Scan() { contentSize += len(scanner.Bytes()) }]. *)
Definition contentSize_of (tokens : list (list Byte.byte)) : Z :=
  fold_left (fun size token => wrap_int64 (size + Z.of_nat (List.length token)))
    tokens 0.

(** The calls one probe makes, in program order. *)
Inductive Call : Type :=
| CallBuildClient
| CallNewRequest
| CallNow (t : Z)
| CallDo
| CallLogError
| CallScan (token : list Byte.byte)
| CallScanEnd
| CallCloseIdleConnections.

(** [float64(finishAt.UnixNano()-startAt.UnixNano()) / float64(time.Second)] *)
Definition elapsed_seconds (p : Probe) : float :=
  (float64_of_Z (wrap_int64 (finishAt p - startAt p)) / float64_of_Z Second)%float.

Definition probe_trial (p : Probe) : float * list Call :=
  let before := [CallBuildClient; CallNewRequest; CallNow (startAt p); CallDo] in
  match response p with
  | None => (0%float, before ++ [CallLogError; CallCloseIdleConnections])
  | Some body =>
      let tokens := scanLines body in
      let contentSize := contentSize_of tokens in
      let calls := before ++ map CallScan tokens
                     ++ [CallScanEnd; CallNow (finishAt p); CallCloseIdleConnections] in
      if negb (contentSize =? 0)
      then ((float64_of_Z contentSize / elapsed_seconds p)%float, calls)
      else ((100 / elapsed_seconds p)%float, calls)
  end.

(** ** The arithmetic of the aggregation

    The aggregation of testOutboud is written once over the operations it
    uses. [float64_arith] is the arithmetic of the source; [exact_arith] is
    the same computation without rounding, over the rationals. *)

Class Arith (F : Type) : Type := {
  of_Z : Z -> F;
  fadd : F -> F -> F;
  fsub : F -> F -> F;
  fdiv : F -> F -> F;
  flt : F -> F -> bool
}.

#[export] Instance float64_arith : Arith float := {|
  of_Z := float64_of_Z;
  fadd := PrimFloat.add;
  fsub := PrimFloat.sub;
  fdiv := PrimFloat.div;
  flt := PrimFloat.ltb
|}.

#[export] Instance exact_arith : Arith Q := {|
  of_Z := inject_Z;
  fadd := Qplus;
  fsub := Qminus;
  fdiv := Qdiv;
  flt := fun a b => negb (Qle_bool b a)
|}.

Section Aggregation.

Context {F : Type} `{Arith F}.

(** One step of [for _, score := range scores]. *)
Definition score_step (acc : F * F * F) (score : F) : F * F * F :=
  let '(minScore, maxScore, sumScore) := acc in
  let minScore := if flt score minScore then score else minScore in
  let maxScore := if flt maxScore score then score else maxScore in
  (minScore, maxScore, fadd sumScore score).

Definition score_loop (scores : list F) : F * F * F :=
  fold_left score_step scores (of_Z MaxInt64, of_Z MinInt64, of_Z 0).

(** The end of testOutboud, from "calculate average score": [s_count] is
    [s.count]. *)
Definition aggregate (s_count : Z) (scores : list F) : F :=
  let '(minScore, maxScore, sumScore) := score_loop scores in
  if Z.of_nat (List.length scores) <? 3
  then fdiv sumScore (of_Z (Z.of_nat (List.length scores)))
  else fdiv (fsub (fsub sumScore minScore) maxScore) (of_Z (wrap_uint32 (s_count - 2))).

(** The words of the specification: sum, minimum and maximum of a list. *)
Definition list_sum (scores : list F) : F :=
  fold_left fadd scores (of_Z 0).

Definition list_minimum (scores : list F) : option F :=
  match scores with
  | [] => None
  | x :: rest => Some (fold_left (fun m y => if flt y m then y else m) rest x)
  end.

Definition list_maximum (scores : list F) : option F :=
  match scores with
  | [] => None
  | x :: rest => Some (fold_left (fun m y => if flt m y then y else m) rest x)
  end.

Definition arithmetic_mean (scores : list F) : F :=
  fdiv (list_sum scores) (of_Z (Z.of_nat (List.length scores))).

Definition trimmed_mean (trialCount : Z) (scores : list F) : option F :=
  match list_minimum scores, list_maximum scores with
  | Some mn, Some mx =>
      Some (fdiv (fsub (fsub (list_sum scores) mn) mx) (of_Z (trialCount - 2)))
  | _, _ => None
  end.

End Aggregation.

(** ** testOutboud *)

Record optimalStrategyTestResult : Type := {
  r_tag : string;
  r_score : float
}.

(** The scores of the [n] probes through [oh] ([n] is the parameter [count]
    of testOutboud). [s.url.String()] is
    evaluated for every request and panics on a nil [s.url]. *)
Definition trial_scores (s : OptimalStrategy) (net : Network) (oh : Handler) (n : Z)
  : Outcome (list float) :=
  mapM (fun i =>
          match url s with
          | None => Panicked "invalid memory address or nil pointer dereference"
          | Some _ => Returned (fst (probe_trial (net oh i)))
          end)
       (seq 0 (Z.to_nat n)).

Definition testOutboud (s : OptimalStrategy) (net : Network) (tag : string)
    (result : optimalStrategyTestResult) (n : Z)
  : Outcome optimalStrategyTestResult :=
  match obm s with
  | None => Panicked "invalid memory address or nil pointer dereference"
  | Some m =>
      match m tag with
      | None => Returned result          (* "Wrong OptimalStrategy tag" is logged *)
      | Some oh =>
          scores <- trial_scores s net oh n ;;
          Returned {| r_tag := r_tag result; r_score := aggregate (count s) scores |}
      end
  end.

(** ** run *)

(** [results[i].score > results[j].score] *)
Definition by_score_desc (a b : optimalStrategyTestResult) : bool :=
  float64_gt (r_score a) (r_score b).

(** The results of the round before they are sorted: slot [i] is filled by
    the goroutine of [tags[i]], and [wg.Wait()] waits for all of them. *)
Definition probe_all (s : OptimalStrategy) (net : Network)
  : Outcome (list optimalStrategyTestResult) :=
  mapM (fun tag => testOutboud s net tag {| r_tag := tag; r_score := 0%float |} (count s))
       (tags s).

Section Round.

(** [sort.Slice(results, less)] with [less(i, j)] comparing the elements at
    [i] and [j]: the slice after the call. *)
Variable sort_Slice :
  (optimalStrategyTestResult -> optimalStrategyTestResult -> bool) ->
  list optimalStrategyTestResult -> list optimalStrategyTestResult.

(** The error returned is [None] for Go's nil. *)
Definition run (s : OptimalStrategy) (net : Network)
  : Outcome (option string * OptimalStrategy) :=
  results <- probe_all s net ;;
  let results := sort_Slice by_score_desc results in
  r0 <- index results 0 ;;
  Returned (None, with_tag s (r_tag r0)).

End Round.

(** ** buildClient *)

Section BuildClient.

(** A destination of the net package, and [net.ParseDestination]: the
    destination, or the error. *)
Variable Destination : Type.
Variable net_ParseDestination : string -> Destination + string.

(** What a successful dial sets up: the goroutine [oh.Dispatch(ctx, link)]
    whose context carries the target, and the connection over the two pipes
    of that link. *)
Record Dispatch : Type := {
  d_handler : Handler;
  d_Target : Destination
}.

Record Transport : Type := {
  DialContext : string -> string -> Dispatch + string;
  MaxConnsPerHost : Z;
  MaxIdleConns : Z;
  DisableCompression : bool;
  DisableKeepAlives : bool
}.

Record Client : Type := {
  c_Transport : Transport;
  c_Timeout : Duration
}.

Definition buildClient (s : OptimalStrategy) (oh : Handler) : Client :=
  {| c_Transport :=
       {| DialContext := fun network addr =>
            match net_ParseDestination (network ++ ":" ++ addr) with
            | inr err => inr err
            | inl netDestination =>
                inl {| d_handler := oh; d_Target := netDestination |}
            end;
          MaxConnsPerHost := 1;
          MaxIdleConns := 1;
          DisableCompression := true;
          DisableKeepAlives := true |};
     c_Timeout := timeout s |}.

End BuildClient.

(** ** sort.Slice on short slices

    [sort.Slice] promises a slice sorted by [less] and, in its documentation,
    no stability. The Go releases this code was written for (up to 1.18)
    implement it by [quickSort_func] of sort/zfuncversion.go, which for a
    range of at most 12 elements makes one pass over the pairs six apart and
    then calls [insertionSort_func]:
<<
      for i := a + 6; i < b; i++ {
          if data.Less(i, i-6) { data.Swap(i, i-6) }
      }
      insertionSort_func(data, a, b)
>>
    [shortSort] below is that code. On a longer slice it is still a sort. *)

Section SortFunc.

Context {T : Type}.
Variable less : T -> T -> bool.

(** [data.Less(i, j)] and [data.Swap(i, j)], for [i] and [j] in range. *)
Definition Less (data : list T) (i j : nat) : bool :=
  match nth_error data i, nth_error data j with
  | Some x, Some y => less x y
  | _, _ => false
  end.

Definition Swap (data : list T) (i j : nat) : list T :=
  match nth_error data i, nth_error data j with
  | Some x, Some y => set_nth (set_nth data i y) j x
  | _, _ => data
  end.

(** [for j := i; j > a && data.Less(j, j-1); j-- { data.Swap(j, j-1) }] *)
Fixpoint insertion_inner (data : list T) (a j : nat) {struct j} : list T :=
  match j with
  | O => data
  | S j' =>
      if (a <? j)%nat && Less data j j'
      then insertion_inner (Swap data j j') a j'
      else data
  end.

(** [for i := a + 1; i < b; i++ { ... }] around the loop above. *)
Definition insertionSort_func (data : list T) (a b : nat) : list T :=
  fold_left (fun d i => insertion_inner d a i) (seq (a + 1) (b - (a + 1))) data.

Definition gap_pass (data : list T) (a b : nat) : list T :=
  fold_left (fun d i => if Less d i (i - 6) then Swap d i (i - 6) else d)
    (seq (a + 6) (b - (a + 6))) data.

(** The end of [quickSort_func(data, a, b, maxDepth)], reached at once
    when [b - a <= 12]. *)
Definition quickSort_func_short (data : list T) (a b : nat) : list T :=
  if (1 <? b - a)%nat then insertionSort_func (gap_pass data a b) a b else data.

Definition shortSort (data : list T) : list T :=
  quickSort_func_short data 0 (List.length data).

(** What the inner loop of the insertion sort computes: [x] moves down the
    sorted part [rp], which is given last element first. *)
Fixpoint ins (x : T) (rp : list T) : list T :=
  match rp with
  | [] => [x]
  | y :: rp' => if less x y then y :: ins x rp' else x :: y :: rp'
  end.

End SortFunc.

(** ** The life of a strategy

    The states a strategy goes through: it is constructed, then callers pick
    outbounds, and once the periodic task exists its loop executes rounds. *)

Section Lifecycle.

Variable url_Parse : string -> URL + string.
Variable sort_Slice :
  (optimalStrategyTestResult -> optimalStrategyTestResult -> bool) ->
  list optimalStrategyTestResult -> list optimalStrategyTestResult.

Inductive Reachable : OptimalStrategy -> Prop :=
| reach_new config s :
    config_wf config ->
    NewOptimalStrategy url_Parse config = Returned s ->
    Reachable s
| reach_pick s m ts t s' gs :
    Reachable s ->
    PickOutbound s m ts = Returned (t, s', gs) ->
    Reachable s'
| reach_round s net e s' :
    Reachable s ->
    periodic s <> None ->
    run sort_Slice s net = Returned (e, s') ->
    Reachable s'.

End Lifecycle.

(** ** Concurrent calls of PickOutbound

    Each call is a goroutine that executes the statements of PickOutbound one
    at a time; the statements of different calls interleave. [sh_mutex] is
    [periodicMutex]: unlocked, or locked by the call of that number. The two
    counters record how many [task.Periodic] values have been constructed
    and which goroutines [go] has launched. *)

Inductive Pc : Type :=
| AtEntry            (* line 73: the tests of len(tags) *)
| AtStoreObm         (* line 79 *)
| AtStoreTags        (* line 80 *)
| AtCheck            (* line 82: if s.periodic == nil *)
| AtLock             (* line 83 *)
| AtRecheck          (* line 84: if s.periodic == nil *)
| AtSetTag           (* line 85 *)
| AtNewPeriodic      (* lines 86-89 *)
| AtGo               (* line 90 *)
| AtUnlock           (* line 92 *)
| AtReturn           (* line 95 *)
| Done (t : string)
| Crashed (msg : string).

Record Thread : Type := {
  t_pc : Pc;
  t_obm : Manager;
  t_tags : list string
}.

Record Shared : Type := {
  sh_s : OptimalStrategy;
  sh_mutex : option nat;
  sh_constructed : nat;
  sh_launched : list Goroutine
}.

Definition at_pc (t : Thread) (pc : Pc) : Thread :=
  {| t_pc := pc; t_obm := t_obm t; t_tags := t_tags t |}.

Definition with_s (sh : Shared) (s : OptimalStrategy) : Shared :=
  {| sh_s := s; sh_mutex := sh_mutex sh; sh_constructed := sh_constructed sh;
     sh_launched := sh_launched sh |}.

Definition with_mutex (sh : Shared) (m : option nat) : Shared :=
  {| sh_s := sh_s sh; sh_mutex := m; sh_constructed := sh_constructed sh;
     sh_launched := sh_launched sh |}.

(** The next statement of call number [me]; [None] when the call has ended
    or waits for the mutex. *)
Definition thread_step (me : nat) (sh : Shared) (t : Thread) : option (Shared * Thread) :=
  let s := sh_s sh in
  match t_pc t with
  | AtEntry =>
      if (List.length (t_tags t) =? 0)%nat then Some (sh, at_pc t (Crashed "0 tags"))
      else if (List.length (t_tags t) =? 1)%nat then Some (sh, at_pc t (Done (tag s)))
      else Some (sh, at_pc t AtStoreObm)
  | AtStoreObm => Some (with_s sh (with_obm s (t_obm t)), at_pc t AtStoreTags)
  | AtStoreTags => Some (with_s sh (with_tags s (t_tags t)), at_pc t AtCheck)
  | AtCheck =>
      match periodic s with
      | None => Some (sh, at_pc t AtLock)
      | Some _ => Some (sh, at_pc t AtReturn)
      end
  | AtLock =>
      match sh_mutex sh with
      | None => Some (with_mutex sh (Some me), at_pc t AtRecheck)
      | Some _ => None
      end
  | AtRecheck =>
      match periodic s with
      | None => Some (sh, at_pc t AtSetTag)
      | Some _ => Some (sh, at_pc t AtUnlock)
      end
  | AtSetTag =>
      match index (tags s) 0 with
      | Returned t0 => Some (with_s sh (with_tag s t0), at_pc t AtNewPeriodic)
      | Panicked msg => Some (sh, at_pc t (Crashed msg))
      end
  | AtNewPeriodic =>
      let p := {| p_Interval := interval s; p_Execute := task_run |} in
      Some ({| sh_s := with_periodic s p; sh_mutex := sh_mutex sh;
               sh_constructed := S (sh_constructed sh);
               sh_launched := sh_launched sh |},
            at_pc t AtGo)
  | AtGo =>
      match periodic s with
      | Some p =>
          Some ({| sh_s := s; sh_mutex := sh_mutex sh;
                   sh_constructed := sh_constructed sh;
                   sh_launched := sh_launched sh ++ [GoPeriodicStart p] |},
                at_pc t AtUnlock)
      | None =>
          Some (sh, at_pc t (Crashed "invalid memory address or nil pointer dereference"))
      end
  | AtUnlock => Some (with_mutex sh None, at_pc t AtReturn)
  | AtReturn => Some (sh, at_pc t (Done (tag s)))
  | Done _ => None
  | Crashed _ => None
  end.

(** One step of the system: some call executes its next statement, or a
    launched periodic loop finishes a round and publishes its winner (the
    only field a round writes is [s.tag]). *)
Inductive step : Shared * list Thread -> Shared * list Thread -> Prop :=
| step_call sh pool i t sh' t' :
    nth_error pool i = Some t ->
    thread_step i sh t = Some (sh', t') ->
    step (sh, pool) (sh', set_nth pool i t')
| step_round sh pool winner :
    sh_launched sh <> [] ->
    step (sh, pool) (with_s sh (with_tag (sh_s sh) winner), pool).

Inductive steps : Shared * list Thread -> Shared * list Thread -> Prop :=
| steps_refl c : steps c c
| steps_more c1 c2 c3 : steps c1 c2 -> step c2 c3 -> steps c1 c3.

(** The start: a strategy on which no periodic task exists yet, the mutex
    unlocked, and any number of calls about to begin. *)
Definition call (m : Manager) (ts : list string) : Thread :=
  {| t_pc := AtEntry; t_obm := m; t_tags := ts |}.

Definition initial (s : OptimalStrategy) (calls : list (Manager * list string))
  : Shared * list Thread :=
  ({| sh_s := s; sh_mutex := None; sh_constructed := 0; sh_launched := [] |},
   map (fun c => call (fst c) (snd c)) calls).

(** A call running alone: its statements, one after the other. *)
Fixpoint thread_run (fuel : nat) (me : nat) (sh : Shared) (t : Thread) : Shared * Thread :=
  match fuel with
  | O => (sh, t)
  | S fuel' =>
      match thread_step me sh t with
      | Some (sh', t') => thread_run fuel' me sh' t'
      | None => (sh, t)
      end
  end.

(** ** The words of the specification *)


(** The rational number a finite float64 stands for. *)
Definition exact_value (x : float) : Q :=
  match Prim2SF x with
  | S754_finite s m e => (inject_Z (cond_Zopp s (Z.pos m)) * 2 ^ e)%Q
  | _ => 0%Q
  end.

(** [less] orders the elements of [l]: what the sort package asks of a
    [less] function, on the elements that are sorted. *)
Definition strict_weak_on {T : Type} (less : T -> T -> bool) (l : list T) : Prop :=
  (forall x y, In x l -> In y l -> less x y = true -> less y x = false) /\
  (forall x y z, In x l -> In y l -> In z l ->
     less x y = false -> less y z = false -> less x z = false).

(** [sort.SliceIsSorted]: no element is less than the one before it. *)
Definition in_order {T : Type} (less : T -> T -> bool) (l : list T) : Prop :=
  Sorted (fun a b => less b a = false) l.

(** The promise of [sort.Slice]: the same elements, in order. Nothing is
    promised about the order of elements neither of which is less. *)
Definition sorts {T : Type}
    (sort : (T -> T -> bool) -> list T -> list T) : Prop :=
  (forall less l, Permutation (sort less l) l) /\
  (forall less l, strict_weak_on less l -> in_order less (sort less l)).

(** ** Schedules of concurrent calls *)

(** The calls run in the order of [schedule]; a call that cannot move is
    skipped. *)
Fixpoint run_schedule (schedule : list nat) (c : Shared * list Thread)
  : Shared * list Thread :=
  match schedule with
  | [] => c
  | i :: schedule' =>
      match nth_error (snd c) i with
      | Some t =>
          match thread_step i (fst c) t with
          | Some (sh', t') => run_schedule schedule' (sh', set_nth (snd c) i t')
          | None => run_schedule schedule' c
          end
      | None => run_schedule schedule' c
      end
  end.

(** ** Invariants *)

(** What the loop maintains after [n >= 1] nonnegative scores. *)
Definition loop_inv (n : nat) (acc : Q * Q * Q) : Prop :=
  let '(mn, mx, sm) := acc in
  (mn <= mx)%Q /\ (0 <= mx)%Q /\ (mx <= sm)%Q /\
  (n = 1%nat -> (sm == mx)%Q) /\
  ((2 <= n)%nat -> (mn + mx <= sm)%Q).

(** Zero of either sign, a positive number, or plus infinity. *)
Definition SF_nonneg (x : spec_float) : Prop :=
  match x with
  | S754_zero _ => True
  | S754_infinity s => s = false
  | S754_nan => False
  | S754_finite s _ _ => s = false
  end.

(** The sign bit is clear: plus zero, a positive number or plus infinity. *)
Definition SF_plus (x : spec_float) : Prop :=
  match x with
  | S754_nan => False
  | S754_zero s | S754_infinity s | S754_finite s _ _ => s = false
  end.

(** A positive binary64 number whose mantissa has at most 53 digits and
    whose exponent lies between [lo] and [hi]. *)
Definition SF_within (lo hi : Z) (x : spec_float) : Prop :=
  exists m e, x = S754_finite false m e /\ Zdigits2 (Z.pos m) <= 53 /\ lo <= e <= hi.

(** Zero or a finite number, of either sign. *)
Definition SF_finite (x : spec_float) : Prop :=
  match x with
  | S754_zero _ | S754_finite _ _ _ => True
  | _ => False
  end.

(** The clock does not run backwards during the probe, and the body is no
    longer than an int can count. *)
Definition clock_forward (p : Probe) : Prop :=
  0 <= finishAt p - startAt p <= MaxInt64 /\
  (forall body, response p = Some body -> Z.of_nat (List.length body) <= MaxInt64).

(** A request that succeeds between two equal clock readings. *)
Definition instant (p : Probe) : Prop :=
  response p <> None /\ finishAt p = startAt p.

(** A key in Z * Z * Z whose lexicographic order is the order of the numbers
    that are not NaN. *)
Definition SF_key (x : spec_float) : Z * Z * Z :=
  match x with
  | S754_zero _ => (0, 0, 0)
  | S754_infinity true => (-2, 0, 0)
  | S754_infinity false => (2, 0, 0)
  | S754_nan => (0, 0, 0)
  | S754_finite true m e => (-1, - e, - Z.pos m)
  | S754_finite false m e => (1, e, Z.pos m)
  end.

(** The lexicographic order of the keys. *)
Definition lex_lt (a b : Z * Z * Z) : Prop :=
  let '(a1, a2, a3) := a in
  let '(b1, b2, b3) := b in
  a1 < b1 \/ (a1 = b1 /\ (a2 < b2 \/ (a2 = b2 /\ a3 < b3))).

(** The statements between Lock and Unlock. *)
Definition in_critical (pc : Pc) : bool :=
  match pc with
  | AtRecheck | AtSetTag | AtNewPeriodic | AtGo | AtUnlock => true
  | _ => false
  end.

(** The calls that have stored their candidates and may still read them. *)
Definition reads_tags (pc : Pc) : bool :=
  match pc with
  | AtCheck | AtLock | AtRecheck | AtSetTag => true
  | _ => false
  end.

(** No periodic task yet, or one, constructed once and launched once. *)
Definition not_started (sh : Shared) : Prop :=
  periodic (sh_s sh) = None /\ sh_constructed sh = 0%nat /\ sh_launched sh = [].

Definition started (sh : Shared) : Prop :=
  periodic (sh_s sh) <> None /\ sh_constructed sh = 1%nat /\
  List.length (sh_launched sh) = 1%nat.

(** What holds while the call at [pc] has the mutex. *)
Definition holder_at (sh : Shared) (pc : Pc) : Prop :=
  match pc with
  | AtRecheck => not_started sh \/ started sh
  | AtSetTag | AtNewPeriodic => not_started sh
  | AtGo => periodic (sh_s sh) <> None /\ sh_constructed sh = 1%nat /\ sh_launched sh = []
  | AtUnlock => started sh
  | _ => False
  end.

(** What the mutex guards: with the mutex unlocked the periodic task is
    either not started or fully started. *)
Definition mutex_inv (sh : Shared) (pool : list Thread) : Prop :=
  match sh_mutex sh with
  | None => not_started sh \/ started sh
  | Some i => exists t, nth_error pool i = Some t /\ holder_at sh (t_pc t)
  end.

(** A call with more than one candidate that is about to return or has
    returned. *)
Definition past_creation (t : Thread) : Prop :=
  t_pc t = AtReturn \/ (exists r, t_pc t = Done r /\ (2 <= List.length (t_tags t))%nat).

(** The invariant of the interleaved calls. *)
Record Inv (sh : Shared) (pool : list Thread) : Prop := {
  inv_mutex : mutex_inv sh pool;
  inv_excl : forall j t, nth_error pool j = Some t ->
               in_critical (t_pc t) = true -> sh_mutex sh = Some j;
  inv_args : forall j t, nth_error pool j = Some t ->
               t_pc t = AtStoreObm \/ t_pc t = AtStoreTags ->
               (2 <= List.length (t_tags t))%nat;
  inv_tags : forall j t, nth_error pool j = Some t ->
               reads_tags (t_pc t) = true -> (2 <= List.length (tags (sh_s sh)))%nat;
  inv_past : forall j t, nth_error pool j = Some t ->
               past_creation t -> periodic (sh_s sh) <> None
}.

(** A call that has returned or panicked. *)
Definition ended (pc : Pc) : bool :=
  match pc with
  | Done _ | Crashed _ => true
  | _ => false
  end.

(** The statements a call at [pc] has at most still to execute. *)
Definition statements_left (pc : Pc) : nat :=
  match pc with
  | AtEntry => 11
  | AtStoreObm => 10
  | AtStoreTags => 9
  | AtCheck => 8
  | AtLock => 7
  | AtRecheck => 6
  | AtSetTag => 5
  | AtNewPeriodic => 4
  | AtGo => 3
  | AtUnlock => 2
  | AtReturn => 1
  | Done _ | Crashed _ => 0
  end.

(** The statements all the calls together have at most still to execute. *)
Definition calls_left (pool : list Thread) : nat :=
  fold_right (fun t n => (statements_left (t_pc t) + n)%nat) 0%nat pool.

(** What a call's place in the code says about the candidates it was given. *)
Definition args_at (t : Thread) : Prop :=
  match t_pc t with
  | AtEntry => True
  | Crashed msg => t_tags t = [] /\ msg = "0 tags"%string
  | Done _ => t_tags t <> []
  | _ => (2 <= List.length (t_tags t))%nat
  end.

Definition args_inv (calls : list (Manager * list string)) (pool : list Thread) : Prop :=
  map t_tags pool = map snd calls /\
  forall j t, nth_error pool j = Some t -> args_at t.

(** ** Sample inputs *)

(** What [url.Parse] makes of the default probe URL. *)
Definition google : URL :=
  {| Scheme := "https"; Host := "www.google.com"; Path := "" |}.

(** A parser that knows two addresses, the default and an ftp one. *)
Definition sample_Parse (u : string) : URL + string :=
  if (u =? default_url)%string then inl google
  else if (u =? "ftp://example.org")%string
       then inl {| Scheme := "ftp"; Host := "example.org"; Path := "" |}
       else inr "parse error"%string.

(** The configuration with every field left out, and the strategy
    constructed from it. *)
Definition zero_config : BalancingOptimalStrategyConfig :=
  {| Timeout := 0; Interval := 0; Url := ""; Count := 0 |}.

Definition fresh_strategy : OptimalStrategy :=
  {| timeout := 5000000000; interval := 600000000000; url := Some google;
     count := 3; obm := None; tag := ""; tags := []; periodic := None |}.

(** A manager that knows the tags "a" to "g" as handlers 0 to 6. *)
Definition sample_obm : Manager :=
  fun t =>
    if (t =? "a")%string then Some 0%nat
    else if (t =? "b")%string then Some 1%nat
    else if (t =? "c")%string then Some 2%nat
    else if (t =? "d")%string then Some 3%nat
    else if (t =? "e")%string then Some 4%nat
    else if (t =? "f")%string then Some 5%nat
    else if (t =? "g")%string then Some 6%nat
    else None.

(** The body "a\n", read in one second. *)
Definition one_line_probe : Probe :=
  {| startAt := 0; response := Some [Byte.x61; newline]; finishAt := 1000000000 |}.

(** Seven candidates. *)
Definition seven_tags : list string := ["a"; "b"; "c"; "d"; "e"; "f"; "g"]%string.

(** The strategy after its first call, for the seven candidates. *)
Definition probed_strategy : OptimalStrategy :=
  {| timeout := 5000000000; interval := 600000000000; url := Some google;
     count := 3; obm := Some sample_obm; tag := "a"; tags := seven_tags;
     periodic := Some {| p_Interval := 600000000000; p_Execute := task_run |} |}.

(** Every probe of "a" gets one byte in a second, every probe of "b" and of
    "g" two bytes, and the probes of the other outbounds fail. *)
Definition tie_network : Network :=
  fun oh _ =>
    match oh with
    | 0%nat => {| startAt := 0; response := Some [Byte.x78]; finishAt := 1000000000 |}
    | 1%nat | 6%nat =>
        {| startAt := 0; response := Some [Byte.x78; Byte.x79]; finishAt := 1000000000 |}
    | _ => {| startAt := 0; response := None; finishAt := 0 |}
    end.

(** The aggregated scores of that round, in candidate order. *)
Definition tie_results : list optimalStrategyTestResult :=
  [ {| r_tag := "a"; r_score := 1 |}; {| r_tag := "b"; r_score := 2 |};
    {| r_tag := "c"; r_score := 0 |}; {| r_tag := "d"; r_score := 0 |};
    {| r_tag := "e"; r_score := 0 |}; {| r_tag := "f"; r_score := 0 |};
    {| r_tag := "g"; r_score := 2 |} ].

(** The strategy after a first call for "a" and "zz", a tag the manager
    does not know. *)
Definition lost_strategy : OptimalStrategy :=
  {| timeout := 5000000000; interval := 600000000000; url := Some google;
     count := 3; obm := Some sample_obm; tag := "a"; tags := ["a"; "zz"]%string;
     periodic := Some {| p_Interval := 600000000000; p_Execute := task_run |} |}.

(** The strategy after a first call for three candidates. *)
Definition three_strategy : OptimalStrategy :=
  {| timeout := 5000000000; interval := 600000000000; url := Some google;
     count := 3; obm := Some sample_obm; tag := "a"; tags := ["a"; "b"; "c"]%string;
     periodic := Some {| p_Interval := 600000000000; p_Execute := task_run |} |}.

(** Every probe of "a" gets one byte in a second and every probe of "c" two
    bytes; so do the probes of "b", but for the first, which gets an empty
    body while the clock reads the same before and after. *)
Definition instant_network : Network :=
  fun oh i =>
    match oh, i with
    | 0%nat, _ => {| startAt := 0; response := Some [Byte.x78]; finishAt := 1000000000 |}
    | 1%nat, 0%nat => {| startAt := 7; response := Some []; finishAt := 7 |}
    | _, _ =>
        {| startAt := 0; response := Some [Byte.x78; Byte.x79]; finishAt := 1000000000 |}
    end.

(** A network on which every request fails. *)
Definition dead_network : Network :=
  fun _ _ => {| startAt := 0; response := None; finishAt := 0 |}.

(** A request that gets its response header, after which the outbound
    stalls: [client.Do] returns the response, the body delivers nothing, and
    its read fails five seconds after the start, when [Client.Timeout]
    (5 s by default) expires. *)
Definition stalled_probe : Probe :=
  {| startAt := 0; response := Some []; finishAt := 5000000000 |}.

(** A network on which every request stalls so. *)
Definition stalled_network : Network := fun _ _ => stalled_probe.

(** A network on which the requests through "b" stall so and the requests
    through every other outbound fail at once. *)
Definition one_stalled_network : Network :=
  fun oh i =>
    match oh with
    | 1%nat => stalled_probe
    | _ => dead_network oh i
    end.

(** Two concurrent first calls. *)
Definition two_calls : list (Manager * list string) :=
  [ (sample_obm, ["a"; "b"]%string); (sample_obm, ["b"; "a"]%string) ].

(** Two concurrent first calls with different candidates. *)
Definition rival_calls : list (Manager * list string) :=
  [ (sample_obm, ["a"; "b"]%string); (sample_obm, ["c"; "d"]%string) ].

(** Both calls pass the first test of [s.periodic] before either locks. *)
Definition racing_schedule : list nat :=
  [0; 0; 0; 0; 1; 1; 1; 1; 0; 0; 0; 0; 0; 0; 0; 1; 1; 1; 1]%nat.

(** A body of one line of 65536 bytes. *)
Definition long_line : list Byte.byte := repeat Byte.x61 (Z.to_nat MaxScanTokenSize).

(** * Properties *)

(** ** Construction *)

Lemma wrap_int64_small (z : Z) : MinInt64 <= z <= MaxInt64 -> wrap_int64 z = z.
Proof.
  unfold wrap_int64, MinInt64, MaxInt64. intros Hz.
  rewrite Z.mod_small; lia.
Qed.

Lemma timeout_value (z : Z) :
  uint32_range z ->
  (if z =? 0 then wrap_int64 (Second * 5) else wrap_int64 (Millisecond * z))
  = Millisecond * (if z =? 0 then 5000 else z).
Proof.
  unfold uint32_range, MaxUint32. intros Hz.
  destruct (Z.eqb_spec z 0); [ reflexivity | ].
  apply wrap_int64_small. unfold MinInt64, MaxInt64, Millisecond. lia.
Qed.

Lemma interval_value (z : Z) :
  uint32_range z ->
  (if z =? 0 then wrap_int64 (wrap_int64 (Second * 60) * 10)
   else wrap_int64 (Millisecond * z))
  = Millisecond * (if z =? 0 then 600000 else z).
Proof.
  unfold uint32_range, MaxUint32. intros Hz.
  destruct (Z.eqb_spec z 0); [ reflexivity | ].
  apply wrap_int64_small. unfold MinInt64, MaxInt64, Millisecond. lia.
Qed.

Lemma with_tags_obm_periodic (s : OptimalStrategy) (m : Manager) (ts : list string) :
  periodic (with_tags (with_obm s m) ts) = periodic s.
Proof. reflexivity. Qed.

Section ConstructionFacts.

Variable url_Parse : string -> URL + string.

Lemma NewOptimalStrategy_fresh config s :
  NewOptimalStrategy url_Parse config = Returned s ->
  obm s = None /\ tag s = ""%string /\ tags s = [] /\ periodic s = None.
Proof.
  unfold NewOptimalStrategy, bind. intros Hnew.
  destruct (Url config =? "")%string.
  - injection Hnew as <-. repeat split.
  - destruct (url_Parse (Url config)) as [u | err]; [ | discriminate ].
    destruct (negb (Scheme u =? "http")%string && negb (Scheme u =? "https")%string);
      [ discriminate | ].
    injection Hnew as <-. repeat split.
Qed.


End ConstructionFacts.


Example NewOptimalStrategy_zero_config :
  NewOptimalStrategy sample_Parse zero_config = Returned fresh_strategy.
Proof. reflexivity. Qed.

Example NewOptimalStrategy_ftp :
  NewOptimalStrategy sample_Parse
    {| Timeout := 250; Interval := 0; Url := "ftp://example.org"; Count := 1 |}
  = Panicked "Only http/https url support".
Proof. reflexivity. Qed.

(** ** PickOutbound, one caller *)

Lemma PickOutbound_one_tag (s : OptimalStrategy) (m : Manager) (t : string) :
  PickOutbound s m [t] = Returned (tag s, s, []).
Proof. reflexivity. Qed.

Lemma PickOutbound_first_use (s : OptimalStrategy) (m : Manager) (t0 t1 : string)
    (rest : list string) :
  periodic s = None ->
  let p := {| p_Interval := interval s; p_Execute := task_run |} in
  PickOutbound s m (t0 :: t1 :: rest)
  = Returned (t0,
              with_periodic (with_tag (with_tags (with_obm s m) (t0 :: t1 :: rest)) t0) p,
              [GoPeriodicStart p]).
Proof.
  intros Hnil. unfold PickOutbound. cbn [List.length Nat.eqb].
  rewrite with_tags_obm_periodic, Hnil. reflexivity.
Qed.

Lemma PickOutbound_later_use (s : OptimalStrategy) (m : Manager) (t0 t1 : string)
    (rest : list string) (p : Periodic) :
  periodic s = Some p ->
  PickOutbound s m (t0 :: t1 :: rest)
  = Returned (tag s, with_tags (with_obm s m) (t0 :: t1 :: rest), []).
Proof.
  intros Hp. unfold PickOutbound. cbn [List.length Nat.eqb].
  rewrite with_tags_obm_periodic, Hp. reflexivity.
Qed.

(** C1. With one candidate PickOutbound starts nothing and leaves the
    strategy as it was, but what it returns is the tag stored in the
    strategy, not the candidate: on a strategy just constructed the call
    with the one candidate "a" returns the empty string. *)
Theorem PickOutbound_one_tag_returns_stored_tag :
  (forall s m t, PickOutbound s m [t] = Returned (tag s, s, [])) /\
  (forall url_Parse m,
     exists s,
       NewOptimalStrategy url_Parse zero_config = Returned s /\
       periodic s = None /\
       PickOutbound s m ["a"%string] = Returned (""%string, s, []) /\
       ""%string <> "a"%string).
Proof.
  split.
  - intros s m t. apply PickOutbound_one_tag.
  - intros url_Parse m. eexists. split; [ reflexivity | ].
    split; [ reflexivity | ]. split; [ reflexivity | discriminate ].
Qed.

(** C5. PickOutbound panics exactly on an empty candidate set, with the
    message "0 tags"; on every other set it returns. *)
Theorem PickOutbound_panics_iff_no_tags (s : OptimalStrategy) (m : Manager)
    (ts : list string) :
  ((exists msg, PickOutbound s m ts = Panicked msg) <-> ts = []) /\
  (forall msg, PickOutbound s m ts = Panicked msg -> msg = "0 tags"%string) /\
  (ts <> [] -> exists t s' gs, PickOutbound s m ts = Returned (t, s', gs)).
Proof.
  destruct ts as [ | t0 [ | t1 rest ] ].
  - split; [ split; [ reflexivity | intros _; eexists; reflexivity ] | ].
    split; [ intros msg Hm; injection Hm as <-; reflexivity | ].
    intros Hne. contradiction.
  - rewrite PickOutbound_one_tag.
    split; [ split; [ intros (msg & Hm); discriminate | discriminate ] | ].
    split; [ discriminate | ]. intros _. do 3 eexists. reflexivity.
  - destruct (periodic s) as [ p | ] eqn:Hp.
    + rewrite (PickOutbound_later_use _ _ _ _ _ _ Hp).
      split; [ split; [ intros (msg & Hm); discriminate | discriminate ] | ].
      split; [ discriminate | ]. intros _. do 3 eexists. reflexivity.
    + rewrite (PickOutbound_first_use _ _ _ _ _ Hp).
      split; [ split; [ intros (msg & Hm); discriminate | discriminate ] | ].
      split; [ discriminate | ]. intros _. do 3 eexists. reflexivity.
Qed.

(** With one caller at a time, the first call with more than one candidate
    (no periodic task exists yet) stores the first candidate as the
    published tag, returns it, and leaves the first round to the goroutine
    it launches: the call itself makes no probe. *)
Lemma PickOutbound_first_call_publishes_first_tag (s : OptimalStrategy) (m : Manager)
    (t0 t1 : string) (rest : list string) :
  periodic s = None ->
  exists s' p,
    PickOutbound s m (t0 :: t1 :: rest) = Returned (t0, s', [GoPeriodicStart p]) /\
    tag s' = t0 /\
    periodic s' = Some p /\
    p_Interval p = interval s /\
    tags s' = t0 :: t1 :: rest.
Proof.
  intros Hnil. rewrite (PickOutbound_first_use _ _ _ _ _ Hnil).
  do 2 eexists. repeat split.
Qed.

Lemma PickOutbound_first_call_witness :
  exists s' p,
    PickOutbound fresh_strategy sample_obm ["a"; "b"; "c"]%string
    = Returned ("a"%string, s', [GoPeriodicStart p]) /\
    tag s' = "a"%string /\
    periodic s' = Some p /\
    p_Interval p = interval fresh_strategy /\
    tags s' = ["a"; "b"; "c"]%string.
Proof.
  exact (PickOutbound_first_call_publishes_first_tag
           fresh_strategy sample_obm "a" "b" ["c"%string] eq_refl).
Defined.

(** ** The order of float64 *)

Lemma SFltb_key (x y : spec_float) :
  x <> S754_nan -> y <> S754_nan ->
  (SFltb x y = true <-> lex_lt (SF_key x) (SF_key y)).
Proof.
  intros Hx Hy. unfold SFltb.
  destruct x as [ sx | sx | | sx mx ex ]; destruct y as [ sy | sy | | sy my ey ];
    try contradiction; try destruct sx; try destruct sy;
    cbn [SFcompare SF_key lex_lt];
    try (split; [ intros Hlt; try discriminate; lia | intros Hlt; try reflexivity; lia ]).
  - change (Pos.compare_cont Eq mx my) with (Pos.compare mx my).
    destruct (Z.compare_spec ex ey); destruct (Pos.compare_spec mx my); cbn [CompOpp];
      (split; [ intros Hlt; try discriminate; lia | intros Hlt; try reflexivity; lia ]).
  - change (Pos.compare_cont Eq mx my) with (Pos.compare mx my).
    destruct (Z.compare_spec ex ey); destruct (Pos.compare_spec mx my);
      (split; [ intros Hlt; try discriminate; lia | intros Hlt; try reflexivity; lia ]).
Qed.

Lemma SFltb_not_nan (x y : spec_float) :
  SFltb x y = true -> x <> S754_nan /\ y <> S754_nan.
Proof.
  unfold SFltb. destruct x, y; cbn [SFcompare]; intros Hlt; try discriminate;
    split; discriminate.
Qed.

Lemma is_nan_false (x : float) : is_nan x = false -> Prim2SF x <> S754_nan.
Proof.
  unfold is_nan. rewrite FloatAxioms.eqb_spec. intros Hx Hnan.
  rewrite Hnan in Hx. discriminate.
Qed.

Lemma float64_gt_asym (a b : float) :
  float64_gt a b = true -> float64_gt b a = false.
Proof.
  unfold float64_gt. rewrite !ltb_spec. intros Hlt.
  destruct (SFltb_not_nan _ _ Hlt) as [Hb Ha].
  apply (SFltb_key _ _ Hb Ha) in Hlt.
  destruct (SFltb (Prim2SF a) (Prim2SF b)) eqn:Hgt; [ | reflexivity ].
  apply (SFltb_key _ _ Ha Hb) in Hgt.
  destruct (SF_key (Prim2SF a)) as [[a1 a2] a3].
  destruct (SF_key (Prim2SF b)) as [[b1 b2] b3].
  cbn [lex_lt] in *. lia.
Qed.

Lemma float64_gt_negtrans (a b c : float) :
  is_nan b = false ->
  float64_gt a b = false -> float64_gt b c = false -> float64_gt a c = false.
Proof.
  unfold float64_gt. rewrite !ltb_spec. intros Hb%is_nan_false Hab Hbc.
  destruct (SFltb (Prim2SF c) (Prim2SF a)) eqn:Hac; [ | reflexivity ].
  destruct (SFltb_not_nan _ _ Hac) as [Hc Ha].
  apply (SFltb_key _ _ Hc Ha) in Hac.
  assert (Hab' : ~ lex_lt (SF_key (Prim2SF b)) (SF_key (Prim2SF a))).
  { intros Hlt. apply (SFltb_key _ _ Hb Ha) in Hlt. congruence. }
  assert (Hbc' : ~ lex_lt (SF_key (Prim2SF c)) (SF_key (Prim2SF b))).
  { intros Hlt. apply (SFltb_key _ _ Hc Hb) in Hlt. congruence. }
  destruct (SF_key (Prim2SF a)) as [[a1 a2] a3].
  destruct (SF_key (Prim2SF b)) as [[b1 b2] b3].
  destruct (SF_key (Prim2SF c)) as [[c1 c2] c3].
  cbn [lex_lt] in *. lia.
Qed.

(** ** The aggregation *)

Section AggregationFacts.

Context {F : Type} `{Arith F}.

(** The three accumulators of the loop do not depend on each other. *)
Lemma score_loop_from (scores : list F) (mn mx sm : F) :
  fold_left score_step scores (mn, mx, sm)
  = (fold_left (fun m y => if flt y m then y else m) scores mn,
     fold_left (fun m y => if flt m y then y else m) scores mx,
     fold_left fadd scores sm).
Proof.
  revert mn mx sm. induction scores as [ | x rest IH ]; intros mn mx sm.
  - reflexivity.
  - cbn [fold_left score_step]. apply IH.
Qed.

End AggregationFacts.

Lemma wrap_uint32_small (z : Z) : 0 <= z <= MaxUint32 -> wrap_uint32 z = z.
Proof.
  unfold wrap_uint32, MaxUint32. intros Hz. apply Z.mod_small. lia.
Qed.

(** *** The sentinels of the loop *)

Lemma float64_ltb_negtrans (x y z : float) :
  is_nan y = false ->
  PrimFloat.ltb x y = false -> PrimFloat.ltb y z = false -> PrimFloat.ltb x z = false.
Proof.
  intros Hy Hxy Hyz. apply (float64_gt_negtrans z y x Hy); assumption.
Qed.

(** [x] is below [z] when [x] is below [y] and [z] is not. *)
Lemma float64_ltb_below (x y z : float) :
  is_nan z = false ->
  PrimFloat.ltb x y = true -> PrimFloat.ltb z y = false -> PrimFloat.ltb x z = true.
Proof.
  intros Hz Hxy Hzy. destruct (PrimFloat.ltb x z) eqn:Hxz; [ reflexivity | ].
  rewrite (float64_ltb_negtrans x z y Hz Hxz Hzy) in Hxy. discriminate.
Qed.

Lemma float64_ltb_above (x y z : float) :
  is_nan z = false ->
  PrimFloat.ltb y x = true -> PrimFloat.ltb y z = false -> PrimFloat.ltb z x = true.
Proof.
  intros Hz Hyx Hyz. destruct (PrimFloat.ltb z x) eqn:Hzx; [ reflexivity | ].
  rewrite (float64_ltb_negtrans y z x Hz Hyz Hzx) in Hyx. discriminate.
Qed.

(** The minimum found does not depend on where the search starts, when
    some score is below both starting values. *)
Lemma minimum_from_any (scores : list float) (a b : float) :
  Forall (fun x => is_nan x = false) scores ->
  Exists (fun z => PrimFloat.ltb z a = true /\ PrimFloat.ltb z b = true) scores ->
  fold_left (fun m y => if PrimFloat.ltb y m then y else m) scores a
  = fold_left (fun m y => if PrimFloat.ltb y m then y else m) scores b.
Proof.
  intros Hnan. revert a b. induction Hnan as [ | y rest Hy Hrest IH ]; intros a b Hex.
  - inversion Hex.
  - cbn [fold_left].
    destruct (PrimFloat.ltb y a) eqn:Hya; destruct (PrimFloat.ltb y b) eqn:Hyb.
    + reflexivity.
    + apply IH. inversion Hex as [ z l [Hza Hzb] | z l Hl ]; subst; [ congruence | ].
      revert Hl. apply Exists_impl. intros z [Hza Hzb].
      split; [ | exact Hzb ]. apply (float64_ltb_below z b y Hy Hzb Hyb).
    + apply IH. inversion Hex as [ z l [Hza Hzb] | z l Hl ]; subst; [ congruence | ].
      revert Hl. apply Exists_impl. intros z [Hza Hzb].
      split; [ exact Hza | ]. apply (float64_ltb_below z a y Hy Hza Hya).
    + apply IH. inversion Hex as [ z l [Hza Hzb] | z l Hl ]; subst; [ congruence | ].
      exact Hl.
Qed.

Lemma maximum_from_any (scores : list float) (a b : float) :
  Forall (fun x => is_nan x = false) scores ->
  Exists (fun z => PrimFloat.ltb a z = true /\ PrimFloat.ltb b z = true) scores ->
  fold_left (fun m y => if PrimFloat.ltb m y then y else m) scores a
  = fold_left (fun m y => if PrimFloat.ltb m y then y else m) scores b.
Proof.
  intros Hnan. revert a b. induction Hnan as [ | y rest Hy Hrest IH ]; intros a b Hex.
  - inversion Hex.
  - cbn [fold_left].
    destruct (PrimFloat.ltb a y) eqn:Hay; destruct (PrimFloat.ltb b y) eqn:Hby.
    + reflexivity.
    + apply IH. inversion Hex as [ z l [Haz Hbz] | z l Hl ]; subst; [ congruence | ].
      revert Hl. apply Exists_impl. intros z [Haz Hbz].
      split; [ | exact Hbz ]. apply (float64_ltb_above z b y Hy Hbz Hby).
    + apply IH. inversion Hex as [ z l [Haz Hbz] | z l Hl ]; subst; [ congruence | ].
      revert Hl. apply Exists_impl. intros z [Haz Hbz].
      split; [ exact Haz | ]. apply (float64_ltb_above z a y Hy Haz Hay).
    + apply IH. inversion Hex as [ z l [Haz Hbz] | z l Hl ]; subst; [ congruence | ].
      exact Hl.
Qed.

(** With a score below the upper sentinel and a score above the lower one,
    the loop computes minimum, maximum and sum. *)
Lemma score_loop_float64 (scores : list float) (mn mx : float) :
  Forall (fun x => is_nan x = false) scores ->
  Exists (fun x => PrimFloat.ltb x (float64_of_Z MaxInt64) = true) scores ->
  Exists (fun x => PrimFloat.ltb (float64_of_Z MinInt64) x = true) scores ->
  list_minimum scores = Some mn ->
  list_maximum scores = Some mx ->
  score_loop scores = (mn, mx, list_sum scores).
Proof.
  intros Hnan Hlow Hhigh Hmn Hmx.
  destruct scores as [ | x rest ]; [ discriminate | ].
  inversion Hnan as [ | x' rest' Hx Hrest ]; subst x' rest'.
  cbn [list_minimum list_maximum] in Hmn, Hmx.
  injection Hmn as <-. injection Hmx as <-.
  unfold score_loop, list_sum. rewrite score_loop_from.
  cbn [fold_left flt fadd of_Z float64_arith].
  apply f_equal2; [ apply f_equal2 | reflexivity ].
  - destruct (PrimFloat.ltb x (float64_of_Z MaxInt64)) eqn:Hxs; [ reflexivity | ].
    apply (minimum_from_any rest _ _ Hrest).
    inversion Hlow as [ z l Hz | z l Hl ]; subst; [ congruence | ].
    revert Hl. apply Exists_impl. intros z Hz.
    split; [ exact Hz | ]. apply (float64_ltb_below z _ x Hx Hz Hxs).
  - destruct (PrimFloat.ltb (float64_of_Z MinInt64) x) eqn:Hxs; [ reflexivity | ].
    apply (maximum_from_any rest _ _ Hrest).
    inversion Hhigh as [ z l Hz | z l Hl ]; subst; [ congruence | ].
    revert Hl. apply Exists_impl. intros z Hz.
    split; [ exact Hz | ]. apply (float64_ltb_above z _ x Hx Hz Hxs).
Qed.

(** Where the loop does find the extremes. Of as many trial scores as
    s.count says: with fewer than 3 trials the aggregated score is the
    arithmetic mean; with more, when no score is NaN, some score is below
    float64(math.MaxInt64) and some score is above float64(math.MinInt64),
    it is (sum - minimum - maximum) / (trialCount - 2); [1, 5, 9] gives 5
    and [2, 2] gives 2. *)
Lemma aggregate_is_trimmed_mean (s_count : Z) (scores : list float) :
  s_count = Z.of_nat (List.length scores) ->
  uint32_range s_count ->
  (s_count < 3 -> aggregate s_count scores = arithmetic_mean scores) /\
  (3 <= s_count ->
   Forall (fun x => is_nan x = false) scores ->
   Exists (fun x => PrimFloat.ltb x (float64_of_Z MaxInt64) = true) scores ->
   Exists (fun x => PrimFloat.ltb (float64_of_Z MinInt64) x = true) scores ->
   Some (aggregate s_count scores) = trimmed_mean s_count scores) /\
  aggregate 3 [1; 5; 9]%float = 5%float /\
  aggregate 2 [2; 2]%float = 2%float.
Proof.
  intros Hlen Hrange.
  split; [ | split; [ | split; vm_compute; reflexivity ] ].
  - intros Hfew. unfold aggregate, arithmetic_mean, score_loop, list_sum.
    rewrite score_loop_from. rewrite <- Hlen.
    apply Z.ltb_lt in Hfew. rewrite Hfew. reflexivity.
  - intros Hmany Hnan Hlow Hhigh. unfold aggregate, trimmed_mean.
    destruct (list_minimum scores) as [ mn | ] eqn:Hmn;
      [ | destruct scores; [ inversion Hlow | discriminate ] ].
    destruct (list_maximum scores) as [ mx | ] eqn:Hmx;
      [ | destruct scores; [ inversion Hlow | discriminate ] ].
    rewrite (score_loop_float64 scores mn mx Hnan Hlow Hhigh Hmn Hmx).
    rewrite <- Hlen. apply Z.ltb_ge in Hmany. rewrite Hmany.
    rewrite wrap_uint32_small by (unfold uint32_range in Hrange; lia).
    reflexivity.
Qed.

Lemma aggregate_is_trimmed_mean_witness :
  aggregate 2 [4; 1e19]%float = arithmetic_mean [4; 1e19]%float /\
  Some (aggregate 3 [4; 1e19; 7]%float) = trimmed_mean 3 [4; 1e19; 7]%float.
Proof.
  assert (Htwo : uint32_range 2) by (unfold uint32_range, MaxUint32; lia).
  assert (Hthree : uint32_range 3) by (unfold uint32_range, MaxUint32; lia).
  split.
  - apply (proj1 (aggregate_is_trimmed_mean 2 [4; 1e19]%float eq_refl Htwo)).
    lia.
  - apply (proj1 (proj2 (aggregate_is_trimmed_mean 3 [4; 1e19; 7]%float eq_refl Hthree))).
    + lia.
    + repeat constructor.
    + apply Exists_cons_hd. reflexivity.
    + apply Exists_cons_hd. reflexivity.
Defined.


(** *** Without rounding: the aggregation over the rationals *)

Lemma Qle_bool_false (x y : Q) : Qle_bool x y = false -> (y < x)%Q.
Proof.
  intros Hb. apply Qnot_le_lt. intros Hle.
  apply Qle_bool_iff in Hle. congruence.
Qed.

Lemma loop_inv_first (x : Q) :
  (0 <= x)%Q ->
  loop_inv 1 (score_step (of_Z MaxInt64, of_Z MinInt64, of_Z 0) x).
Proof.
  intros Hx. unfold score_step, loop_inv. cbn [of_Z flt fadd exact_arith].
  unfold MaxInt64, MinInt64, inject_Z.
  destruct (Qle_bool (9223372036854775807 # 1) x) eqn:Hmn;
    destruct (Qle_bool x (-9223372036854775808 # 1)) eqn:Hmx; cbn [negb];
    try apply Qle_bool_iff in Hmn; try apply Qle_bool_false in Hmn;
    try apply Qle_bool_iff in Hmx; try apply Qle_bool_false in Hmx;
    repeat split; intros; try lra; try lia.
Qed.

Lemma loop_inv_step (n : nat) (acc : Q * Q * Q) (x : Q) :
  (1 <= n)%nat ->
  loop_inv n acc ->
  (0 <= x)%Q ->
  loop_inv (S n) (score_step acc x).
Proof.
  intros Hn Hinv Hx. destruct acc as [[mn mx] sm].
  unfold score_step, loop_inv in *. cbn [flt fadd exact_arith].
  destruct Hinv as (H1 & H2 & H3 & H4 & H5).
  assert (Hcases : (sm == mx)%Q \/ (mn + mx <= sm)%Q).
  { destruct (Nat.eq_dec n 1) as [-> | Hne]; [ left; auto | right; apply H5; lia ]. }
  destruct (Qle_bool mn x) eqn:Hmn; destruct (Qle_bool x mx) eqn:Hmx; cbn [negb];
    try apply Qle_bool_iff in Hmn; try apply Qle_bool_false in Hmn;
    try apply Qle_bool_iff in Hmx; try apply Qle_bool_false in Hmx;
    (repeat split; intros; try lia; destruct Hcases; lra).
Qed.

Lemma loop_inv_fold (scores : list Q) (n : nat) (acc : Q * Q * Q) :
  (1 <= n)%nat ->
  loop_inv n acc ->
  Forall (fun x => 0 <= x)%Q scores ->
  loop_inv (n + List.length scores) (fold_left score_step scores acc).
Proof.
  revert n acc. induction scores as [ | x rest IH ]; intros n acc Hn Hinv Hall.
  - cbn [List.length fold_left]. rewrite Nat.add_0_r. exact Hinv.
  - inversion Hall as [ | x' rest' Hx Hrest ]; subst x' rest'.
    cbn [List.length fold_left]. rewrite Nat.add_succ_r.
    apply (IH (S n)); [ lia | apply loop_inv_step; assumption | exact Hrest ].
Qed.

Lemma Qdiv_nonneg (a d : Q) : (0 <= a)%Q -> (0 <= d)%Q -> (0 <= a / d)%Q.
Proof.
  intros Ha Hd. unfold Qdiv.
  apply Qmult_le_0_compat; [ exact Ha | apply Qinv_le_0_compat; exact Hd ].
Qed.

Lemma inject_Z_nonneg (z : Z) : 0 <= z -> (0 <= inject_Z z)%Q.
Proof.
  intros Hz. change 0%Q with (inject_Z 0). rewrite <- Zle_Qle. exact Hz.
Qed.

Lemma aggregate_exact_nonneg (scores : list Q) :
  scores <> [] ->
  Forall (fun x => 0 <= x)%Q scores ->
  (0 <= aggregate (Z.of_nat (List.length scores)) scores)%Q.
Proof.
  intros Hne Hall. destruct scores as [ | x rest ]; [ contradiction | ].
  inversion Hall as [ | x' rest' Hx Hrest ]; subst x' rest'.
  unfold aggregate, score_loop. cbn [fold_left].
  pose proof (loop_inv_fold rest 1 _ (le_n 1) (loop_inv_first x Hx) Hrest) as Hinv.
  destruct (fold_left score_step rest _) as [[mn mx] sm].
  unfold loop_inv in Hinv. destruct Hinv as (H1 & H2 & H3 & H4 & H5).
  cbn [fdiv fsub of_Z exact_arith].
  destruct (Z.ltb_spec (Z.of_nat (List.length (x :: rest))) 3) as [Hfew | Hmany].
  - apply Qdiv_nonneg; [ lra | apply inject_Z_nonneg; lia ].
  - apply Qdiv_nonneg.
    + cbn [List.length] in Hmany.
      assert (Hsm : (mn + mx <= sm)%Q) by (apply H5; lia). lra.
    + apply inject_Z_nonneg. unfold wrap_uint32. apply Z.mod_pos_bound. lia.
Qed.

(** C10, as stated, fails in float64: of the three nonnegative finite
    trial scores 1, 0.75 * 2^-53 and 0.75 * 2^-53 the sum is rounded to 1,
    and (sum - min) - max is -2^-53. *)
Lemma aggregate_negative_by_rounding :
  Forall (fun x => PrimFloat.leb 0 x = true /\ is_finite x = true)
    [1; 0x1.8p-54; 0x1.8p-54]%float /\
  aggregate 3 [1; 0x1.8p-54; 0x1.8p-54]%float = (-0x1p-53)%float /\
  PrimFloat.ltb (aggregate 3 [1; 0x1.8p-54; 0x1.8p-54]%float) 0 = true.
Proof.
  split; [ repeat constructor | split; vm_compute; reflexivity ].
Qed.

(** *** With rounding: signs of float64 sums and quotients *)

Lemma leb_zero_nonneg (x : float) :
  PrimFloat.leb 0 x = true <-> SF_nonneg (Prim2SF x).
Proof.
  rewrite leb_spec. change (Prim2SF 0) with (S754_zero false).
  destruct (Prim2SF x) as [ s | s | | s m e ]; cbn.
  - split; auto.
  - destruct s; split; intros; auto; discriminate.
  - split; intros; [ discriminate | contradiction ].
  - destruct s; split; intros; auto; discriminate.
Qed.

Lemma iter_pos_keeps {A : Type} (P : A -> Prop) (f : A -> A) :
  (forall a, P a -> P (f a)) ->
  forall (n : positive) (a : A), P a -> P (SpecFloat.iter_pos f n a).
Proof.
  intros Hf. induction n as [ n IH | n IH | ]; intros a Ha; cbn; auto.
Qed.

Lemma shr_1_nonneg (mrs : shr_record) : 0 <= shr_m mrs -> 0 <= shr_m (shr_1 mrs).
Proof.
  destruct mrs as [m r s]. cbn [shr_m].
  destruct m as [ | [ p | p | ] | p ]; cbn; lia.
Qed.

Lemma shr_fexp_nonneg (m e : Z) (l : location) :
  0 <= m -> 0 <= shr_m (fst (shr_fexp prec emax m e l)).
Proof.
  intros Hm. unfold shr_fexp, shr.
  assert (Hrec : 0 <= shr_m (shr_record_of_loc m l)).
  { destruct l as [ | [ | | ] ]; exact Hm. }
  destruct (fexp prec emax (Zdigits2 m + e) - e) as [ | p | p ]; cbn [fst]; auto.
  apply iter_pos_keeps; auto using shr_1_nonneg.
Qed.

Lemma round_nearest_even_nonneg (m : Z) (l : location) :
  0 <= m -> 0 <= round_nearest_even m l.
Proof.
  intros Hm. destruct l as [ | [ | | ] ]; cbn; try lia.
  destruct (Z.even m); lia.
Qed.

Lemma binary_round_aux_nonneg (m e : Z) (l : location) :
  0 <= m -> SF_nonneg (binary_round_aux prec emax false m e l).
Proof.
  intros Hm. unfold binary_round_aux.
  pose proof (shr_fexp_nonneg m e l Hm) as H1.
  destruct (shr_fexp prec emax m e l) as [mrs1 e1]. cbn [fst] in H1.
  pose proof (shr_fexp_nonneg _ e1 loc_Exact
                (round_nearest_even_nonneg _ (loc_of_shr_record mrs1) H1)) as H2.
  destruct (shr_fexp prec emax _ e1 loc_Exact) as [mrs2 e2]. cbn [fst] in H2.
  destruct (shr_m mrs2) as [ | p | p ]; [ exact I | | lia ].
  destruct (e2 <=? emax - prec); reflexivity.
Qed.

Lemma SFadd_nonneg (x y : spec_float) :
  SF_nonneg x -> SF_nonneg y -> SF_nonneg (SF64add x y).
Proof.
  unfold SF64add.
  destruct x as [ sx | sx | | sx mx ex ]; destruct y as [ sy | sy | | sy my ey ];
    cbn [SF_nonneg SFadd]; intros Hx Hy; subst; try contradiction; try exact I;
    try reflexivity.
  - destruct sx, sy; exact I.
  - cbn [cond_Zopp]. cbn [Z.add binary_normalize]. unfold binary_round.
    destruct (shl_align _ _ _) as [mz ez].
    apply binary_round_aux_nonneg. lia.
Qed.

Lemma SFdiv_nonneg (x : spec_float) (m : positive) (e : Z) :
  SF_nonneg x -> SF_nonneg (SF64div x (S754_finite false m e)).
Proof.
  unfold SF64div.
  destruct x as [ sx | sx | | sx mx ex ]; cbn [SF_nonneg SFdiv]; intros Hx; subst;
    try contradiction; try exact I; try reflexivity.
  cbn [xorb]. unfold SFdiv_core_binary.
  set (s := ex - e - _).
  set (m' := match s with Z0 => Z.pos mx | Z.pos _ => Z.shiftl (Z.pos mx) s | Z.neg _ => 0 end).
  assert (Hm' : 0 <= m').
  { subst m'. destruct s; try lia. apply Z.shiftl_nonneg. lia. }
  pose proof (Z.div_pos m' (Z.pos m) Hm' (Pos2Z.is_pos m)) as Hq.
  unfold Z.div in Hq. destruct (Z.div_eucl m' (Z.pos m)) as [q r].
  apply binary_round_aux_nonneg. exact Hq.
Qed.

Lemma float64_add_nonneg (x y : float) :
  PrimFloat.leb 0 x = true -> PrimFloat.leb 0 y = true ->
  PrimFloat.leb 0 (x + y) = true.
Proof.
  rewrite !leb_zero_nonneg, add_spec. apply SFadd_nonneg.
Qed.

Lemma float64_sum_nonneg (scores : list float) (acc : float) :
  PrimFloat.leb 0 acc = true ->
  Forall (fun x => PrimFloat.leb 0 x = true) scores ->
  PrimFloat.leb 0 (fold_left PrimFloat.add scores acc) = true.
Proof.
  revert acc. induction scores as [ | x rest IH ]; intros acc Hacc Hall.
  - exact Hacc.
  - inversion Hall as [ | x' rest' Hx Hrest ]; subst x' rest'.
    cbn [fold_left]. apply IH; [ apply float64_add_nonneg; assumption | exact Hrest ].
Qed.

Lemma float64_div_nonneg (x d : float) (m : positive) (e : Z) :
  Prim2SF d = S754_finite false m e ->
  PrimFloat.leb 0 x = true ->
  PrimFloat.leb 0 (x / d) = true.
Proof.
  intros Hd. rewrite !leb_zero_nonneg, div_spec, Hd. apply SFdiv_nonneg.
Qed.

(** The mean of one or two nonnegative float64 scores is nonnegative. *)
Lemma aggregate_few_nonneg (scores : list float) :
  (1 <= List.length scores < 3)%nat ->
  Forall (fun x => PrimFloat.leb 0 x = true) scores ->
  PrimFloat.leb 0 (aggregate (Z.of_nat (List.length scores)) scores) = true.
Proof.
  intros Hlen Hall. unfold aggregate, score_loop. rewrite score_loop_from.
  cbn [fadd fdiv of_Z float64_arith].
  assert (Hsum : PrimFloat.leb 0 (fold_left PrimFloat.add scores (float64_of_Z 0)) = true).
  { apply float64_sum_nonneg; [ vm_compute; reflexivity | exact Hall ]. }
  destruct scores as [ | a [ | b [ | c rest ] ] ]; cbn [List.length] in *; try lia.
  - change (Z.of_nat 1 <? 3) with true. cbv iota.
    apply (float64_div_nonneg _ _ 4503599627370496%positive (-52));
      [ vm_compute; reflexivity | exact Hsum ].
  - change (Z.of_nat 2 <? 3) with true. cbv iota.
    apply (float64_div_nonneg _ _ 4503599627370496%positive (-51));
      [ vm_compute; reflexivity | exact Hsum ].
Qed.

Lemma exact_value_nonneg (x : float) :
  PrimFloat.leb 0 x = true -> (0 <= exact_value x)%Q.
Proof.
  rewrite leb_zero_nonneg. unfold exact_value.
  destruct (Prim2SF x) as [ s | s | | s m e ]; cbn [SF_nonneg]; intros Hx;
    try apply Qle_refl.
  subst s. cbn [cond_Zopp]. apply Qmult_le_0_compat.
  - apply inject_Z_nonneg. lia.
  - apply Qpower_0_le. discriminate.
Qed.

(** C10, as the code has it. Of nonnegative finite trial scores, as many as
    s.count says and at least one: with fewer than 3 trials the aggregated
    float64 score is nonnegative; with any number of trials the aggregation
    is nonnegative when it is computed on the same values without rounding. *)
Theorem aggregate_nonneg (scores : list float) :
  scores <> [] ->
  Forall (fun x => PrimFloat.leb 0 x = true /\ is_finite x = true) scores ->
  ((List.length scores < 3)%nat ->
   PrimFloat.leb 0 (aggregate (Z.of_nat (List.length scores)) scores) = true) /\
  (0 <= aggregate (Z.of_nat (List.length (map exact_value scores)))
          (map exact_value scores))%Q.
Proof.
  intros Hne Hall.
  assert (Hpos : Forall (fun x => PrimFloat.leb 0 x = true) scores).
  { revert Hall. apply Forall_impl. intros x [Hx _]. exact Hx. }
  split.
  - intros Hfew. apply aggregate_few_nonneg; [ | exact Hpos ].
    destruct scores; [ contradiction | cbn [List.length] in *; lia ].
  - apply aggregate_exact_nonneg.
    + destruct scores; [ contradiction | discriminate ].
    + apply Forall_map. revert Hpos. apply Forall_impl.
      intros x Hx. apply exact_value_nonneg. exact Hx.
Qed.

Lemma aggregate_nonneg_witness :
  PrimFloat.leb 0 (aggregate 2 [3; 0.5]%float) = true /\
  (0 <= aggregate 2 (map exact_value [3; 0.5]%float))%Q.
Proof.
  assert (Hscores : Forall (fun x => PrimFloat.leb 0 x = true /\ is_finite x = true)
                      [3; 0.5]%float) by (repeat constructor).
  assert (Hne : [3; 0.5]%float <> []) by discriminate.
  split.
  - apply (proj1 (aggregate_nonneg [3; 0.5]%float Hne Hscores)). cbn. lia.
  - apply (proj2 (aggregate_nonneg [3; 0.5]%float Hne Hscores)).
Defined.

(** ** One probe *)

Lemma dropCR_incl (line : list Byte.byte) (b : Byte.byte) :
  In b (dropCR line) -> In b line.
Proof.
  unfold dropCR. destruct (rev line) as [ | c front ] eqn:Hrev; [ auto | ].
  destruct (Byte.eqb c carriage_return); [ | auto ].
  intros Hin. apply in_rev. rewrite Hrev. right. apply in_rev. exact Hin.
Qed.

Lemma dropCR_length (line : list Byte.byte) :
  (List.length (dropCR line) <= List.length line)%nat.
Proof.
  unfold dropCR. destruct (rev line) as [ | c front ] eqn:Hrev; [ lia | ].
  destruct (Byte.eqb c carriage_return); [ | lia ].
  rewrite <- (length_rev line), Hrev, length_rev. cbn. lia.
Qed.

Lemma scanLines_from_no_newline (body cur : list Byte.byte) (n : Z) :
  ~ In newline cur ->
  Forall (fun token => ~ In newline token) (scanLines_from cur n body).
Proof.
  revert cur n. induction body as [ | b rest IH ]; intros cur n Hcur.
  - cbn. destruct cur as [ | c cur' ]; constructor; [ | constructor ].
    intros Hin. apply dropCR_incl, in_rev in Hin. contradiction.
  - cbn [scanLines_from]. destruct (Byte.eqb b newline) eqn:Hb.
    + constructor.
      * intros Hin. apply dropCR_incl, in_rev in Hin. contradiction.
      * apply IH. intros [].
    + destruct (n + 1 <? MaxScanTokenSize); [ | constructor ].
      apply IH. intros [Heq | Hin]; [ | contradiction ].
      subst b. apply Byte.eqb_false in Hb. contradiction.
Qed.

Lemma scanLines_from_length (body cur : list Byte.byte) (n : Z) :
  (List.length (List.concat (scanLines_from cur n body))
   <= List.length cur + List.length body)%nat.
Proof.
  revert cur n. induction body as [ | b rest IH ]; intros cur n.
  - cbn [scanLines_from]. destruct cur as [ | c cur' ]; [ cbn; lia | ].
    cbn [List.concat]. rewrite app_nil_r.
    pose proof (dropCR_length (rev (c :: cur'))) as Hd.
    rewrite length_rev in Hd. lia.
  - cbn [scanLines_from]. destruct (Byte.eqb b newline).
    + cbn [List.concat]. rewrite length_app.
      pose proof (dropCR_length (rev cur)) as Hd. rewrite length_rev in Hd.
      pose proof (IH [] 0) as Hrest. cbn [List.length] in *. lia.
    + destruct (n + 1 <? MaxScanTokenSize).
      * pose proof (IH (b :: cur) (n + 1)) as Hrest. cbn [List.length] in *. lia.
      * cbn. lia.
Qed.

Lemma contentSize_of_from (tokens : list (list Byte.byte)) (size : Z) :
  0 <= size ->
  size + Z.of_nat (List.length (List.concat tokens)) <= MaxInt64 ->
  fold_left (fun sz token => wrap_int64 (sz + Z.of_nat (List.length token))) tokens size
  = size + Z.of_nat (List.length (List.concat tokens)).
Proof.
  revert size. induction tokens as [ | token rest IH ]; intros size Hsize Hmax.
  - cbn. lia.
  - cbn [fold_left List.concat] in *. rewrite length_app, Nat2Z.inj_add in Hmax.
    rewrite wrap_int64_small by (unfold MinInt64, MaxInt64 in *; lia).
    rewrite IH by lia. rewrite length_app, Nat2Z.inj_add. lia.
Qed.

(** [contentSize] is the number of bytes in the lines, end-of-line markers
    not counted. *)
Lemma contentSize_of_scanLines (body : list Byte.byte) :
  Z.of_nat (List.length body) <= MaxInt64 ->
  contentSize_of (scanLines body) = Z.of_nat (List.length (List.concat (scanLines body)))
  /\ contentSize_of (scanLines body) <= Z.of_nat (List.length body).
Proof.
  intros Hlen. pose proof (scanLines_from_length body [] 0) as Hle.
  fold (scanLines body) in Hle. cbn [List.length] in Hle.
  unfold contentSize_of. rewrite contentSize_of_from by lia. lia.
Qed.

(** What the scan does count. A probe whose request succeeds scans the
    response body line by line and counts the bytes of the lines it gets,
    their end-of-line markers left out; the score is that count divided by
    the elapsed seconds, or 100 divided by them when the count is zero; the
    clock is read just before [client.Do] and just after the scan ends. *)
Lemma probe_trial_score (p : Probe) (body : list Byte.byte) :
  response p = Some body ->
  Z.of_nat (List.length body) <= MaxInt64 ->
  let lines := scanLines body in
  let counted := Z.of_nat (List.length (List.concat lines)) in
  fst (probe_trial p)
  = (if counted =? 0 then (100 / elapsed_seconds p)%float
     else (float64_of_Z counted / elapsed_seconds p)%float) /\
  snd (probe_trial p)
  = [CallBuildClient; CallNewRequest; CallNow (startAt p); CallDo]
      ++ map CallScan lines
      ++ [CallScanEnd; CallNow (finishAt p); CallCloseIdleConnections] /\
  Forall (fun line => ~ In newline line) lines /\
  counted <= Z.of_nat (List.length body).
Proof.
  intros Hresp Hlen lines counted.
  destruct (contentSize_of_scanLines body Hlen) as [Hsize Hle].
  fold lines in Hsize, Hle. fold counted in Hsize.
  unfold probe_trial. rewrite Hresp. fold lines. rewrite Hsize.
  repeat split.
  - destruct (counted =? 0); reflexivity.
  - destruct (counted =? 0); reflexivity.
  - apply scanLines_from_no_newline. intros [].
  - rewrite <- Hsize. exact Hle.
Qed.

Lemma probe_trial_score_witness :
  let lines := scanLines [Byte.x61; newline] in
  let counted := Z.of_nat (List.length (List.concat lines)) in
  fst (probe_trial one_line_probe)
  = (if counted =? 0 then (100 / elapsed_seconds one_line_probe)%float
     else (float64_of_Z counted / elapsed_seconds one_line_probe)%float) /\
  snd (probe_trial one_line_probe)
  = [CallBuildClient; CallNewRequest; CallNow (startAt one_line_probe); CallDo]
      ++ map CallScan lines
      ++ [CallScanEnd; CallNow (finishAt one_line_probe); CallCloseIdleConnections] /\
  Forall (fun line => ~ In newline line) lines /\
  counted <= Z.of_nat (List.length [Byte.x61; newline]).
Proof.
  apply (probe_trial_score one_line_probe [Byte.x61; newline]).
  - reflexivity.
  - unfold MaxInt64. cbn. lia.
Defined.

(** C4. The bytes of the response body are counted through the tokens of a
    line scanner, and the count misses the bytes that end the lines. The
    body "a\n" has two bytes, read in one second, two bytes a second: the
    scan counts one byte and the score is 1. The body "\n" is not empty:
    the scan counts nothing and the score is that of a response without
    content, 100 a second. Both bodies are read to their end. A body that
    begins with a line of 65536 bytes is not: the scan stops there and
    counts nothing, whatever follows. *)
Theorem probe_trial_skips_line_ends :
  let blank := {| startAt := 0; response := Some [newline]; finishAt := 1000000000 |} in
  let long := {| startAt := 0; response := Some (long_line ++ [Byte.x68; Byte.x69; newline]);
                 finishAt := 1000000000 |} in
  response one_line_probe = Some [Byte.x61; newline] /\
  elapsed_seconds one_line_probe = 1%float /\
  (float64_of_Z (Z.of_nat (List.length [Byte.x61; newline])) / elapsed_seconds one_line_probe
   = 2)%float /\
  scanLines [Byte.x61; newline] = [[Byte.x61]] /\
  contentSize_of (scanLines [Byte.x61; newline]) = 1 /\
  fst (probe_trial one_line_probe) = 1%float /\
  scanLines [newline] = [[]] /\
  contentSize_of (scanLines [newline]) = 0 /\
  elapsed_seconds blank = 1%float /\
  fst (probe_trial blank) = 100%float /\
  contentSize_of (scanLines (long_line ++ [Byte.x68; Byte.x69; newline])) = 0 /\
  fst (probe_trial long) = 100%float.
Proof. vm_compute. repeat split. Qed.

(** ** What sort.Slice promises, and that shortSort keeps the promise *)

Section ShortSortFacts.

Context {T : Type}.
Variable less : T -> T -> bool.

Lemma nth_error_middle (l1 l2 : list T) (a : T) :
  nth_error (l1 ++ a :: l2) (List.length l1) = Some a.
Proof.
  rewrite nth_error_app2 by lia. rewrite Nat.sub_diag. reflexivity.
Qed.

Lemma set_nth_middle (l1 l2 : list T) (a b : T) :
  set_nth (l1 ++ a :: l2) (List.length l1) b = l1 ++ b :: l2.
Proof.
  induction l1 as [ | c l1 IH ]; cbn; [ reflexivity | rewrite IH; reflexivity ].
Qed.

Lemma set_nth_Permutation_cons (rest : list T) (j : nat) (x y : T) :
  nth_error rest j = Some y ->
  Permutation (y :: set_nth rest j x) (x :: rest).
Proof.
  revert j. induction rest as [ | h rest IH ]; intros j Hj.
  - destruct j; discriminate.
  - destruct j as [ | j' ]; cbn in *.
    + injection Hj as ->. apply perm_swap.
    + eapply perm_trans; [ apply perm_swap | ].
      eapply perm_trans; [ apply perm_skip, IH, Hj | apply perm_swap ].
Qed.

Lemma Swap_Permutation (data : list T) (i j : nat) :
  Permutation (Swap data i j) data.
Proof.
  unfold Swap.
  destruct (nth_error data i) as [ x | ] eqn:Hi; [ | reflexivity ].
  destruct (nth_error data j) as [ y | ] eqn:Hj; [ | reflexivity ].
  revert i j Hi Hj. induction data as [ | h data IH ]; intros i j Hi Hj.
  - destruct i; discriminate.
  - destruct i as [ | i' ]; destruct j as [ | j' ]; cbn in *.
    + injection Hi as ->. reflexivity.
    + injection Hi as ->. apply set_nth_Permutation_cons. exact Hj.
    + injection Hj as ->. apply set_nth_Permutation_cons. exact Hi.
    + apply perm_skip. apply IH; assumption.
Qed.

Lemma insertion_inner_Permutation (j a : nat) (data : list T) :
  Permutation (insertion_inner less data a j) data.
Proof.
  revert data. induction j as [ | j' IH ]; intros data; cbn [insertion_inner].
  - reflexivity.
  - destruct ((a <? S j')%nat && Less less data (S j') j'); [ | reflexivity ].
    eapply perm_trans; [ apply IH | apply Swap_Permutation ].
Qed.

Lemma fold_left_Permutation (step : list T -> nat -> list T) (indices : list nat)
    (data : list T) :
  (forall d i, Permutation (step d i) d) ->
  Permutation (fold_left step indices data) data.
Proof.
  intros Hstep. revert data.
  induction indices as [ | i indices IH ]; intros data; cbn.
  - reflexivity.
  - eapply perm_trans; [ apply IH | apply Hstep ].
Qed.

Lemma shortSort_Permutation (data : list T) :
  Permutation (shortSort less data) data.
Proof.
  unfold shortSort, quickSort_func_short.
  destruct (1 <? List.length data - 0)%nat; [ | reflexivity ].
  unfold insertionSort_func, gap_pass.
  eapply perm_trans; apply fold_left_Permutation; intros d i.
  - apply insertion_inner_Permutation.
  - destruct (Less less d i (i - 6)); [ apply Swap_Permutation | reflexivity ].
Qed.

Lemma ins_length (x : T) (rp : list T) : List.length (ins less x rp) = S (List.length rp).
Proof.
  induction rp as [ | y rp IH ]; cbn; [ reflexivity | ].
  destruct (less x y); cbn; [ rewrite IH | ]; reflexivity.
Qed.

Lemma ins_In (x z : T) (rp : list T) : In z (ins less x rp) <-> z = x \/ In z rp.
Proof.
  induction rp as [ | y rp IH ]; cbn.
  - intuition auto.
  - destruct (less x y); cbn; rewrite ?IH; intuition auto.
Qed.

Lemma insertion_inner_ins (rp : list T) (x : T) (post : list T) :
  insertion_inner less (rev rp ++ x :: post) 0 (List.length rp)
  = rev (ins less x rp) ++ post.
Proof.
  revert post. induction rp as [ | y rp IH ]; intros post.
  - reflexivity.
  - cbn [List.length insertion_inner ins rev].
    assert (Hx : nth_error ((rev rp ++ [y]) ++ x :: post) (S (List.length rp)) = Some x).
    { replace (S (List.length rp)) with (List.length (rev rp ++ [y]))
        by (rewrite length_app, length_rev; cbn; lia).
      apply nth_error_middle. }
    assert (Hy : nth_error ((rev rp ++ [y]) ++ x :: post) (List.length rp) = Some y).
    { rewrite <- app_assoc. cbn [app].
      rewrite <- (length_rev rp). apply nth_error_middle. }
    unfold Less at 1. rewrite Hx, Hy. cbn [Nat.ltb Nat.leb andb].
    destruct (less x y) eqn:Hless.
    + unfold Swap. rewrite Hx, Hy.
      replace (set_nth (set_nth ((rev rp ++ [y]) ++ x :: post) (S (List.length rp)) y)
                 (List.length rp) x)
        with (rev rp ++ x :: y :: post).
      * rewrite IH. cbn [rev]. rewrite <- app_assoc. reflexivity.
      * replace (S (List.length rp)) with (List.length (rev rp ++ [y]))
          by (rewrite length_app, length_rev; cbn; lia).
        rewrite set_nth_middle. rewrite <- app_assoc. cbn [app].
        rewrite <- (length_rev rp). rewrite set_nth_middle. reflexivity.
    + cbn [rev]. rewrite <- (app_assoc _ [x] post). reflexivity.
Qed.

Lemma insertionSort_from (post rp : list T) :
  fold_left (fun d i => insertion_inner less d 0 i)
    (seq (List.length rp) (List.length post)) (rev rp ++ post)
  = rev (fold_left (fun r x => ins less x r) post rp).
Proof.
  revert rp. induction post as [ | x post IH ]; intros rp.
  - cbn. apply app_nil_r.
  - cbn [List.length seq fold_left]. rewrite insertion_inner_ins.
    rewrite <- (ins_length x rp). apply IH.
Qed.

Lemma insertionSort_func_ins (d0 : T) (rest : list T) :
  insertionSort_func less (d0 :: rest) 0 (List.length (d0 :: rest))
  = rev (fold_left (fun r x => ins less x r) rest [d0]).
Proof.
  unfold insertionSort_func. cbn [List.length Nat.add Nat.sub].
  rewrite Nat.sub_0_r. apply (insertionSort_from rest [d0]).
Qed.

(** Sortedness, for a [less] that orders the elements of [D]. *)
Variable D : list T.
Hypothesis less_orders : strict_weak_on less D.

Lemma ins_sorted (x : T) (rp : list T) :
  In x D -> incl rp D ->
  StronglySorted (fun a b => less a b = false) rp ->
  StronglySorted (fun a b => less a b = false) (ins less x rp).
Proof.
  destruct less_orders as [Hasym Hneg]. intros Hx Hrp Hsorted.
  induction Hsorted as [ | y rp' Hrp' IH Hy ]; cbn [ins].
  - repeat constructor.
  - assert (HyD : In y D) by (apply Hrp; left; reflexivity).
    assert (Hrp'D : incl rp' D) by (intros z Hz; apply Hrp; right; exact Hz).
    destruct (less x y) eqn:Hless.
    + constructor; [ apply IH; exact Hrp'D | ].
      apply Forall_forall. intros z Hz. apply ins_In in Hz. destruct Hz as [-> | Hz].
      * apply Hasym; assumption.
      * rewrite Forall_forall in Hy. apply Hy. exact Hz.
    + constructor; [ constructor; assumption | ].
      constructor; [ exact Hless | ].
      apply Forall_forall. intros z Hz. rewrite Forall_forall in Hy.
      apply (Hneg x y z); auto.
Qed.

Lemma fold_ins_sorted (post rp : list T) :
  incl post D -> incl rp D ->
  StronglySorted (fun a b => less a b = false) rp ->
  StronglySorted (fun a b => less a b = false) (fold_left (fun r x => ins less x r) post rp).
Proof.
  revert rp. induction post as [ | x post IH ]; intros rp Hpost Hrp Hsorted.
  - exact Hsorted.
  - cbn [fold_left]. apply IH.
    + intros z Hz. apply Hpost. right. exact Hz.
    + intros z Hz. apply ins_In in Hz. destruct Hz as [-> | Hz].
      * apply Hpost. left. reflexivity.
      * apply Hrp. exact Hz.
    + apply ins_sorted; [ apply Hpost; left; reflexivity | exact Hrp | exact Hsorted ].
Qed.

Lemma StronglySorted_snoc (R : T -> T -> Prop) (l : list T) (a : T) :
  StronglySorted R l -> Forall (fun z => R z a) l -> StronglySorted R (l ++ [a]).
Proof.
  intros Hsorted Hall. induction Hsorted as [ | b l Hl IH Hb ]; cbn.
  - repeat constructor.
  - inversion Hall as [ | b' l' Hba Hla ]; subst b' l'.
    constructor; [ apply IH; exact Hla | ].
    apply Forall_app. split; [ exact Hb | repeat constructor; exact Hba ].
Qed.

Lemma rev_in_order (rp : list T) :
  StronglySorted (fun a b => less a b = false) rp -> in_order less (rev rp).
Proof.
  intros Hsorted. apply StronglySorted_Sorted.
  induction Hsorted as [ | a rp Hrp IH Ha ]; cbn [rev].
  - constructor.
  - apply StronglySorted_snoc; [ exact IH | ].
    apply Forall_rev. exact Ha.
Qed.

End ShortSortFacts.

Lemma strict_weak_on_Permutation {T : Type} (less : T -> T -> bool) (l l' : list T) :
  Permutation l l' -> strict_weak_on less l -> strict_weak_on less l'.
Proof.
  intros Hperm [Hasym Hneg]. apply Permutation_sym in Hperm. split.
  - intros x y Hx Hy. apply Hasym; eapply Permutation_in; eassumption.
  - intros x y z Hx Hy Hz. apply Hneg; eapply Permutation_in; eassumption.
Qed.

Lemma shortSort_in_order {T : Type} (less : T -> T -> bool) (data : list T) :
  strict_weak_on less data -> in_order less (shortSort less data).
Proof.
  intros Horders. unfold shortSort, quickSort_func_short.
  destruct data as [ | d0 [ | d1 rest ] ]; cbn [List.length Nat.sub Nat.ltb Nat.leb].
  - constructor.
  - repeat constructor.
  - set (data := d0 :: d1 :: rest) in *.
    change (S (S (List.length rest))) with (List.length data).
    assert (Hgap : Permutation (gap_pass less data 0 (List.length data)) data).
    { unfold gap_pass. apply fold_left_Permutation. intros d i.
      destruct (Less less d i (i - 6)); [ apply Swap_Permutation | reflexivity ]. }
    rewrite <- (Permutation_length Hgap) at 2.
    destruct (gap_pass less data 0 (List.length data)) as [ | g0 grest ] eqn:Hg.
    + constructor.
    + rewrite insertionSort_func_ins. apply rev_in_order.
      apply (fold_ins_sorted less (g0 :: grest)).
      * apply (strict_weak_on_Permutation less data); [ symmetry; exact Hgap | exact Horders ].
      * intros z Hz. right. exact Hz.
      * intros z [-> | []]. left. reflexivity.
      * repeat constructor.
Qed.

Lemma shortSort_sorts {T : Type} : sorts (@shortSort T).
Proof.
  split; [ apply shortSort_Permutation | apply shortSort_in_order ].
Qed.

(** Where no element is less than another, nothing is swapped. *)
Lemma Less_flat {T : Type} (less : T -> T -> bool) (data : list T) (i j : nat) :
  (forall x y, In x data -> In y data -> less x y = false) ->
  Less less data i j = false.
Proof.
  intros Hflat. unfold Less.
  destruct (nth_error data i) as [ x | ] eqn:Hi; [ | reflexivity ].
  destruct (nth_error data j) as [ y | ] eqn:Hj; [ | reflexivity ].
  apply Hflat; eapply nth_error_In; eassumption.
Qed.

Lemma fold_left_idle {A B : Type} (step : A -> B -> A) (l : list B) (a : A) :
  (forall b, step a b = a) -> fold_left step l a = a.
Proof.
  intros Hidle. induction l as [ | b l IH ]; cbn; [ reflexivity | ].
  rewrite Hidle. exact IH.
Qed.

Lemma shortSort_flat {T : Type} (less : T -> T -> bool) (data : list T) :
  (forall x y, In x data -> In y data -> less x y = false) ->
  shortSort less data = data.
Proof.
  intros Hflat. unfold shortSort, quickSort_func_short.
  destruct (1 <? List.length data - 0)%nat; [ | reflexivity ].
  assert (Hgap : gap_pass less data 0 (List.length data) = data).
  { unfold gap_pass. apply fold_left_idle. intros i.
    rewrite (Less_flat less data _ _ Hflat). reflexivity. }
  rewrite Hgap. unfold insertionSort_func. apply fold_left_idle. intros i.
  destruct i as [ | i' ]; cbn [insertion_inner]; [ reflexivity | ].
  rewrite (Less_flat less data _ _ Hflat), andb_false_r. reflexivity.
Qed.

(** ** A round *)

Lemma mapM_Returned {A B : Type} (f : A -> Outcome B) (l : list A) (bs : list B) :
  mapM f l = Returned bs -> Forall2 (fun a b => f a = Returned b) l bs.
Proof.
  revert bs. induction l as [ | a l IH ]; intros bs Hm; cbn in Hm.
  - injection Hm as <-. constructor.
  - unfold bind in Hm. destruct (f a) as [ b | msg ] eqn:Hfa; [ | discriminate ].
    destruct (mapM f l) as [ bs' | msg ]; [ | discriminate ].
    injection Hm as <-. constructor; [ exact Hfa | apply IH; reflexivity ].
Qed.

Lemma mapM_total {A B : Type} (f : A -> Outcome B) (l : list A) :
  (forall a, In a l -> exists b, f a = Returned b) ->
  exists bs, mapM f l = Returned bs.
Proof.
  induction l as [ | a l IH ]; intros Hf; cbn.
  - eexists. reflexivity.
  - destruct (Hf a (or_introl eq_refl)) as [b Hb].
    destruct IH as [bs Hbs]; [ intros a' Ha'; apply Hf; right; exact Ha' | ].
    unfold bind. rewrite Hb, Hbs. eexists. reflexivity.
Qed.

Lemma testOutboud_keeps_tag (s : OptimalStrategy) (net : Network) (t : string)
    (result r : optimalStrategyTestResult) (n : Z) :
  testOutboud s net t result n = Returned r -> r_tag r = r_tag result.
Proof.
  unfold testOutboud, bind. destruct (obm s) as [ m | ]; [ | discriminate ].
  destruct (m t) as [ oh | ].
  - destruct (trial_scores s net oh n); [ | discriminate ].
    intros Hr. injection Hr as <-. reflexivity.
  - intros Hr. injection Hr as <-. reflexivity.
Qed.

Lemma testOutboud_unknown_tag (s : OptimalStrategy) (net : Network) (m : Manager)
    (t : string) (result : optimalStrategyTestResult) (n : Z) :
  obm s = Some m -> m t = None -> testOutboud s net t result n = Returned result.
Proof.
  intros Hobm Hm. unfold testOutboud. rewrite Hobm, Hm. reflexivity.
Qed.

Lemma probe_all_slots (s : OptimalStrategy) (net : Network)
    (results : list optimalStrategyTestResult) :
  probe_all s net = Returned results ->
  Forall2 (fun t r => testOutboud s net t {| r_tag := t; r_score := 0 |} (count s)
                      = Returned r)
    (tags s) results.
Proof. apply mapM_Returned. Qed.

Lemma probe_all_tags (s : OptimalStrategy) (net : Network)
    (results : list optimalStrategyTestResult) :
  probe_all s net = Returned results -> map r_tag results = tags s.
Proof.
  intros Hall%probe_all_slots.
  induction Hall as [ | t r ts rs Hr Hrest IH ]; cbn.
  - reflexivity.
  - apply testOutboud_keeps_tag in Hr. cbn in Hr. rewrite Hr, IH. reflexivity.
Qed.

Lemma in_order_head {T : Type} (less : T -> T -> bool) (D : list T) (x : T)
    (rest : list T) :
  strict_weak_on less D ->
  incl (x :: rest) D ->
  in_order less (x :: rest) ->
  Forall (fun z => less z x = false) rest.
Proof.
  intros [Hasym Hneg] Hincl Hsorted. revert x Hincl Hsorted.
  induction rest as [ | y rest IH ]; intros x Hincl Hsorted.
  - constructor.
  - apply Sorted_inv in Hsorted. destruct Hsorted as [Hrest Hhd].
    apply HdRel_inv in Hhd.
    constructor; [ exact Hhd | ].
    assert (Hy : Forall (fun z => less z y = false) rest).
    { apply IH; [ intros z Hz; apply Hincl; right; exact Hz | exact Hrest ]. }
    rewrite Forall_forall in *. intros z Hz.
    apply (Hneg z y x).
    + apply Hincl. right. right. exact Hz.
    + apply Hincl. right. left. reflexivity.
    + apply Hincl. left. reflexivity.
    + apply Hy. exact Hz.
    + exact Hhd.
Qed.

Lemma by_score_desc_orders (results : list optimalStrategyTestResult) :
  Forall (fun r => is_nan (r_score r) = false) results ->
  strict_weak_on by_score_desc results.
Proof.
  intros Hnan. rewrite Forall_forall in Hnan. unfold by_score_desc. split.
  - intros x y _ _. apply float64_gt_asym.
  - intros x y z _ Hy _. apply float64_gt_negtrans. apply Hnan. exact Hy.
Qed.

Section RoundFacts.

Variable sort_Slice :
  (optimalStrategyTestResult -> optimalStrategyTestResult -> bool) ->
  list optimalStrategyTestResult -> list optimalStrategyTestResult.

Lemma run_publishes_head (s : OptimalStrategy) (net : Network)
    (results : list optimalStrategyTestResult) (r0 : optimalStrategyTestResult)
    (rest : list optimalStrategyTestResult) :
  probe_all s net = Returned results ->
  sort_Slice by_score_desc results = r0 :: rest ->
  run sort_Slice s net = Returned (None, with_tag s (r_tag r0)).
Proof.
  intros Hall Hsorted. unfold run, bind. rewrite Hall, Hsorted. reflexivity.
Qed.

(** C2, as the code has it. A round ranks the candidates by descending
    aggregated score with sort.Slice, which keeps the elements, puts them in
    order and promises nothing about ties: when no aggregated score is NaN,
    the published tag is the tag of a candidate that no candidate outscores.
    When every candidate scores 0 and there are at most 12 candidates, the
    short-slice code of sort.Slice moves nothing and the first candidate in
    input order is published. *)
Theorem run_publishes_a_top_candidate (s : OptimalStrategy) (net : Network)
    (results : list optimalStrategyTestResult) :
  sorts sort_Slice ->
  probe_all s net = Returned results ->
  results <> [] ->
  Forall (fun r => is_nan (r_score r) = false) results ->
  (exists winner,
     In winner results /\
     In (r_tag winner) (tags s) /\
     run sort_Slice s net = Returned (None, with_tag s (r_tag winner)) /\
     Forall (fun r => float64_gt (r_score r) (r_score winner) = false) results) /\
  (Forall (fun r => r_score r = 0%float) results ->
   (List.length (tags s) <= 12)%nat ->
   exists t0 rest,
     tags s = t0 :: rest /\
     run (@shortSort optimalStrategyTestResult) s net = Returned (None, with_tag s t0)).
Proof.
  intros [Hperm Hsorted] Hall Hne Hnan. split.
  - pose proof (by_score_desc_orders results Hnan) as Horders.
    specialize (Hperm by_score_desc results).
    specialize (Hsorted by_score_desc results Horders).
    destruct (sort_Slice by_score_desc results) as [ | r0 rest ] eqn:Hsort.
    + apply Permutation_nil in Hperm. contradiction.
    + assert (Hin : In r0 results).
      { apply (Permutation_in _ Hperm). left. reflexivity. }
      exists r0. split; [ exact Hin | ]. split; [ | split ].
      * rewrite <- (probe_all_tags s net results Hall). apply in_map. exact Hin.
      * apply (run_publishes_head s net results r0 rest Hall Hsort).
      * pose proof (in_order_head by_score_desc (r0 :: rest) r0 rest
                      (strict_weak_on_Permutation _ _ _ (Permutation_sym Hperm) Horders)
                      (fun z Hz => Hz) Hsorted) as Hhead.
        rewrite Forall_forall in *. intros r Hr.
        apply (Permutation_in _ (Permutation_sym Hperm)) in Hr.
        destruct Hr as [<- | Hr]; [ | apply (Hhead r Hr) ].
        destruct (float64_gt (r_score r0) (r_score r0)) eqn:Hself; [ | reflexivity ].
        apply float64_gt_asym in Hself as Hself'. congruence.
  - intros Hzero _. rewrite Forall_forall in Hzero.
    destruct results as [ | r0 rest ]; [ contradiction | ].
    pose proof (probe_all_tags s net _ Hall) as Htags. cbn [map] in Htags.
    exists (r_tag r0), (map r_tag rest). split; [ symmetry; exact Htags | ].
    unfold run, bind. rewrite Hall. rewrite shortSort_flat; [ reflexivity | ].
    intros x y Hx Hy. unfold by_score_desc.
    rewrite (Hzero x Hx), (Hzero y Hy). reflexivity.
Qed.

End RoundFacts.

(** *** A round with a tie *)

Example probed_strategy_is_after_first_call :
  PickOutbound fresh_strategy sample_obm seven_tags
  = Returned ("a"%string, probed_strategy,
              [GoPeriodicStart {| p_Interval := 600000000000; p_Execute := task_run |}]).
Proof. reflexivity. Qed.

Example tie_network_results :
  probe_all probed_strategy tie_network = Returned tie_results.
Proof. vm_compute. reflexivity. Qed.

(** C2, as stated, fails: "b" and "g" tie with the top score 2 and "b" comes
    first among the candidates, and the round, sorting with the sort.Slice
    of the Go releases up to 1.18, ranks "g" before "b" and publishes "g". *)
Lemma run_is_not_stable :
  probe_all probed_strategy tie_network = Returned tie_results /\
  map r_tag tie_results = tags probed_strategy /\
  map r_score tie_results = [1; 2; 0; 0; 0; 0; 2]%float /\
  map r_tag (shortSort by_score_desc tie_results)
  = ["g"; "b"; "a"; "c"; "d"; "e"; "f"]%string /\
  run (@shortSort optimalStrategyTestResult) probed_strategy tie_network
  = Returned (None, with_tag probed_strategy "g").
Proof. vm_compute. repeat split. Qed.

(** Why the scores must not be NaN: the first probe of "b" scores 100 / 0,
    plus infinity, the trimmed mean of "b" is infinity - infinity, and next
    to a NaN no order is left: "a" with score 1 is published though "c"
    scores 2. Three elements are sorted by insertion in every Go release. *)
Example run_with_a_NaN_score :
  fst (probe_trial (instant_network 1%nat 0%nat)) = infinity /\
  probe_all three_strategy instant_network
  = Returned [ {| r_tag := "a"; r_score := 1 |}; {| r_tag := "b"; r_score := nan |};
               {| r_tag := "c"; r_score := 2 |} ] /\
  run (@shortSort optimalStrategyTestResult) three_strategy instant_network
  = Returned (None, with_tag three_strategy "a") /\
  float64_gt 2 1 = true.
Proof. vm_compute. repeat split. Qed.

(** All probes fail: every candidate scores 0 and the first is published. *)
Example run_on_dead_network :
  probe_all probed_strategy dead_network
  = Returned (map (fun t => {| r_tag := t; r_score := 0 |}) seven_tags) /\
  run (@shortSort optimalStrategyTestResult) probed_strategy dead_network
  = Returned (None, with_tag probed_strategy "a").
Proof. vm_compute. split; reflexivity. Qed.

Lemma run_publishes_a_top_candidate_witness :
  (exists winner,
     In winner tie_results /\
     In (r_tag winner) (tags probed_strategy) /\
     run (@shortSort optimalStrategyTestResult) probed_strategy tie_network
     = Returned (None, with_tag probed_strategy (r_tag winner)) /\
     Forall (fun r => float64_gt (r_score r) (r_score winner) = false) tie_results) /\
  (exists t0 rest,
     tags probed_strategy = t0 :: rest /\
     run (@shortSort optimalStrategyTestResult) probed_strategy dead_network
     = Returned (None, with_tag probed_strategy t0)).
Proof.
  split.
  - apply (run_publishes_a_top_candidate (@shortSort optimalStrategyTestResult)
             probed_strategy tie_network tie_results).
    + apply shortSort_sorts.
    + vm_compute. reflexivity.
    + discriminate.
    + repeat constructor.
  - apply (run_publishes_a_top_candidate (@shortSort optimalStrategyTestResult)
             probed_strategy dead_network
             (map (fun t => {| r_tag := t; r_score := 0 |}) seven_tags)).
    + apply shortSort_sorts.
    + vm_compute. reflexivity.
    + discriminate.
    + repeat constructor.
    + repeat constructor.
    + cbn. lia.
Defined.

(** ** Probe failures and the life of a strategy *)

Lemma Forall2_nth_error {A B : Type} (P : A -> B -> Prop) (l : list A) (l' : list B)
    (i : nat) (a : A) :
  Forall2 P l l' -> nth_error l i = Some a ->
  exists b, nth_error l' i = Some b /\ P a b.
Proof.
  intros Hall. revert i. induction Hall as [ | x y l l' Hxy Hrest IH ]; intros i Hi.
  - destruct i; discriminate.
  - destruct i as [ | i' ]; cbn in *.
    + injection Hi as ->. exists y. split; [ reflexivity | exact Hxy ].
    + apply IH. exact Hi.
Qed.

Lemma trial_scores_total (s : OptimalStrategy) (net : Network) (oh : Handler) (n : Z) :
  url s <> None -> exists scores, trial_scores s net oh n = Returned scores.
Proof.
  intros Hurl. unfold trial_scores. apply mapM_total. intros i _.
  destruct (url s); [ eexists; reflexivity | contradiction ].
Qed.

Lemma probe_all_total (s : OptimalStrategy) (net : Network) :
  url s <> None -> obm s <> None ->
  exists results, probe_all s net = Returned results.
Proof.
  intros Hurl Hobm. unfold probe_all. apply mapM_total. intros t _.
  unfold testOutboud. destruct (obm s) as [ m | ]; [ | contradiction ].
  destruct (m t) as [ oh | ]; [ | eexists; reflexivity ].
  destruct (trial_scores_total s net oh (count s) Hurl) as [scores Hscores].
  unfold bind. rewrite Hscores. eexists. reflexivity.
Qed.

Section LifecycleFacts.

Variable url_Parse : string -> URL + string.
Variable sort_Slice :
  (optimalStrategyTestResult -> optimalStrategyTestResult -> bool) ->
  list optimalStrategyTestResult -> list optimalStrategyTestResult.

Hypothesis default_url_parses : exists u, url_Parse default_url = inl u.

(** Once the periodic task exists, the strategy has a manager and at least
    two candidates; its probe URL is never nil. *)
Lemma Reachable_ready (s : OptimalStrategy) :
  Reachable url_Parse sort_Slice s ->
  url s <> None /\
  (periodic s <> None -> obm s <> None /\ (2 <= List.length (tags s))%nat).
Proof.
  intros Hreach. induction Hreach as
    [ config s Hwf Hnew
    | s m ts t s' gs Hreach IH Hpick
    | s net e s' Hreach IH Hstarted Hrun ].
  - split.
    + unfold NewOptimalStrategy, bind in Hnew.
      destruct (Url config =? "")%string.
      * injection Hnew as <-. cbn [url].
        destruct default_url_parses as [u ->]. discriminate.
      * destruct (url_Parse (Url config)) as [ u | err ]; [ | discriminate ].
        destruct (negb (Scheme u =? "http")%string && negb (Scheme u =? "https")%string);
          [ discriminate | ].
        injection Hnew as <-. discriminate.
    + apply NewOptimalStrategy_fresh in Hnew. destruct Hnew as (_ & _ & _ & Hp).
      intros Hstarted. contradiction.
  - destruct IH as [Hurl Hstarted].
    destruct ts as [ | t0 [ | t1 rest ] ].
    + discriminate.
    + rewrite PickOutbound_one_tag in Hpick. injection Hpick as _ <- _.
      split; assumption.
    + destruct (periodic s) as [ p | ] eqn:Hp.
      * rewrite (PickOutbound_later_use _ _ _ _ _ _ Hp) in Hpick.
        injection Hpick as _ <- _. cbn. split; [ exact Hurl | ].
        intros _. split; [ discriminate | lia ].
      * rewrite (PickOutbound_first_use _ _ _ _ _ Hp) in Hpick.
        injection Hpick as _ <- _. cbn. split; [ exact Hurl | ].
        intros _. split; [ discriminate | lia ].
  - unfold run, bind in Hrun.
    destruct (probe_all s net); [ | discriminate ].
    destruct (index _ 0); [ | discriminate ].
    injection Hrun as _ <-. exact IH.
Qed.

Hypothesis sort_Slice_permutes : forall less l, Permutation (sort_Slice less l) l.

Lemma run_returns_nil (s : OptimalStrategy) (net : Network) :
  Reachable url_Parse sort_Slice s ->
  periodic s <> None ->
  exists results winner,
    probe_all s net = Returned results /\
    run sort_Slice s net = Returned (None, with_tag s (r_tag winner)).
Proof.
  intros Hreach Hstarted.
  destruct (Reachable_ready s Hreach) as [Hurl Hready].
  destruct (Hready Hstarted) as [Hobm Htags].
  destruct (probe_all_total s net Hurl Hobm) as [results Hall].
  pose proof (probe_all_tags s net results Hall) as Hlen.
  apply (f_equal (@List.length string)) in Hlen. rewrite length_map in Hlen.
  pose proof (Permutation_length (sort_Slice_permutes by_score_desc results)) as Hsame.
  destruct (sort_Slice by_score_desc results) as [ | r0 rest ] eqn:Hsort.
  - cbn in Hsame. lia.
  - exists results, r0. split; [ exact Hall | ].
    apply (run_publishes_head sort_Slice s net results r0 rest Hall Hsort).
Qed.

(** X19. The failures that are absorbed as zero scores. In every round
    that the periodic task executes: a probe whose [client.Do] returns an error
    scores 0; a candidate whose tag the manager does not know has the
    aggregated score 0; and [run] returns the nil error, whatever the probes
    do. *)
Lemma probe_failures_score_zero (s : OptimalStrategy) (net : Network) :
  Reachable url_Parse sort_Slice s ->
  periodic s <> None ->
  (forall p, response p = None -> fst (probe_trial p) = 0%float) /\
  (exists results,
     probe_all s net = Returned results /\
     forall m i t,
       obm s = Some m -> nth_error (tags s) i = Some t -> m t = None ->
       nth_error results i = Some {| r_tag := t; r_score := 0 |}) /\
  (exists s', run sort_Slice s net = Returned (None, s')).
Proof.
  intros Hreach Hstarted. split; [ | split ].
  - intros p Hp. unfold probe_trial. rewrite Hp. reflexivity.
  - destruct (run_returns_nil s net Hreach Hstarted) as (results & _ & Hall & _).
    exists results. split; [ exact Hall | ].
    intros m i t Hobm Hi Hm.
    destruct (Forall2_nth_error _ _ _ i t (probe_all_slots s net results Hall) Hi)
      as (r & Hr & Htest).
    rewrite (testOutboud_unknown_tag s net m t _ _ Hobm Hm) in Htest.
    injection Htest as <-. exact Hr.
  - destruct (run_returns_nil s net Hreach Hstarted) as (results & winner & _ & Hrun).
    eexists. exact Hrun.
Qed.

End LifecycleFacts.

Lemma lost_strategy_Reachable :
  Reachable sample_Parse (@shortSort optimalStrategyTestResult) lost_strategy.
Proof.
  apply (reach_pick _ _ fresh_strategy sample_obm ["a"; "zz"]%string "a"%string _
           [GoPeriodicStart {| p_Interval := 600000000000; p_Execute := task_run |}]).
  - apply (reach_new _ _ zero_config).
    + unfold config_wf, uint32_range, MaxUint32. cbn. lia.
    + reflexivity.
  - reflexivity.
Qed.

Lemma probe_failures_score_zero_witness :
  (forall p, response p = None -> fst (probe_trial p) = 0%float) /\
  (exists results,
     probe_all lost_strategy tie_network = Returned results /\
     forall m i t,
       obm lost_strategy = Some m -> nth_error (tags lost_strategy) i = Some t ->
       m t = None ->
       nth_error results i = Some {| r_tag := t; r_score := 0 |}) /\
  (exists s', run (@shortSort optimalStrategyTestResult) lost_strategy tie_network
              = Returned (None, s')).
Proof.
  apply (probe_failures_score_zero sample_Parse (@shortSort optimalStrategyTestResult)).
  - exists google. reflexivity.
  - intros less l. apply shortSort_Permutation.
  - apply lost_strategy_Reachable.
  - discriminate.
Defined.

Example lost_strategy_round :
  probe_all lost_strategy tie_network
  = Returned [ {| r_tag := "a"; r_score := 1 |}; {| r_tag := "zz"; r_score := 0 |} ] /\
  run (@shortSort optimalStrategyTestResult) lost_strategy tie_network
  = Returned (None, lost_strategy).
Proof. vm_compute. split; reflexivity. Qed.

(** C6. A request that fails after [client.Do] has returned is not scored
    0. The response header arrives, then the outbound stalls, and the read
    of the body fails when the timeout of the client (5 s, [s.timeout])
    expires: the scan ends without a token, nothing is logged, and the
    trial scores 100 / 5 = 20 as a response without content does. A
    candidate all of whose trials time out so has the aggregated score 20:
    when the requests through "b" stall and those through "a" and "c" fail
    at once, which scores 0, the round publishes "b". *)
Theorem body_timeout_is_scored_as_success :
  response stalled_probe = Some [] /\
  finishAt stalled_probe - startAt stalled_probe = timeout three_strategy /\
  probe_trial stalled_probe
  = (20%float,
     [CallBuildClient; CallNewRequest; CallNow 0; CallDo;
      CallScanEnd; CallNow 5000000000; CallCloseIdleConnections]) /\
  PrimFloat.eqb (fst (probe_trial stalled_probe)) 0 = false /\
  testOutboud three_strategy stalled_network "a" {| r_tag := "a"; r_score := 0 |}
    (count three_strategy)
  = Returned {| r_tag := "a"; r_score := 20 |} /\
  probe_all three_strategy one_stalled_network
  = Returned [ {| r_tag := "a"; r_score := 0 |}; {| r_tag := "b"; r_score := 20 |};
               {| r_tag := "c"; r_score := 0 |} ] /\
  run (@shortSort optimalStrategyTestResult) three_strategy one_stalled_network
  = Returned (None, with_tag three_strategy "b").
Proof. vm_compute. repeat split. Qed.

(** ** Concurrent first calls *)

Lemma nth_error_set_nth {A : Type} (l : list A) (i j : nat) (a b : A) :
  nth_error l i = Some a ->
  nth_error (set_nth l i b) j = if (j =? i)%nat then Some b else nth_error l j.
Proof.
  revert i j. induction l as [ | c l IH ]; intros i j Hi.
  - destruct i; discriminate.
  - destruct i as [ | i' ]; destruct j as [ | j' ]; cbn in *; try reflexivity.
    apply IH. exact Hi.
Qed.

Lemma Inv_initial (s : OptimalStrategy) (calls : list (Manager * list string)) :
  periodic s = None ->
  Inv (fst (initial s calls)) (snd (initial s calls)).
Proof.
  intros Hnil. unfold initial. cbn [fst snd].
  assert (Hentry : forall j t,
            nth_error (map (fun c => call (fst c) (snd c)) calls) j = Some t ->
            t_pc t = AtEntry).
  { intros j t Hj. apply nth_error_In, in_map_iff in Hj.
    destruct Hj as (c & <- & _). reflexivity. }
  split.
  - left. repeat split. exact Hnil.
  - intros j t Hj Hpc. rewrite (Hentry j t Hj) in Hpc. discriminate.
  - intros j t Hj [Hpc | Hpc]; rewrite (Hentry j t Hj) in Hpc; discriminate.
  - intros j t Hj Hpc. rewrite (Hentry j t Hj) in Hpc. discriminate.
  - intros j t Hj [Hpc | (r & Hpc & _)]; rewrite (Hentry j t Hj) in Hpc; discriminate.
Qed.

Lemma holder_pc (sh : Shared) (pool : list Thread) (i : nat) (t : Thread) :
  Inv sh pool -> nth_error pool i = Some t ->
  (in_critical (t_pc t) = true -> sh_mutex sh = Some i /\ holder_at sh (t_pc t)) /\
  (in_critical (t_pc t) = false ->
   forall k, sh_mutex sh = Some k -> k <> i).
Proof.
  intros [Hmutex Hexcl _ _ _] Hi. split.
  - intros Hc. pose proof (Hexcl i t Hi Hc) as Hm. split; [ exact Hm | ].
    unfold mutex_inv in Hmutex. rewrite Hm in Hmutex.
    destruct Hmutex as (t0 & Ht0 & Hh). congruence.
  - intros Hc k Hk ->. unfold mutex_inv in Hmutex. rewrite Hk in Hmutex.
    destruct Hmutex as (t0 & Ht0 & Hh).
    assert (t0 = t) by congruence. subst t0.
    destruct (t_pc t); cbn in *; try discriminate; contradiction.
Qed.

Ltac split_pool Hj Hi i j :=
  rewrite (nth_error_set_nth _ _ _ _ _ Hi) in Hj;
  destruct (Nat.eqb_spec j i) as [-> | ?];
  [ injection Hj as <-; cbn [t_pc t_tags at_pc] in * | ].

Ltac crush :=
  cbn [sh_s sh_mutex sh_constructed sh_launched with_s with_mutex
       periodic tags with_obm with_tags with_tag with_periodic
       t_pc t_tags at_pc in_critical reads_tags holder_at] in *;
  unfold not_started, started, past_creation in *;
  cbn [sh_s sh_mutex sh_constructed sh_launched with_s with_mutex
       periodic tags with_obm with_tags with_tag with_periodic
       t_pc t_tags at_pc in_critical reads_tags holder_at] in *;
  try discriminate; try congruence; try lia;
  try (intuition (try discriminate; try congruence; try lia); fail).

Ltac step_cases Hstep :=
  repeat match type of Hstep with
  | context [if ?b then _ else _] => destruct b eqn:?
  | context [match periodic ?s with _ => _ end] => destruct (periodic s) eqn:?
  | context [match sh_mutex ?s with _ => _ end] => destruct (sh_mutex s) eqn:?
  | context [match ?x with Returned _ => _ | Panicked _ => _ end] => destruct x eqn:?
  end; try discriminate;
  match type of Hstep with Some (_, _) = Some (?a, ?b) => injection Hstep as Hsh Ht; subst a b end.

Lemma index_panics {A : Type} (l : list A) (msg : string) :
  index l 0 = Panicked msg -> l = [].
Proof.
  unfold index. destruct l; cbn; [ reflexivity | discriminate ].
Qed.

Lemma step_call_mutex_inv (sh sh' : Shared) (pool : list Thread) (i : nat) (t t' : Thread) :
  Inv sh pool ->
  nth_error pool i = Some t ->
  thread_step i sh t = Some (sh', t') ->
  mutex_inv sh' (set_nth pool i t').
Proof.
  intros HInv Hi Hstep.
  destruct (holder_pc sh pool i t HInv Hi) as [Hcrit Hfree].
  pose proof (inv_tags _ _ HInv i t Hi) as Htags_i.
  pose proof (inv_mutex _ _ HInv) as Hmutex.
  assert (Hme : nth_error (set_nth pool i t') i = Some t').
  { rewrite (nth_error_set_nth _ _ _ _ _ Hi), Nat.eqb_refl. reflexivity. }
  assert (Hother : forall k, k <> i -> nth_error (set_nth pool i t') k = nth_error pool k).
  { intros k Hk. rewrite (nth_error_set_nth _ _ _ _ _ Hi).
    destruct (Nat.eqb_spec k i); [ contradiction | reflexivity ]. }
  unfold mutex_inv in *. unfold thread_step in Hstep.
  destruct (t_pc t) eqn:Hpc; cbn [in_critical reads_tags] in *; step_cases Hstep;
    cbn [sh_mutex with_s with_mutex];
    try (specialize (Hfree eq_refl));
    try (destruct (Hcrit eq_refl) as [Hm Hh]; rewrite Hm in *; clear Hcrit).
  all: try (match goal with
            | |- match sh_mutex ?s0 with _ => _ end =>
                destruct (sh_mutex s0) as [ k | ] eqn:Hm;
                [ destruct Hmutex as (t0 & Ht0 & Hh); exists t0;
                  rewrite (Hother k (Hfree k eq_refl)); split; [ exact Ht0 | ];
                  destruct (t_pc t0); crush
                | crush ]
            end).
  all: try (exists (at_pc t AtRecheck); split; [ exact Hme | crush ]).
  all: try (eexists; split; [ exact Hme | crush ]).
  all: try solve [ crush ].
  - match goal with
    | Hpanic : index _ 0 = Panicked _ |- _ =>
        apply index_panics in Hpanic; rewrite Hpanic in Htags_i
    end.
    specialize (Htags_i eq_refl). cbn in Htags_i. lia.
  - destruct Hh as (Hp & Hc & Hl). rewrite Hl. repeat split; assumption.
Qed.

Ltac nat_facts :=
  repeat match goal with
  | H : (_ =? _)%nat = true |- _ => apply Nat.eqb_eq in H
  | H : (_ =? _)%nat = false |- _ => apply Nat.eqb_neq in H
  | H : exists _, _ |- _ => destruct H
  | H : _ /\ _ |- _ => destruct H
  end.

Lemma Inv_step_call (sh sh' : Shared) (pool : list Thread) (i : nat) (t t' : Thread) :
  Inv sh pool ->
  nth_error pool i = Some t ->
  thread_step i sh t = Some (sh', t') ->
  Inv sh' (set_nth pool i t').
Proof.
  intros HInv Hi Hstep.
  pose proof (step_call_mutex_inv sh sh' pool i t t' HInv Hi Hstep) as Hmutex'.
  destruct (holder_pc sh pool i t HInv Hi) as [Hcrit Hfree].
  destruct HInv as [Hmutex Hexcl Hargs Htags Hpast].
  pose proof (Hargs i t Hi) as Hargs_i.
  pose proof (Htags i t Hi) as Htags_i.
  pose proof (Hpast i t Hi) as Hpast_i.
  unfold thread_step in Hstep.
  destruct (t_pc t) eqn:Hpc; cbn [in_critical reads_tags] in *; step_cases Hstep.
  all: try (specialize (Hfree eq_refl)).
  all: try (destruct (Hcrit eq_refl) as [Hm Hh]; clear Hcrit).
  all: split; [ exact Hmutex' | | | | ]; clear Hmutex'.
  all: intros j tj Hj Hc; split_pool Hj Hi i j.
  all: try solve [ crush ].
  all: try solve [ nat_facts; crush ].
  all: try solve [ pose proof (Hexcl _ _ Hj Hc); crush ].
  all: try solve [ crush; eauto ].
  all: try solve [ pose proof (Hpast _ _ Hj Hc); crush ].
  all: try solve [ pose proof (Htags _ _ Hj Hc); nat_facts; crush ].
  all: try solve [ unfold past_creation in Hc; cbn [t_pc t_tags at_pc] in Hc;
                   destruct Hc as [Hc | (r & Hc & Hlen)]; try discriminate;
                   nat_facts; crush ].
Qed.

Lemma Inv_step (c c' : Shared * list Thread) :
  Inv (fst c) (snd c) -> step c c' -> Inv (fst c') (snd c').
Proof.
  intros HInv Hstep. destruct Hstep as [ sh pool i t sh' t' Hi Hstep | sh pool winner Hl ];
    cbn [fst snd] in *.
  - apply (Inv_step_call sh sh' pool i t t' HInv Hi Hstep).
  - destruct HInv as [Hmutex Hexcl Hargs Htags Hpast].
    split; assumption.
Qed.

Lemma Inv_steps (s : OptimalStrategy) (calls : list (Manager * list string))
    (c : Shared * list Thread) :
  periodic s = None -> steps (initial s calls) c -> Inv (fst c) (snd c).
Proof.
  intros Hnil Hsteps. remember (initial s calls) as c0 eqn:Hc0.
  induction Hsteps as [ c | c1 c2 c3 Hsteps IH Hstep ].
  - subst c. apply Inv_initial. exact Hnil.
  - apply (Inv_step c2 c3); [ apply IH; exact Hc0 | exact Hstep ].
Qed.

Lemma steps_trans (c1 c2 c3 : Shared * list Thread) :
  steps c1 c2 -> steps c2 c3 -> steps c1 c3.
Proof.
  intros H12 H23. induction H23 as [ | c2 c3 c4 H23 IH H34 ].
  - exact H12.
  - apply (steps_more c1 c3 c4); [ apply IH; exact H12 | exact H34 ].
Qed.

Lemma run_schedule_steps (schedule : list nat) (c : Shared * list Thread) :
  steps c (run_schedule schedule c).
Proof.
  revert c. induction schedule as [ | i schedule IH ]; intros c; cbn [run_schedule].
  - apply steps_refl.
  - destruct (nth_error (snd c) i) as [ t | ] eqn:Hi; [ | apply IH ].
    destruct (thread_step i (fst c) t) as [ [sh' t'] | ] eqn:Hstep; [ | apply IH ].
    apply (steps_trans c (sh', set_nth (snd c) i t')); [ | apply IH ].
    apply (steps_more c c); [ apply steps_refl | ].
    destruct c as [sh pool]. apply (step_call sh pool i t sh' t' Hi Hstep).
Qed.

Lemma thread_step_keeps_args (me : nat) (sh sh' : Shared) (t t' : Thread) :
  thread_step me sh t = Some (sh', t') -> t_tags t' = t_tags t /\ t_obm t' = t_obm t.
Proof.
  unfold thread_step. intros Hstep.
  destruct (t_pc t); step_cases Hstep; split; reflexivity.
Qed.

Lemma map_set_nth {A B : Type} (f : A -> B) (l : list A) (i : nat) (a b : A) :
  nth_error l i = Some a -> f b = f a -> map f (set_nth l i b) = map f l.
Proof.
  revert i. induction l as [ | c l IH ]; intros i Hi Hf.
  - destruct i; discriminate.
  - destruct i as [ | i' ]; cbn in *.
    + injection Hi as ->. rewrite Hf. reflexivity.
    + rewrite (IH i' Hi Hf). reflexivity.
Qed.

Lemma critical_statement_steps (me : nat) (sh : Shared) (t : Thread) :
  in_critical (t_pc t) = true -> exists sh' t', thread_step me sh t = Some (sh', t').
Proof.
  unfold thread_step. destruct (t_pc t); cbn [in_critical]; try discriminate; intros _.
  - destruct (periodic (sh_s sh)); eauto.
  - destruct (index (tags (sh_s sh)) 0); eauto.
  - eauto.
  - destruct (periodic (sh_s sh)); eauto.
  - eauto.
Qed.

Lemma blocked_call (me : nat) (sh : Shared) (t : Thread) :
  thread_step me sh t = None ->
  ended (t_pc t) = true \/ (t_pc t = AtLock /\ exists k, sh_mutex sh = Some k).
Proof.
  unfold thread_step. intros Hstep.
  destruct (t_pc t) eqn:Hpc; cbn [ended]; auto;
    repeat match type of Hstep with
    | context [if ?b then _ else _] => destruct b
    | context [match periodic ?s with _ => _ end] => destruct (periodic s)
    | context [match index ?l 0 with _ => _ end] => destruct (index l 0)
    end; try discriminate.
  right. split; [ reflexivity | eauto ].
Qed.

Lemma mutex_holder (sh : Shared) (pool : list Thread) (k : nat) :
  Inv sh pool -> sh_mutex sh = Some k ->
  exists t, nth_error pool k = Some t /\ in_critical (t_pc t) = true.
Proof.
  intros HInv Hk. pose proof (inv_mutex _ _ HInv) as Hmutex.
  unfold mutex_inv in Hmutex. rewrite Hk in Hmutex. destruct Hmutex as (t & Ht & Hh).
  exists t. split; [ exact Ht | ].
  destruct (t_pc t); cbn in *; try contradiction; reflexivity.
Qed.

Lemma args_inv_initial (s : OptimalStrategy) (calls : list (Manager * list string)) :
  args_inv calls (snd (initial s calls)).
Proof.
  unfold initial. cbn [snd]. split.
  - rewrite map_map. reflexivity.
  - intros j t Hj. apply nth_error_In, in_map_iff in Hj.
    destruct Hj as (c & <- & _). exact I.
Qed.

Lemma args_inv_step (calls : list (Manager * list string)) (c c' : Shared * list Thread) :
  Inv (fst c) (snd c) -> args_inv calls (snd c) -> step c c' -> args_inv calls (snd c').
Proof.
  intros HInv [Hmap Hargs] Hstep.
  destruct Hstep as [ sh pool i t sh' t' Hi Hstep | sh pool winner Hl ]; cbn [fst snd] in *;
    [ | split; assumption ].
  destruct (thread_step_keeps_args i sh sh' t t' Hstep) as [Htags _].
  split; [ rewrite (map_set_nth t_tags pool i t t' Hi Htags); exact Hmap | ].
  intros j tj Hj. rewrite (nth_error_set_nth _ _ _ _ _ Hi) in Hj.
  destruct (Nat.eqb_spec j i) as [-> | Hne]; [ injection Hj as <- | apply (Hargs j tj Hj) ].
  pose proof (Hargs i t Hi) as Hat.
  destruct (holder_pc sh pool i t HInv Hi) as [Hcrit _].
  pose proof (inv_tags _ _ HInv i t Hi) as Hread.
  unfold args_at in *. unfold thread_step in Hstep.
  destruct (t_pc t) eqn:Hpc; cbn [in_critical reads_tags] in *; step_cases Hstep;
    cbn [t_pc t_tags at_pc]; nat_facts; try exact Hat; try lia; try (split; reflexivity);
    try (intros Hnil; rewrite Hnil in *; cbn in *; lia).
  - split; [ | reflexivity ]. destruct (t_tags t); [ reflexivity | discriminate ].
  - match goal with
    | Hpanic : index _ 0 = Panicked _ |- _ =>
        apply index_panics in Hpanic; rewrite Hpanic in Hread
    end.
    specialize (Hread eq_refl). cbn in Hread. lia.
  - destruct (Hcrit eq_refl) as [_ (Hp & _)]. contradiction.
Qed.

Lemma args_inv_steps (s : OptimalStrategy) (calls : list (Manager * list string))
    (c : Shared * list Thread) :
  periodic s = None -> steps (initial s calls) c -> args_inv calls (snd c).
Proof.
  intros Hnil Hsteps.
  assert (Hboth : Inv (fst c) (snd c) /\ args_inv calls (snd c)).
  { remember (initial s calls) as c0 eqn:Hc0.
    induction Hsteps as [ c | c1 c2 c3 Hsteps IH Hstep ].
    - subst c. split; [ apply Inv_initial; exact Hnil | apply args_inv_initial ].
    - destruct (IH Hc0) as [HInv Hargs].
      split; [ apply (Inv_step c2 c3 HInv Hstep) | apply (args_inv_step calls c2 c3); assumption ]. }
  apply Hboth.
Qed.

Lemma thread_step_nearer (me : nat) (sh sh' : Shared) (t t' : Thread) :
  thread_step me sh t = Some (sh', t') ->
  (statements_left (t_pc t') < statements_left (t_pc t))%nat.
Proof.
  unfold thread_step. intros Hstep.
  destruct (t_pc t); step_cases Hstep; cbn; lia.
Qed.

Lemma calls_left_set_nth (pool : list Thread) (i : nat) (t t' : Thread) :
  nth_error pool i = Some t ->
  (statements_left (t_pc t') < statements_left (t_pc t))%nat ->
  (calls_left (set_nth pool i t') < calls_left pool)%nat.
Proof.
  revert i. induction pool as [ | u pool IH ]; intros i Hi Hlt.
  - destruct i; discriminate.
  - unfold calls_left in *. destruct i as [ | i' ]; cbn [nth_error set_nth fold_right] in *.
    + injection Hi as ->. lia.
    + specialize (IH i' Hi Hlt). lia.
Qed.

Lemma calls_left_initial (s : OptimalStrategy) (calls : list (Manager * list string)) :
  calls_left (snd (initial s calls)) = (11 * List.length calls)%nat.
Proof.
  unfold initial. cbn [snd]. induction calls as [ | c calls IH ].
  - reflexivity.
  - cbn [map calls_left fold_right List.length] in *. unfold calls_left in IH.
    rewrite IH. cbn [call t_pc statements_left]. lia.
Qed.

Lemma calls_left_step (c c' : Shared * list Thread) :
  step c c' -> (calls_left (snd c') <= calls_left (snd c))%nat.
Proof.
  intros Hstep. destruct Hstep as [ sh pool i t sh' t' Hi Hstep | sh pool winner Hl ];
    cbn [snd].
  - pose proof (calls_left_set_nth pool i t t' Hi (thread_step_nearer i sh sh' t t' Hstep)).
    lia.
  - lia.
Qed.

Lemma calls_left_steps (c c' : Shared * list Thread) :
  steps c c' -> (calls_left (snd c') <= calls_left (snd c))%nat.
Proof.
  intros Hsteps. induction Hsteps as [ c | c1 c2 c3 Hsteps IH Hstep ].
  - lia.
  - pose proof (calls_left_step c2 c3 Hstep). lia.
Qed.

(** While some call has not ended, some call can execute its next
    statement: a call that waits for the mutex waits for a call that can. *)
Lemma some_call_steps (sh : Shared) (pool : list Thread) :
  Inv sh pool ->
  Exists (fun t => ended (t_pc t) = false) pool ->
  exists j tj sh' tj',
    nth_error pool j = Some tj /\ thread_step j sh tj = Some (sh', tj').
Proof.
  intros HInv Hex. apply Exists_exists in Hex. destruct Hex as (t & Hin & Ht).
  apply In_nth_error in Hin. destruct Hin as [i Hi].
  destruct (thread_step i sh t) as [ [sh' t'] | ] eqn:Hstep.
  - exists i, t, sh', t'. split; assumption.
  - apply blocked_call in Hstep. destruct Hstep as [Hend | (_ & k & Hk)]; [ congruence | ].
    destruct (mutex_holder sh pool k HInv Hk) as (tk & Htk & Hc).
    destruct (critical_statement_steps k sh tk Hc) as (sh' & tk' & Hstep).
    exists k, tk, sh', tk'. split; assumption.
Qed.

(** From every state the calls can be run to their end. *)
Lemma calls_run_to_end (n : nat) (sh : Shared) (pool : list Thread) :
  Inv sh pool -> (calls_left pool <= n)%nat ->
  exists sh_end pool_end,
    steps (sh, pool) (sh_end, pool_end) /\
    Forall (fun t => ended (t_pc t) = true) pool_end.
Proof.
  revert sh pool. induction n as [ | n IH ]; intros sh pool HInv Hn.
  all: destruct (Forall_Exists_dec (fun t => ended (t_pc t) = true)
                   (fun t => bool_dec (ended (t_pc t)) true) pool) as [Hall | Hex].
  all: try (exists sh, pool; split; [ apply steps_refl | exact Hall ]).
  all: assert (Hex' : Exists (fun t => ended (t_pc t) = false) pool)
         by (revert Hex; apply Exists_impl; intros t Ht;
             destruct (ended (t_pc t)); [ contradiction | reflexivity ]).
  all: destruct (some_call_steps sh pool HInv Hex') as (j & tj & sh' & tj' & Hj & Hstep).
  all: pose proof (calls_left_set_nth pool j tj tj' Hj
                     (thread_step_nearer j sh sh' tj tj' Hstep)) as Hlt.
  - lia.
  - destruct (IH sh' (set_nth pool j tj') (Inv_step_call sh sh' pool j tj tj' HInv Hj Hstep))
      as (sh_end & pool_end & Hsteps & Hend); [ lia | ].
    exists sh_end, pool_end. split; [ | exact Hend ].
    apply (steps_trans _ (sh', set_nth pool j tj')); [ | exact Hsteps ].
    apply (steps_more _ (sh, pool)); [ apply steps_refl | ].
    apply (step_call sh pool j tj sh' tj' Hj Hstep).
Qed.

(** A call with more than one candidate does not end in a panic. *)
Lemma ended_calls_returned (calls : list (Manager * list string)) (pool : list Thread) :
  args_inv calls pool ->
  Forall (fun t => ended (t_pc t) = true) pool ->
  Forall (fun t => (2 <= List.length (t_tags t))%nat -> exists r, t_pc t = Done r) pool.
Proof.
  intros [_ Hargs] Hall. rewrite Forall_forall in *. intros t Hin Hlen.
  specialize (Hall t Hin). apply In_nth_error in Hin. destruct Hin as [j Hj].
  specialize (Hargs j t Hj). unfold args_at in Hargs.
  destruct (t_pc t) as [ | | | | | | | | | | | r | msg ]; try discriminate.
  - exists r. reflexivity.
  - destruct Hargs as [Hnil _]. rewrite Hnil in Hlen. cbn in Hlen. lia.
Qed.

(** When every call has ended and one of them had more than one candidate,
    the periodic task is started. *)
Lemma ended_calls_started (calls : list (Manager * list string)) (sh : Shared)
    (pool : list Thread) :
  Inv sh pool -> args_inv calls pool ->
  Forall (fun t => ended (t_pc t) = true) pool ->
  Exists (fun c => (2 <= List.length (snd c))%nat) calls ->
  sh_mutex sh = None /\ started sh.
Proof.
  intros HInv [Hmap Hargs] Hall Hex.
  assert (Hm : sh_mutex sh = None).
  { destruct (sh_mutex sh) as [ k | ] eqn:Hk; [ | reflexivity ].
    destruct (mutex_holder sh pool k HInv Hk) as (t & Ht & Hc).
    rewrite Forall_forall in Hall. specialize (Hall t (nth_error_In _ _ Ht)).
    destruct (t_pc t); discriminate. }
  split; [ exact Hm | ].
  apply Exists_exists in Hex. destruct Hex as (c & Hin & Hlen).
  apply (in_map snd) in Hin. rewrite <- Hmap in Hin. apply in_map_iff in Hin.
  destruct Hin as (t & Htags & Hin).
  pose proof Hin as Hin'. apply In_nth_error in Hin'. destruct Hin' as [j Hj].
  rewrite Forall_forall in Hall. specialize (Hall t Hin).
  specialize (Hargs j t Hj). unfold args_at in Hargs.
  assert (Hp : periodic (sh_s sh) <> None).
  { apply (inv_past _ _ HInv j t Hj). right.
    destruct (t_pc t) as [ | | | | | | | | | | | r | msg ]; try discriminate.
    - exists r. split; [ reflexivity | rewrite Htags; exact Hlen ].
    - destruct Hargs as [Hnil _]. rewrite Htags in Hnil. rewrite Hnil in Hlen.
      cbn in Hlen. lia. }
  pose proof (inv_mutex _ _ HInv) as Hmutex. unfold mutex_inv in Hmutex.
  rewrite Hm in Hmutex. destruct Hmutex as [(Hn & _) | Hs]; [ contradiction | exact Hs ].
Qed.

(** C9. However the statements of any number of concurrent calls of
    PickOutbound interleave, from a strategy on which no periodic task
    exists: at most one [task.Periodic] is ever constructed and at most one
    loop launched; once a call with more than one candidate has returned,
    exactly one has been constructed, and when the mutex is unlocked
    exactly one loop has been launched. The calls do end: while one of them
    has not ended, one of them can execute its next statement; every
    statement executed leaves the calls fewer statements to execute, at most
    11 for each call at the start; so the calls can be run to their end
    from every state. At their end every call with more than one candidate
    has returned, and if there was such a call, exactly one [task.Periodic]
    has been constructed and exactly one loop launched. *)
Theorem periodic_task_created_once (s : OptimalStrategy)
    (calls : list (Manager * list string)) (sh : Shared) (pool : list Thread) :
  periodic s = None ->
  steps (initial s calls) (sh, pool) ->
  (sh_constructed sh <= 1)%nat /\
  (List.length (sh_launched sh) <= 1)%nat /\
  (forall j t r,
     nth_error pool j = Some t -> t_pc t = Done r ->
     (2 <= List.length (t_tags t))%nat ->
     sh_constructed sh = 1%nat /\
     (sh_mutex sh = None -> List.length (sh_launched sh) = 1%nat)) /\
  (Exists (fun t => ended (t_pc t) = false) pool ->
   exists j tj sh' tj',
     nth_error pool j = Some tj /\ thread_step j sh tj = Some (sh', tj')) /\
  (forall j tj sh' tj',
     nth_error pool j = Some tj -> thread_step j sh tj = Some (sh', tj') ->
     (calls_left (set_nth pool j tj') < calls_left pool)%nat) /\
  (calls_left pool <= 11 * List.length calls)%nat /\
  (Forall (fun t => ended (t_pc t) = true) pool ->
   Forall (fun t => (2 <= List.length (t_tags t))%nat -> exists r, t_pc t = Done r) pool /\
   (Exists (fun c => (2 <= List.length (snd c))%nat) calls ->
    sh_constructed sh = 1%nat /\ List.length (sh_launched sh) = 1%nat)) /\
  (exists sh_end pool_end,
     steps (sh, pool) (sh_end, pool_end) /\
     Forall (fun t => ended (t_pc t) = true) pool_end /\
     Forall (fun t => (2 <= List.length (t_tags t))%nat -> exists r, t_pc t = Done r)
       pool_end /\
     (Exists (fun c => (2 <= List.length (snd c))%nat) calls ->
      sh_constructed sh_end = 1%nat /\ List.length (sh_launched sh_end) = 1%nat)).
Proof.
  intros Hnil Hsteps.
  pose proof (Inv_steps s calls (sh, pool) Hnil Hsteps) as HInv. cbn [fst snd] in HInv.
  pose proof (args_inv_steps s calls (sh, pool) Hnil Hsteps) as Hargs_inv.
  cbn [snd] in Hargs_inv.
  assert (Hsafe :
    (sh_constructed sh <= 1)%nat /\
    (List.length (sh_launched sh) <= 1)%nat /\
    (forall j t r,
       nth_error pool j = Some t -> t_pc t = Done r ->
       (2 <= List.length (t_tags t))%nat ->
       sh_constructed sh = 1%nat /\
       (sh_mutex sh = None -> List.length (sh_launched sh) = 1%nat))).
  { destruct HInv as [Hmutex Hexcl Hargs Htags Hpast]. unfold mutex_inv in Hmutex.
    assert (Hcount : (sh_constructed sh <= 1)%nat /\ (List.length (sh_launched sh) <= 1)%nat /\
                     (periodic (sh_s sh) <> None -> sh_constructed sh = 1%nat)).
    { destruct (sh_mutex sh) as [ k | ].
      - destruct Hmutex as (t0 & _ & Hh). destruct (t_pc t0); crush;
          try (destruct Hh as [(? & -> & ->) | (? & -> & ->)]; cbn; intuition lia);
          try (destruct Hh as (? & -> & ->); cbn; intuition lia).
      - destruct Hmutex as [(? & -> & ->) | (? & -> & ->)]; cbn; intuition lia. }
    destruct Hcount as (Hc & Hl & Hone). split; [ exact Hc | ]. split; [ exact Hl | ].
    intros j t r Hj Hpc Hlen.
    assert (Hp : periodic (sh_s sh) <> None).
    { apply (Hpast j t Hj). right. exists r. split; assumption. }
    split; [ apply Hone; exact Hp | ].
    intros Hm. rewrite Hm in Hmutex. destruct Hmutex as [(Hn & _) | (_ & _ & Hlaunched)].
    - contradiction.
    - exact Hlaunched. }
  destruct Hsafe as (Hc & Hl & Hdone).
  refine (conj Hc (conj Hl (conj Hdone (conj _ (conj _ (conj _ (conj _ _))))))).
  - apply (some_call_steps sh pool HInv).
  - intros j tj sh' tj' Hj Hstep.
    apply (calls_left_set_nth pool j tj tj' Hj (thread_step_nearer j sh sh' tj tj' Hstep)).
  - pose proof (calls_left_steps _ _ Hsteps) as Hle. cbn [snd] in Hle.
    rewrite calls_left_initial in Hle. exact Hle.
  - intros Hall. split; [ apply (ended_calls_returned calls pool Hargs_inv Hall) | ].
    intros Hex.
    destruct (ended_calls_started calls sh pool HInv Hargs_inv Hall Hex)
      as (_ & _ & Hone & Hlaunched).
    split; assumption.
  - destruct (calls_run_to_end (calls_left pool) sh pool HInv (Nat.le_refl _))
      as (sh_end & pool_end & Hrun & Hend).
    pose proof (steps_trans _ _ _ Hsteps Hrun) as Hreach.
    pose proof (Inv_steps s calls _ Hnil Hreach) as HInv_end.
    pose proof (args_inv_steps s calls _ Hnil Hreach) as Hargs_end.
    cbn [fst snd] in HInv_end, Hargs_end.
    exists sh_end, pool_end. split; [ exact Hrun | ]. split; [ exact Hend | ].
    split; [ apply (ended_calls_returned calls pool_end Hargs_end Hend) | ].
    intros Hex.
    destruct (ended_calls_started calls sh_end pool_end HInv_end Hargs_end Hend Hex)
      as (_ & _ & Hone & Hlaunched).
    split; assumption.
Qed.

Lemma periodic_task_created_once_witness :
  let c := run_schedule (firstn 10 racing_schedule) (initial fresh_strategy two_calls) in
  (sh_constructed (fst c) <= 1)%nat /\
  (List.length (sh_launched (fst c)) <= 1)%nat /\
  (forall j t r,
     nth_error (snd c) j = Some t -> t_pc t = Done r ->
     (2 <= List.length (t_tags t))%nat ->
     sh_constructed (fst c) = 1%nat /\
     (sh_mutex (fst c) = None -> List.length (sh_launched (fst c)) = 1%nat)) /\
  (Exists (fun t => ended (t_pc t) = false) (snd c) ->
   exists j tj sh' tj',
     nth_error (snd c) j = Some tj /\ thread_step j (fst c) tj = Some (sh', tj')) /\
  (forall j tj sh' tj',
     nth_error (snd c) j = Some tj -> thread_step j (fst c) tj = Some (sh', tj') ->
     (calls_left (set_nth (snd c) j tj') < calls_left (snd c))%nat) /\
  (calls_left (snd c) <= 11 * List.length two_calls)%nat /\
  (Forall (fun t => ended (t_pc t) = true) (snd c) ->
   Forall (fun t => (2 <= List.length (t_tags t))%nat -> exists r, t_pc t = Done r) (snd c) /\
   (Exists (fun c => (2 <= List.length (snd c))%nat) two_calls ->
    sh_constructed (fst c) = 1%nat /\ List.length (sh_launched (fst c)) = 1%nat)) /\
  (exists sh_end pool_end,
     steps (fst c, snd c) (sh_end, pool_end) /\
     Forall (fun t => ended (t_pc t) = true) pool_end /\
     Forall (fun t => (2 <= List.length (t_tags t))%nat -> exists r, t_pc t = Done r)
       pool_end /\
     (Exists (fun c => (2 <= List.length (snd c))%nat) two_calls ->
      sh_constructed sh_end = 1%nat /\ List.length (sh_launched sh_end) = 1%nat)).
Proof.
  intros c.
  exact (periodic_task_created_once fresh_strategy two_calls (fst c) (snd c) eq_refl
           (run_schedule_steps (firstn 10 racing_schedule) (initial fresh_strategy two_calls))).
Defined.

(** A call that runs alone does what the function [PickOutbound] says. *)
Lemma call_alone (s : OptimalStrategy) (m : Manager) (ts : list string) (me : nat) :
  let '(sh', t') :=
    thread_run 11 me
      {| sh_s := s; sh_mutex := None; sh_constructed := 0; sh_launched := [] |}
      (call m ts) in
  match PickOutbound s m ts with
  | Returned (r, s', gs) =>
      t_pc t' = Done r /\ sh_s sh' = s' /\ sh_launched sh' = gs /\ sh_mutex sh' = None
  | Panicked msg => t_pc t' = Crashed msg
  end.
Proof.
  destruct ts as [ | t0 [ | t1 rest ] ].
  - reflexivity.
  - cbn. repeat split.
  - destruct (periodic s) as [ p | ] eqn:Hp.
    + rewrite (PickOutbound_later_use _ _ _ _ _ _ Hp).
      cbn. rewrite Hp. cbn. repeat split.
    + rewrite (PickOutbound_first_use _ _ _ _ _ Hp).
      cbn. rewrite Hp. cbn. rewrite Hp. cbn. repeat split.
Qed.

(** The end of the racing schedule: one periodic task, one loop, and both
    calls return "b", the first candidate of the second call, which stored
    its candidates before the first call read [s.tags[0]]. *)
Example racing_schedule_end :
  let c := run_schedule racing_schedule (initial fresh_strategy two_calls) in
  map t_pc (snd c) = [Done "b"%string; Done "b"%string] /\
  sh_constructed (fst c) = 1%nat /\
  sh_launched (fst c)
  = [GoPeriodicStart {| p_Interval := 600000000000; p_Execute := task_run |}] /\
  sh_mutex (fst c) = None.
Proof. vm_compute. repeat split. Qed.

(** C7. Two first calls race on a strategy just constructed, one for "a"
    and "b", the other for "c" and "d": each stores its candidates in
    [s.tags] and finds [s.periodic] nil before either locks. The first call
    then locks, publishes [s.tags[0]], constructs the periodic task and
    launches it while the second call waits for the mutex: it is the call
    that triggers the start. What it publishes and returns is "c", the first
    candidate of the other call, which is none of its own candidates: line
    85 reads the field [s.tags], which the other call has overwritten at
    line 80, outside the mutex, and not the parameter [tags]. No round has
    run. *)
Theorem racing_first_call_publishes_rival_tag :
  let start := initial fresh_strategy rival_calls in
  let mid := run_schedule (firstn 13 racing_schedule) start in
  let c := run_schedule racing_schedule start in
  steps start mid /\ steps mid c /\
  periodic fresh_strategy = None /\
  map t_tags (snd start) = [["a"; "b"]; ["c"; "d"]]%string /\
  map t_pc (snd mid) = [AtUnlock; AtLock] /\
  sh_mutex (fst mid) = Some 0%nat /\
  sh_constructed (fst mid) = 1%nat /\
  sh_launched (fst mid)
  = [GoPeriodicStart {| p_Interval := 600000000000; p_Execute := task_run |}] /\
  tag (sh_s (fst mid)) = "c"%string /\
  map t_pc (snd c) = [Done "c"%string; Done "c"%string] /\
  tag (sh_s (fst c)) = "c"%string /\
  sh_constructed (fst c) = 1%nat /\
  sh_launched (fst c)
  = [GoPeriodicStart {| p_Interval := 600000000000; p_Execute := task_run |}] /\
  existsb (String.eqb "c") ["a"; "b"]%string = false.
Proof.
  intros start mid c. split; [ apply run_schedule_steps | ].
  split.
  - replace c with (run_schedule (skipn 13 racing_schedule) mid) by (vm_compute; reflexivity).
    apply run_schedule_steps.
  - vm_compute. repeat split.
Qed.

(** * Further properties

    What the rest of the code does: the settings of a constructed strategy
    and of its probing client, calls of PickOutbound one after the other
    and at the same time, when a round panics, how a response body is
    counted, the sign of a score, and the messages of config.pb.go. *)

(** ** The settings of a strategy and of its client *)

Section SettingsFacts.

Variable url_Parse : string -> URL + string.

Lemma NewOptimalStrategy_fields config s :
  config_wf config ->
  NewOptimalStrategy url_Parse config = Returned s ->
  timeout s = Millisecond * (if Timeout config =? 0 then 5000 else Timeout config) /\
  interval s = Millisecond * (if Interval config =? 0 then 600000 else Interval config) /\
  count s = (if Count config =? 0 then 3 else Count config).
Proof.
  intros (Ht & Hi & Hc) Hnew. unfold NewOptimalStrategy, bind in Hnew.
  destruct (Url config =? "")%string.
  - injection Hnew as <-. cbn [timeout interval count].
    auto using timeout_value, interval_value.
  - destruct (url_Parse (Url config)) as [ u | err ]; [ | discriminate ].
    destruct (negb (Scheme u =? "http")%string && negb (Scheme u =? "https")%string);
      [ discriminate | ].
    injection Hnew as <-. cbn [timeout interval count].
    auto using timeout_value, interval_value.
Qed.

Lemma NewOptimalStrategy_ranges config s :
  config_wf config ->
  NewOptimalStrategy url_Parse config = Returned s ->
  0 < timeout s <= Millisecond * MaxUint32 /\
  0 < interval s <= Millisecond * MaxUint32 /\
  1 <= count s <= MaxUint32.
Proof.
  intros Hwf Hnew.
  destruct (NewOptimalStrategy_fields config s Hwf Hnew) as (-> & -> & ->).
  destruct Hwf as (Ht & Hi & Hc).
  unfold uint32_range, MaxUint32, Millisecond in *.
  destruct (Z.eqb_spec (Timeout config) 0); destruct (Z.eqb_spec (Interval config) 0);
    destruct (Z.eqb_spec (Count config) 0); lia.
Qed.

(** X1. A strategy constructed from a configuration whose fields are uint32
    has a positive timeout, a positive interval and at least one trial,
    none of them beyond 4294967295 ms or 4294967295; the client that
    buildClient makes for a probe carries that timeout, so no probe runs
    without one. *)
Theorem NewOptimalStrategy_settings_positive config s :
  config_wf config ->
  NewOptimalStrategy url_Parse config = Returned s ->
  0 < timeout s <= Millisecond * MaxUint32 /\
  0 < interval s <= Millisecond * MaxUint32 /\
  1 <= count s <= MaxUint32 /\
  (forall (Destination : Type) (net_ParseDestination : string -> Destination + string)
          (oh : Handler),
     0 < c_Timeout Destination (buildClient Destination net_ParseDestination s oh)
       <= Millisecond * MaxUint32).
Proof.
  intros Hwf Hnew.
  destruct (NewOptimalStrategy_ranges config s Hwf Hnew) as (Ht & Hi & Hc).
  repeat split; try apply Ht; try apply Hi; try apply Hc.
Qed.

End SettingsFacts.

Lemma NewOptimalStrategy_settings_positive_witness :
  0 < timeout fresh_strategy <= Millisecond * MaxUint32 /\
  0 < interval fresh_strategy <= Millisecond * MaxUint32 /\
  1 <= count fresh_strategy <= MaxUint32 /\
  (forall (Destination : Type) (net_ParseDestination : string -> Destination + string)
          (oh : Handler),
     0 < c_Timeout Destination (buildClient Destination net_ParseDestination fresh_strategy oh)
       <= Millisecond * MaxUint32).
Proof.
  apply (NewOptimalStrategy_settings_positive sample_Parse zero_config fresh_strategy).
  - unfold config_wf, uint32_range, MaxUint32. cbn. lia.
  - reflexivity.
Defined.

(** ** Calls of PickOutbound, one after the other *)

Lemma PickOutbound_started (s : OptimalStrategy) (m : Manager) (ts : list string)
    (p : Periodic) :
  periodic s = Some p -> ts <> [] ->
  exists s', PickOutbound s m ts = Returned (tag s, s', []) /\
             tag s' = tag s /\ periodic s' = Some p /\ interval s' = interval s.
Proof.
  intros Hp Hne. destruct ts as [ | t0 [ | t1 rest ] ]; [ contradiction | | ].
  - rewrite PickOutbound_one_tag. exists s. repeat split; assumption.
  - rewrite (PickOutbound_later_use _ _ _ _ _ _ Hp). eexists. repeat split. exact Hp.
Qed.

Lemma PickOutbound_each_started (calls : list (Manager * list string)) :
  forall (s : OptimalStrategy) (p : Periodic),
  periodic s = Some p ->
  Forall (fun c => snd c <> []) calls ->
  exists s', PickOutbound_each s calls
             = Returned (repeat (tag s) (List.length calls), s', []) /\
             tag s' = tag s /\ periodic s' = Some p.
Proof.
  induction calls as [ | [m ts] calls IH ]; intros s p Hp Hall.
  - exists s. repeat split. exact Hp.
  - inversion Hall as [ | c calls' Hts Hrest ]; subst c calls'. cbn [snd] in Hts.
    destruct (PickOutbound_started s m ts p Hp Hts) as (s1 & Hpick & Htag & Hp1 & _).
    destruct (IH s1 p Hp1 Hrest) as (s2 & Heach & Htag2 & Hp2).
    exists s2. cbn [PickOutbound_each List.length repeat]. unfold bind.
    rewrite Hpick, Heach, Htag. cbn [app].
    repeat split; [ congruence | exact Hp2 ].
Qed.

(** X2. After the first call with more than one candidate, every later
    call, whatever candidates it passes (one at least), returns the first
    candidate of the first call and launches nothing, and the periodic task
    stays the one of the first call, as long as no round has run. *)
Theorem PickOutbound_later_calls_return_first_candidate (s : OptimalStrategy)
    (m : Manager) (t0 t1 : string) (rest : list string)
    (calls : list (Manager * list string)) :
  periodic s = None ->
  Forall (fun c => snd c <> []) calls ->
  exists s' p,
    PickOutbound_each s ((m, t0 :: t1 :: rest) :: calls)
    = Returned (repeat t0 (S (List.length calls)), s', [GoPeriodicStart p]) /\
    tag s' = t0 /\
    periodic s' = Some p /\
    p_Interval p = interval s.
Proof.
  intros Hnil Hall.
  set (p := {| p_Interval := interval s; p_Execute := task_run |}).
  set (s1 := with_periodic (with_tag (with_tags (with_obm s m) (t0 :: t1 :: rest)) t0) p).
  destruct (PickOutbound_each_started calls s1 p eq_refl Hall) as (s2 & Heach & Htag & Hp).
  exists s2, p. cbn [PickOutbound_each]. unfold bind.
  rewrite (PickOutbound_first_use _ _ _ _ _ Hnil). fold p s1.
  rewrite Heach. cbn [tag s1 with_periodic with_tag app repeat].
  repeat split; assumption.
Qed.

Lemma PickOutbound_later_calls_witness :
  exists s' p,
    PickOutbound_each fresh_strategy
      ((sample_obm, ["a"; "b"]%string)
         :: [ (sample_obm, ["c"]%string); (sample_obm, ["d"; "e"]%string) ])
    = Returned (repeat "a"%string 3, s', [GoPeriodicStart p]) /\
    tag s' = "a"%string /\
    periodic s' = Some p /\
    p_Interval p = interval fresh_strategy.
Proof.
  apply (PickOutbound_later_calls_return_first_candidate fresh_strategy sample_obm
           "a" "b" [] [ (sample_obm, ["c"]%string); (sample_obm, ["d"; "e"]%string) ]).
  - reflexivity.
  - repeat constructor; discriminate.
Defined.

(** ** Rounds: what they write, and when they panic *)

Lemma mapM_Panicked {A B : Type} (f : A -> Outcome B) (l : list A) (msg : string) :
  mapM f l = Panicked msg -> exists a, In a l /\ f a = Panicked msg.
Proof.
  induction l as [ | a l IH ]; cbn; [ discriminate | ].
  unfold bind. destruct (f a) as [ b | msg' ] eqn:Hfa.
  - destruct (mapM f l) as [ bs | msg' ]; [ discriminate | ].
    intros Hm. injection Hm as ->. destruct IH as (a' & Hin & Ha'); [ reflexivity | ].
    exists a'. split; [ right; exact Hin | exact Ha' ].
  - intros Hm. injection Hm as ->. exists a. split; [ left; reflexivity | exact Hfa ].
Qed.

Lemma mapM_first_panic {A B : Type} (f : A -> Outcome B) (l : list A) (a : A) (msg : string) :
  In a l -> f a = Panicked msg -> exists msg', mapM f l = Panicked msg'.
Proof.
  induction l as [ | a' l IH ]; intros Hin Hfa; [ contradiction | ].
  cbn. unfold bind. destruct (f a') as [ b | msg' ] eqn:Hfa'; [ | eexists; reflexivity ].
  destruct Hin as [-> | Hin]; [ congruence | ].
  destruct (IH Hin Hfa) as [msg' ->]. eexists. reflexivity.
Qed.

Lemma trial_scores_panics (s : OptimalStrategy) (net : Network) (oh : Handler) (n : Z) :
  (exists msg, trial_scores s net oh n = Panicked msg) <-> url s = None /\ 0 < n.
Proof.
  unfold trial_scores. split.
  - intros [msg Hm]. apply mapM_Panicked in Hm. destruct Hm as (i & Hin & Hi).
    destruct (url s); [ discriminate | ]. split; [ reflexivity | ].
    destruct n; try lia; cbn in Hin; contradiction.
  - intros [Hurl Hn]. rewrite Hurl.
    apply (mapM_first_panic _ _ 0%nat "invalid memory address or nil pointer dereference");
      [ | reflexivity ].
    apply in_seq. lia.
Qed.

Lemma testOutboud_panics (s : OptimalStrategy) (net : Network) (t : string)
    (result : optimalStrategyTestResult) (n : Z) :
  (exists msg, testOutboud s net t result n = Panicked msg) <->
  match obm s with
  | None => True
  | Some m => m t <> None /\ url s = None /\ 0 < n
  end.
Proof.
  unfold testOutboud, bind. destruct (obm s) as [ m | ].
  - destruct (m t) as [ oh | ].
    + pose proof (trial_scores_panics s net oh n) as Hscores.
      destruct (trial_scores s net oh n) as [ scores | msg ].
      * split; [ intros [msg Hm]; discriminate | ].
        intros (_ & Hu). apply Hscores in Hu. destruct Hu as [msg Hm]. discriminate.
      * split; [ intros _ | intros _; eexists; reflexivity ].
        split; [ discriminate | ]. apply Hscores. eexists. reflexivity.
    + split; [ intros [msg Hm]; discriminate | intros (Hne & _); contradiction ].
  - split; [ auto | intros _; eexists; reflexivity ].
Qed.

Lemma probe_all_panics (s : OptimalStrategy) (net : Network) :
  (exists msg, probe_all s net = Panicked msg) <->
  tags s <> [] /\
  match obm s with
  | None => True
  | Some m => url s = None /\ 0 < count s /\ exists t, In t (tags s) /\ m t <> None
  end.
Proof.
  unfold probe_all. split.
  - intros [msg Hm]. apply mapM_Panicked in Hm. destruct Hm as (t & Hin & Ht).
    split; [ intros Hnil; rewrite Hnil in Hin; contradiction | ].
    assert (Hp : exists msg, testOutboud s net t {| r_tag := t; r_score := 0 |} (count s)
                             = Panicked msg) by (eexists; exact Ht).
    apply testOutboud_panics in Hp. destruct (obm s) as [ m | ]; [ | exact I ].
    destruct Hp as (Hne & Hu & Hn). repeat split; try assumption.
    exists t. split; assumption.
  - intros [Hne Hcase].
    assert (Hsome : exists t, In t (tags s) /\
              exists msg, testOutboud s net t {| r_tag := t; r_score := 0 |} (count s)
                          = Panicked msg).
    { destruct (obm s) as [ m | ] eqn:Hobm.
      - destruct Hcase as (Hu & Hn & t & Hin & Ht). exists t. split; [ exact Hin | ].
        apply testOutboud_panics. rewrite Hobm. repeat split; assumption.
      - destruct (tags s) as [ | t ts ]; [ contradiction | ].
        exists t. split; [ left; reflexivity | ].
        apply testOutboud_panics. rewrite Hobm. exact I. }
    destruct Hsome as (t & Hin & msg & Ht).
    apply (mapM_first_panic _ _ t msg Hin Ht).
Qed.

Section RoundFrame.

Variable sort_Slice :
  (optimalStrategyTestResult -> optimalStrategyTestResult -> bool) ->
  list optimalStrategyTestResult -> list optimalStrategyTestResult.

Hypothesis sort_Slice_permutes : forall less l, Permutation (sort_Slice less l) l.

(** X3. A round that returns, returns the nil error and writes only s.tag;
    the tag it publishes is one of the candidates stored in the strategy,
    whatever the scores are, NaN included; and it is what the calls of
    PickOutbound return afterwards, for any candidates (one at least),
    which need not contain it. *)
Theorem round_winner_is_what_PickOutbound_returns (s : OptimalStrategy) (net : Network)
    (e : option string) (s' : OptimalStrategy) :
  run sort_Slice s net = Returned (e, s') ->
  e = None /\
  s' = with_tag s (tag s') /\
  In (tag s') (tags s) /\
  (forall p m ts,
     periodic s = Some p -> ts <> [] ->
     exists s'',
       PickOutbound s' m ts = Returned (tag s', s'', []) /\
       tag s'' = tag s' /\ periodic s'' = Some p).
Proof.
  unfold run, bind. destruct (probe_all s net) as [ results | msg ] eqn:Hall; [ | discriminate ].
  pose proof (sort_Slice_permutes by_score_desc results) as Hperm.
  destruct (sort_Slice by_score_desc results) as [ | r0 rest ]; [ discriminate | ].
  cbn. intros Hrun. injection Hrun as <- <-. cbn [tag with_tag].
  split; [ reflexivity | ]. split; [ reflexivity | ]. split.
  - rewrite <- (probe_all_tags s net results Hall). apply in_map.
    apply (Permutation_in _ Hperm). left. reflexivity.
  - intros p m ts Hp Hne.
    destruct (PickOutbound_started (with_tag s (r_tag r0)) m ts p Hp Hne)
      as (s2 & Hpick & Htag & Hp2 & _).
    exists s2. repeat split; assumption.
Qed.

(** X4. A round panics exactly when the strategy holds no candidates
    (results[0] is out of range), or holds no manager, or has a nil probe
    URL while the trial count is positive and the manager knows one of the
    candidates. *)
Theorem run_panics_iff (s : OptimalStrategy) (net : Network) :
  (exists msg, run sort_Slice s net = Panicked msg) <->
  tags s = [] \/
  obm s = None \/
  (url s = None /\ 0 < count s /\
   exists m t, obm s = Some m /\ In t (tags s) /\ m t <> None).
Proof.
  pose proof (probe_all_panics s net) as Hall.
  unfold run, bind. destruct (probe_all s net) as [ results | msg ] eqn:Hprobe.
  - pose proof (probe_all_tags s net results Hprobe) as Htags.
    pose proof (sort_Slice_permutes by_score_desc results) as Hperm.
    assert (Hnot : ~ (tags s <> [] /\
                      match obm s with
                      | None => True
                      | Some m => url s = None /\ 0 < count s /\
                                  exists t, In t (tags s) /\ m t <> None
                      end)).
    { intros Hcase. apply Hall in Hcase. destruct Hcase as [msg Hm]. discriminate. }
    destruct (sort_Slice by_score_desc results) as [ | r0 rest ].
    + apply Permutation_nil in Hperm. subst results.
      cbn. split; [ intros _; left; symmetry; exact Htags | intros _; eexists; reflexivity ].
    + cbn. split; [ intros [msg Hm]; discriminate | ].
      assert (Hne : tags s <> []).
      { rewrite <- Htags. intros Hnil. apply map_eq_nil in Hnil. subst results.
        apply Permutation_sym, Permutation_nil in Hperm. discriminate. }
      intros [Hnil | [Hobm | (Hu & Hn & m & t & Hobm & Hin & Ht)]].
      * contradiction.
      * exfalso. apply Hnot. split; [ exact Hne | rewrite Hobm; exact I ].
      * exfalso. apply Hnot. split; [ exact Hne | ]. rewrite Hobm.
        repeat split; try assumption. exists t. split; assumption.
  - split; [ | intros _; eexists; reflexivity ].
    intros _. destruct Hall as [Hcase _]. destruct Hcase as [Hne Hcase]; [ eexists; reflexivity | ].
    right. destruct (obm s) as [ m | ]; [ right | left; reflexivity ].
    destruct Hcase as (Hu & Hn & t & Hin & Ht). repeat split; try assumption.
    exists m, t. repeat split; assumption.
Qed.

End RoundFrame.

Lemma round_winner_witness :
  @None string = None /\
  with_tag three_strategy "a" = with_tag three_strategy (tag (with_tag three_strategy "a")) /\
  In (tag (with_tag three_strategy "a")) (tags three_strategy) /\
  (forall p m ts,
     periodic three_strategy = Some p -> ts <> [] ->
     exists s'',
       PickOutbound (with_tag three_strategy "a") m ts
       = Returned (tag (with_tag three_strategy "a"), s'', []) /\
       tag s'' = tag (with_tag three_strategy "a") /\ periodic s'' = Some p).
Proof.
  apply (round_winner_is_what_PickOutbound_returns
           (@shortSort optimalStrategyTestResult)
           (fun less l => shortSort_Permutation less l)
           three_strategy instant_network None (with_tag three_strategy "a")).
  vm_compute. reflexivity.
Defined.

Lemma run_panics_iff_witness :
  (exists msg, run (@shortSort optimalStrategyTestResult) fresh_strategy dead_network
               = Panicked msg) <->
  tags fresh_strategy = [] \/
  obm fresh_strategy = None \/
  (url fresh_strategy = None /\ 0 < count fresh_strategy /\
   exists m t, obm fresh_strategy = Some m /\ In t (tags fresh_strategy) /\ m t <> None).
Proof.
  apply (run_panics_iff (@shortSort optimalStrategyTestResult)
           (fun less l => shortSort_Permutation less l) fresh_strategy dead_network).
Defined.

(** ** How a response body is counted *)

Lemma Byte_eqb_newline (b : Byte.byte) : b <> newline -> Byte.eqb b newline = false.
Proof.
  intros Hb. destruct (Byte.eqb b newline) eqn:Heq; [ | reflexivity ].
  apply Byte.byte_dec_bl in Heq. contradiction.
Qed.

Lemma scanLines_from_line (line cur rest : list Byte.byte) (n : Z) :
  ~ In newline line ->
  n + Z.of_nat (List.length line) < MaxScanTokenSize ->
  scanLines_from cur n (line ++ newline :: rest)
  = dropCR (rev cur ++ line) :: scanLines rest.
Proof.
  revert cur n. induction line as [ | b line IH ]; intros cur n Hline Hlen.
  - cbn [app scanLines_from]. rewrite app_nil_r. reflexivity.
  - cbn [app scanLines_from].
    rewrite Byte_eqb_newline by (intros ->; apply Hline; left; reflexivity).
    cbn [List.length] in Hlen.
    replace (n + 1 <? MaxScanTokenSize) with true by (symmetry; apply Z.ltb_lt; lia).
    rewrite IH; [ | intros Hin; apply Hline; right; exact Hin | lia ].
    cbn [rev]. rewrite <- app_assoc. reflexivity.
Qed.

Lemma scanLines_from_last (line cur : list Byte.byte) (n : Z) :
  ~ In newline line ->
  n + Z.of_nat (List.length line) < MaxScanTokenSize ->
  scanLines_from cur n line
  = match rev cur ++ line with
    | [] => []
    | _ => [dropCR (rev cur ++ line)]
    end.
Proof.
  revert cur n. induction line as [ | b line IH ]; intros cur n Hline Hlen.
  - cbn [scanLines_from]. rewrite app_nil_r. destruct cur as [ | c cur ]; [ reflexivity | ].
    destruct (rev (c :: cur)) eqn:Hrev; [ | reflexivity ].
    apply (f_equal (@List.length _)) in Hrev. rewrite length_rev in Hrev. discriminate.
  - cbn [scanLines_from].
    rewrite Byte_eqb_newline by (intros ->; apply Hline; left; reflexivity).
    cbn [List.length] in Hlen.
    replace (n + 1 <? MaxScanTokenSize) with true by (symmetry; apply Z.ltb_lt; lia).
    rewrite IH; [ | intros Hin; apply Hline; right; exact Hin | lia ].
    cbn [rev]. rewrite <- app_assoc. reflexivity.
Qed.


Lemma dropCR_keeps (line : list Byte.byte) :
  (forall front, line <> front ++ [carriage_return]) -> dropCR line = line.
Proof.
  intros Hlast. unfold dropCR. destruct (rev line) as [ | c front ] eqn:Hrev; [ reflexivity | ].
  destruct (Byte.eqb c carriage_return) eqn:Hc; [ | reflexivity ].
  apply Byte.byte_dec_bl in Hc. subst c. exfalso. apply (Hlast (rev front)).
  rewrite <- (rev_involutive line), Hrev. reflexivity.
Qed.

Lemma dropCR_drops (front : list Byte.byte) :
  dropCR (front ++ [carriage_return]) = front.
Proof.
  unfold dropCR. rewrite rev_app_distr. cbn. apply rev_involutive.
Qed.

(** X5. The scanner of a probe splits the body at its newlines: a line of
    fewer than 65536 bytes that a newline ends is one token, without the
    newline and without one carriage return before it, and the scan goes on
    behind the newline; the bytes behind the last newline are a token of
    their own unless there are none. *)
Theorem scanLines_line_by_line (line rest : list Byte.byte) :
  ~ In newline line ->
  Z.of_nat (List.length line) < MaxScanTokenSize ->
  scanLines (line ++ newline :: rest) = dropCR line :: scanLines rest /\
  (forall front, line = front ++ [carriage_return] ->
     scanLines (line ++ newline :: rest) = front :: scanLines rest) /\
  scanLines line = match line with [] => [] | _ => [dropCR line] end.
Proof.
  intros Hline Hlen.
  assert (Hfirst : scanLines (line ++ newline :: rest) = dropCR line :: scanLines rest).
  { apply (scanLines_from_line line [] rest 0 Hline). lia. }
  split; [ exact Hfirst | split ].
  - intros front ->. rewrite Hfirst, dropCR_drops. reflexivity.
  - apply (scanLines_from_last line [] 0 Hline). lia.
Qed.

Lemma scanLines_line_by_line_witness :
  scanLines ([Byte.x61; carriage_return] ++ newline :: [Byte.x62])
  = dropCR [Byte.x61; carriage_return] :: scanLines [Byte.x62] /\
  (forall front, [Byte.x61; carriage_return] = front ++ [carriage_return] ->
     scanLines ([Byte.x61; carriage_return] ++ newline :: [Byte.x62])
     = front :: scanLines [Byte.x62]) /\
  scanLines [Byte.x61; carriage_return]
  = match [Byte.x61; carriage_return] with
    | [] => []
    | _ => [dropCR [Byte.x61; carriage_return]]
    end.
Proof.
  apply (scanLines_line_by_line [Byte.x61; carriage_return] [Byte.x62]).
  - intros [Hin | [Hin | []]]; discriminate.
  - unfold MaxScanTokenSize. cbn. lia.
Defined.

Lemma contentSize_of_one (token : list Byte.byte) :
  Z.of_nat (List.length token) <= MaxInt64 ->
  contentSize_of [token] = Z.of_nat (List.length token).
Proof.
  intros Hlen. unfold contentSize_of. cbn [fold_left].
  apply wrap_int64_small. unfold MinInt64, MaxInt64 in *. lia.
Qed.

(** X6. A response body that is one line, with no newline in it and no
    carriage return at its end, not empty and shorter than 65536 bytes, is
    counted in full: the probe scores the length of the body divided by the
    elapsed seconds. *)
Theorem probe_trial_counts_one_line (p : Probe) (body : list Byte.byte) :
  response p = Some body ->
  body <> [] ->
  ~ In newline body ->
  (forall front, body <> front ++ [carriage_return]) ->
  Z.of_nat (List.length body) < MaxScanTokenSize ->
  fst (probe_trial p)
  = (float64_of_Z (Z.of_nat (List.length body)) / elapsed_seconds p)%float.
Proof.
  intros Hresp Hne Hline Hlast Hlen.
  unfold probe_trial. rewrite Hresp. unfold scanLines.
  rewrite (scanLines_from_last body [] 0 Hline) by lia. cbn [rev app].
  destruct body as [ | b body' ] eqn:Hbody; [ contradiction | ]. rewrite <- Hbody in *.
  rewrite (dropCR_keeps body Hlast).
  rewrite contentSize_of_one by (unfold MaxScanTokenSize, MaxInt64 in *; lia).
  replace (Z.of_nat (List.length body) =? 0) with false; [ reflexivity | ].
  symmetry. apply Z.eqb_neq. subst body. cbn [List.length]. lia.
Qed.

Lemma probe_trial_counts_one_line_witness :
  fst (probe_trial (tie_network 1%nat 0%nat))
  = (float64_of_Z (Z.of_nat (List.length [Byte.x78; Byte.x79]))
     / elapsed_seconds (tie_network 1%nat 0%nat))%float.
Proof.
  apply (probe_trial_counts_one_line (tie_network 1%nat 0%nat) [Byte.x78; Byte.x79]).
  - reflexivity.
  - discriminate.
  - intros [Hin | [Hin | []]]; discriminate.
  - intros front Hlast. apply (f_equal (@rev Byte.byte)) in Hlast.
    rewrite rev_app_distr in Hlast. discriminate.
  - unfold MaxScanTokenSize. cbn. lia.
Defined.



(** ** The sign of a score *)

(** *** float64 of an integer *)

Lemma Prim2SF_float64_of_Z (z : Z) :
  0 <= z <= MaxInt64 ->
  Prim2SF (float64_of_Z z) = binary_normalize prec emax z 0 false.
Proof.
  intros Hz. unfold float64_of_Z.
  assert (Hint : Uint63Axioms.to_Z (Uint63Axioms.of_Z z) = z).
  { rewrite Uint63.of_Z_spec. apply Z.mod_small.
    unfold MaxInt64 in Hz. change Uint63Axioms.wB with 9223372036854775808. lia. }
  rewrite <- Hint at 1. rewrite <- of_uint63_spec, SF2Prim_Prim2SF, of_uint63_spec, Hint.
  reflexivity.
Qed.

Lemma digits2_pos_size (p : positive) : digits2_pos p = Pos.size p.
Proof. induction p as [ p IH | p IH | ]; cbn; congruence. Qed.

Lemma Zdigits2_bounds (p : positive) :
  Z.pos p < 2 ^ Zdigits2 (Z.pos p) /\ 2 ^ Zdigits2 (Z.pos p) <= 2 * Z.pos p.
Proof.
  cbn [Zdigits2]. rewrite digits2_pos_size.
  pose proof (Pos.size_gt p) as Hgt. pose proof (Pos.size_le p) as Hle.
  rewrite <- Pos2Z.inj_pow. split; [ apply Pos2Z.pos_lt_pos; exact Hgt | ].
  change (2 * Z.pos p) with (Z.pos p~0). apply Pos2Z.pos_le_pos. exact Hle.
Qed.

Lemma Zdigits2_pos (m : Z) : 0 < m -> 0 < Zdigits2 m.
Proof. destruct m; cbn; lia. Qed.

Lemma Zdigits2_mono (a b : Z) : 0 < a <= b -> Zdigits2 a <= Zdigits2 b.
Proof.
  intros Hab. destruct a as [ | a | a ]; try lia. destruct b as [ | b | b ]; try lia.
  destruct (Zdigits2_bounds a) as [_ Ha]. destruct (Zdigits2_bounds b) as [Hb _].
  assert (Hpow : 2 ^ Zdigits2 (Z.pos a) < 2 ^ (Zdigits2 (Z.pos b) + 1)).
  { rewrite Z.pow_add_r by (cbn; lia). lia. }
  apply Z.pow_lt_mono_r_iff in Hpow; [ lia | lia | cbn; lia ].
Qed.

Lemma Zdigits2_below (m k : Z) : 0 < m < 2 ^ k -> 0 <= k -> Zdigits2 m <= k.
Proof.
  intros Hm Hk. destruct m as [ | p | p ]; try lia.
  destruct (Zdigits2_bounds p) as [_ Hp].
  assert (Hpow : 2 ^ Zdigits2 (Z.pos p) < 2 ^ (k + 1)).
  { rewrite Z.pow_add_r by lia. lia. }
  apply Z.pow_lt_mono_r_iff in Hpow; lia.
Qed.

Lemma shr_1_half (mrs : shr_record) :
  0 <= shr_m mrs -> shr_m (shr_1 mrs) = shr_m mrs / 2.
Proof.
  destruct mrs as [m r s]. cbn [shr_m]. intros Hm.
  destruct m as [ | [ p | p | ] | p ]; cbn [shr_1 shr_m]; try reflexivity; try lia.
  - rewrite Pos2Z.inj_xI. apply Z.div_unique with 1; lia.
  - rewrite Pos2Z.inj_xO. apply Z.div_unique with 0; lia.
Qed.

Lemma iter_shr_1 (k : positive) (mrs : shr_record) :
  0 <= shr_m mrs ->
  shr_m (SpecFloat.iter_pos shr_1 k mrs) = shr_m mrs / 2 ^ Z.pos k.
Proof.
  revert mrs. induction k as [ k IH | k IH | ]; intros mrs Hm; cbn [SpecFloat.iter_pos].
  - assert (H1 : 0 <= shr_m (shr_1 mrs)) by (apply shr_1_nonneg; exact Hm).
    assert (H2 : 0 <= shr_m (SpecFloat.iter_pos shr_1 k (shr_1 mrs))).
    { apply iter_pos_keeps; auto using shr_1_nonneg. }
    rewrite IH, IH, shr_1_half by assumption.
    rewrite !Z.div_div by lia. f_equal.
    rewrite Pos2Z.inj_xI, <- !Z.pow_add_r, <- Z.pow_succ_r by lia. f_equal. lia.
  - assert (H2 : 0 <= shr_m (SpecFloat.iter_pos shr_1 k mrs)).
    { apply iter_pos_keeps; auto using shr_1_nonneg. }
    rewrite IH, IH by assumption.
    rewrite !Z.div_div by lia. f_equal.
    rewrite Pos2Z.inj_xO, <- !Z.pow_add_r by lia. f_equal. lia.
  - rewrite shr_1_half by exact Hm. reflexivity.
Qed.

Lemma Zdigits2_div (m k : Z) :
  0 < m -> 0 <= k < Zdigits2 m -> 0 < m / 2 ^ k /\ Zdigits2 (m / 2 ^ k) <= Zdigits2 m - k.
Proof.
  intros Hm Hk. destruct m as [ | p | p ]; try lia.
  destruct (Zdigits2_bounds p) as [Hhi Hlo].
  assert (Hpow : 0 < 2 ^ k) by (apply Z.pow_pos_nonneg; lia).
  assert (Hle : 2 ^ k <= Z.pos p).
  { assert (H1 : 2 ^ (k + 1) <= 2 ^ Zdigits2 (Z.pos p)) by (apply Z.pow_le_mono_r; lia).
    rewrite Z.pow_add_r in H1 by lia. lia. }
  assert (Hq : 0 < Z.pos p / 2 ^ k) by (apply Z.div_str_pos; lia).
  split; [ exact Hq | ].
  apply Zdigits2_below; [ | lia ]. split; [ exact Hq | ].
  apply Z.div_lt_upper_bound; [ exact Hpow | ].
  rewrite <- Z.pow_add_r by lia. replace (k + (Zdigits2 (Z.pos p) - k)) with (Zdigits2 (Z.pos p)) by lia.
  exact Hhi.
Qed.

(** One shift of the rounding: the mantissa keeps at most 53 digits and
    stays positive, when the number is in the normal range. *)
Lemma shr_fexp_digits (m e : Z) (l : location) :
  0 < m -> -1000 <= e ->
  let r := shr_fexp prec emax m e l in
  0 < shr_m (fst r) <= m /\
  Zdigits2 (shr_m (fst r)) <= Z.max 53 (Zdigits2 m - (snd r - e)) /\
  (snd r = e /\ shr_m (fst r) = m /\ Zdigits2 m <= 53 \/
   snd r = Zdigits2 m + e - 53 /\ 0 < snd r - e /\ Zdigits2 (shr_m (fst r)) <= 53).
Proof.
  intros Hm He. unfold shr_fexp, shr, fexp, emin.
  change prec with 53. change emax with 1024.
  assert (Hrec : shr_m (shr_record_of_loc m l) = m).
  { destruct l as [ | [ | | ] ]; reflexivity. }
  pose proof (Zdigits2_pos m Hm) as Hd.
  destruct (Z.max (Zdigits2 m + e - 53) (3 - 1024 - 53) - e) as [ | k | k ] eqn:Hk;
    cbn [fst snd]; rewrite ?Hrec.
  - split; [ lia | ]. split; [ lia | ]. left. repeat split. lia.
  - rewrite iter_shr_1 by (rewrite Hrec; lia). rewrite Hrec.
    assert (Hkd : Z.pos k = Zdigits2 m - 53) by lia.
    destruct (Zdigits2_div m (Z.pos k) Hm) as [Hq Hdq]; [ lia | ].
    assert (Hpow : 0 < 2 ^ Z.pos k) by (apply Z.pow_pos_nonneg; lia).
    split; [ split; [ exact Hq | ] | ].
    + apply Z.div_le_upper_bound; [ exact Hpow | nia ].
    + split; [ lia | ]. right. repeat split; lia.
  - split; [ lia | ]. split; [ lia | ]. left. repeat split. lia.
Qed.

Lemma round_within (m e : Z) (l : location) :
  0 < m -> -1000 <= e <= 900 -> Zdigits2 m + e <= 1000 ->
  SF_within e (Z.max e (Zdigits2 m + e - 53) + 1)
    (binary_round_aux prec emax false m e l).
Proof.
  intros Hm He Hd. unfold binary_round_aux.
  pose proof (shr_fexp_digits m e l Hm (proj1 He)) as H1. cbv zeta in H1.
  destruct (shr_fexp prec emax m e l) as [mrs1 e1]. cbn [fst snd] in H1.
  destruct H1 as (Hm1 & _ & Hcase1).
  set (m2 := round_nearest_even (shr_m mrs1) (loc_of_shr_record mrs1)).
  assert (Hm2 : 0 < m2 <= shr_m mrs1 + 1).
  { subst m2. destruct (loc_of_shr_record mrs1) as [ | [ | | ] ]; cbn [round_nearest_even];
      try lia. destruct (Z.even (shr_m mrs1)); lia. }
  assert (Hd1 : Zdigits2 (shr_m mrs1) <= 53 /\ e <= e1 <= Z.max e (Zdigits2 m + e - 53)).
  { destruct Hcase1 as [(-> & -> & Hd53) | (-> & Hk & Hd53)]; lia. }
  assert (Hd2 : Zdigits2 m2 <= 54).
  { apply Zdigits2_below; [ | lia ]. split; [ lia | ].
    destruct (shr_m mrs1) as [ | p1 | p1 ] eqn:Hp1; try lia.
    destruct (Zdigits2_bounds p1) as [Hp _].
    assert (Hlt : Z.pos p1 < 2 ^ 53).
    { apply (Z.lt_le_trans _ _ _ Hp). apply Z.pow_le_mono_r; lia. }
    change (2 ^ 54) with (2 * 2 ^ 53). lia. }
  pose proof (shr_fexp_digits m2 e1 loc_Exact (proj1 Hm2)) as H2. cbv zeta in H2.
  destruct (shr_fexp prec emax m2 e1 loc_Exact) as [mrs2 e2]. cbn [fst snd] in H2.
  destruct H2 as (Hm3 & _ & Hcase2); [ lia | ].
  assert (Hfin : Zdigits2 (shr_m mrs2) <= 53 /\ e1 <= e2 <= e1 + 1).
  { destruct Hcase2 as [(-> & -> & Hd53) | (-> & Hk & Hd53)]; lia. }
  destruct (shr_m mrs2) as [ | m3 | m3 ]; try lia.
  replace (e2 <=? emax - prec) with true
    by (symmetry; apply Z.leb_le; change (emax - prec) with 971; lia).
  exists m3, e2. repeat split; lia.
Qed.

Lemma shl_align_value (p : positive) (e e' : Z) :
  let r := shl_align p e e' in
  Z.pos (fst r) = Z.pos p * 2 ^ (e - snd r) /\ (snd r = e \/ snd r = e' /\ e' < e).
Proof.
  unfold shl_align. destruct (e' - e) as [ | k | k ] eqn:Hk; cbn [fst snd].
  - rewrite Z.sub_diag. split; [ lia | left; reflexivity ].
  - rewrite Z.sub_diag. split; [ lia | left; reflexivity ].
  - change (Pos.iter xO p k) with (Zpower.shift_pos k p).
    rewrite Zpower.shift_pos_correct, Z.pow_pos_fold.
    replace (e - e') with (Z.pos k) by lia. split; [ lia | right; lia ].
Qed.

Lemma Zdigits2_shift (m k : Z) :
  0 < m -> 0 <= k -> Zdigits2 (m * 2 ^ k) <= Zdigits2 m + k.
Proof.
  intros Hm Hk. destruct m as [ | p | p ]; try lia.
  destruct (Zdigits2_bounds p) as [Hp _].
  assert (Hpow : 0 < 2 ^ k) by (apply Z.pow_pos_nonneg; lia).
  pose proof (Zdigits2_pos (Z.pos p) (Pos2Z.is_pos p)) as Hd.
  apply Zdigits2_below; [ | lia ]. split; [ lia | ].
  rewrite Z.pow_add_r by lia. apply Z.mul_lt_mono_pos_r; assumption.
Qed.

Lemma float64_of_Z_within (z : Z) :
  0 < z <= MaxInt64 -> SF_within (-52) 12 (Prim2SF (float64_of_Z z)).
Proof.
  intros Hz. rewrite Prim2SF_float64_of_Z by lia.
  destruct z as [ | p | p ]; try lia. cbn [binary_normalize]. unfold binary_round.
  assert (Hd : Zdigits2 (Z.pos p) <= 63).
  { apply Zdigits2_below; [ | lia ]. unfold MaxInt64 in Hz.
    change (2 ^ 63) with 9223372036854775808. lia. }
  pose proof (Zdigits2_pos (Z.pos p) (Pos2Z.is_pos p)) as Hd0.
  assert (Hf : fexp prec emax (Z.pos (digits2_pos p) + 0) = Zdigits2 (Z.pos p) - 53).
  { unfold fexp, emin. change prec with 53. change emax with 1024.
    cbn [Zdigits2] in *. lia. }
  pose proof (shl_align_value p 0 (fexp prec emax (Z.pos (digits2_pos p) + 0))) as Hal.
  cbv zeta in Hal. destruct (shl_align p 0 _) as [mz ez]. cbn [fst snd] in Hal.
  destruct Hal as [Hmz Hez]. rewrite Hf in Hez.
  assert (Hez' : -52 <= ez <= 0) by lia.
  assert (Hdz : Zdigits2 (Z.pos mz) <= Zdigits2 (Z.pos p) - ez).
  { rewrite Hmz. apply Zdigits2_shift; lia. }
  pose proof (round_within (Z.pos mz) ez loc_Exact (Pos2Z.is_pos mz)) as Hround.
  destruct Hround as (m & e & Hres & Hdm & He); [ lia | lia | ].
  exists m, e. split; [ exact Hres | ]. split; [ exact Hdm | ]. lia.
Qed.

Lemma float64_of_Z_pos (z : Z) :
  0 < z <= MaxInt64 ->
  exists m e, Prim2SF (float64_of_Z z) = S754_finite false m e.
Proof.
  intros Hz. destruct (float64_of_Z_within z Hz) as (m & e & Hres & _).
  exists m, e. exact Hres.
Qed.

(** *** The sign of a probe's score *)

Lemma SF_plus_leb (x : float) : SF_plus (Prim2SF x) -> PrimFloat.leb 0 x = true.
Proof.
  intros Hx. apply leb_zero_nonneg. destruct (Prim2SF x); cbn in *; auto.
Qed.

Lemma SF_plus_not_nan (x : float) : SF_plus (Prim2SF x) -> is_nan x = false.
Proof.
  intros Hx. unfold is_nan. rewrite FloatAxioms.eqb_spec.
  destruct (Prim2SF x) as [ s | s | | s m e ]; cbn in *; try contradiction;
    try reflexivity.
  - destruct s; reflexivity.
  - unfold SFeqb. cbn. rewrite Z.compare_refl, Pos.compare_cont_refl.
    destruct s; reflexivity.
Qed.

Lemma binary_round_aux_plus (m e : Z) (l : location) :
  0 <= m -> SF_plus (binary_round_aux prec emax false m e l).
Proof.
  intros Hm. unfold binary_round_aux.
  pose proof (shr_fexp_nonneg m e l Hm) as H1.
  destruct (shr_fexp prec emax m e l) as [mrs1 e1]. cbn [fst] in H1.
  pose proof (shr_fexp_nonneg _ e1 loc_Exact
                (round_nearest_even_nonneg _ (loc_of_shr_record mrs1) H1)) as H2.
  destruct (shr_fexp prec emax _ e1 loc_Exact) as [mrs2 e2]. cbn [fst] in H2.
  destruct (shr_m mrs2) as [ | p | p ]; [ reflexivity | | lia ].
  destruct (e2 <=? emax - prec); reflexivity.
Qed.

Lemma SFdiv_finite_plus (sx : bool) (mx my : positive) (ex ey : Z) :
  sx = false ->
  SF_plus (SF64div (S754_finite sx mx ex) (S754_finite false my ey)).
Proof.
  intros ->. unfold SF64div. cbn [SFdiv xorb]. unfold SFdiv_core_binary.
  set (s := ex - ey - _).
  set (m' := match s with Z0 => Z.pos mx | Z.pos _ => Z.shiftl (Z.pos mx) s | Z.neg _ => 0 end).
  assert (Hm' : 0 <= m').
  { subst m'. destruct s; try lia. apply Z.shiftl_nonneg. lia. }
  pose proof (Z.div_pos m' (Z.pos my) Hm' (Pos2Z.is_pos my)) as Hq.
  unfold Z.div in Hq. destruct (Z.div_eucl m' (Z.pos my)) as [q r].
  apply binary_round_aux_plus. exact Hq.
Qed.

(** A positive number divided by plus zero, by a positive number or by plus
    infinity. *)
Lemma SFdiv_pos_plus (mx : positive) (ex : Z) (y : spec_float) :
  SF_plus y -> SF_plus (SF64div (S754_finite false mx ex) y).
Proof.
  destruct y as [ sy | sy | | sy my ey ]; cbn [SF_plus]; intros Hy; subst;
    try contradiction; try reflexivity.
  apply SFdiv_finite_plus. reflexivity.
Qed.

Lemma elapsed_seconds_plus (p : Probe) :
  0 <= finishAt p - startAt p <= MaxInt64 ->
  SF_plus (Prim2SF (elapsed_seconds p)) /\
  (finishAt p = startAt p -> Prim2SF (elapsed_seconds p) = S754_zero false).
Proof.
  intros Hdt. unfold elapsed_seconds.
  rewrite wrap_int64_small by (unfold MinInt64, MaxInt64 in *; lia).
  rewrite div_spec.
  destruct (float64_of_Z_pos Second) as (mS & eS & ->);
    [ unfold Second, MaxInt64; lia | ].
  destruct (Z.eq_dec (finishAt p - startAt p) 0) as [Hzero | Hpos].
  - rewrite Hzero. rewrite Prim2SF_float64_of_Z by (unfold MaxInt64; lia).
    split; reflexivity.
  - destruct (float64_of_Z_pos (finishAt p - startAt p)) as (m & e & ->); [ lia | ].
    split; [ apply SFdiv_finite_plus; reflexivity | lia ].
Qed.

Lemma probe_trial_score_cases (p : Probe) :
  (forall body, response p = Some body -> Z.of_nat (List.length body) <= MaxInt64) ->
  fst (probe_trial p) = 0%float /\ response p = None \/
  exists (c : float) (m : positive) (e : Z),
    fst (probe_trial p) = (c / elapsed_seconds p)%float /\
    Prim2SF c = S754_finite false m e /\ response p <> None.
Proof.
  intros Hbody. unfold probe_trial.
  destruct (response p) as [ body | ] eqn:Hresp; [ right | left; split; reflexivity ].
  pose proof (Hbody body eq_refl) as Hlen.
  destruct (contentSize_of_scanLines body Hlen) as [Hsize Hle].
  destruct (Z.eqb_spec (contentSize_of (scanLines body)) 0) as [Hzero | Hpos]; cbn [negb fst].
  - exists 100%float, 7036874417766400%positive, (-46). repeat split. discriminate.
  - destruct (float64_of_Z_pos (contentSize_of (scanLines body))) as (m & e & Hc); [ lia | ].
    exists (float64_of_Z (contentSize_of (scanLines body))), m, e.
    repeat split; [ exact Hc | discriminate ].
Qed.

Lemma probe_trial_score_plus (p : Probe) :
  0 <= finishAt p - startAt p <= MaxInt64 ->
  (forall body, response p = Some body -> Z.of_nat (List.length body) <= MaxInt64) ->
  (response p = None \/ SF_plus (Prim2SF (fst (probe_trial p)))) /\
  PrimFloat.leb 0 (fst (probe_trial p)) = true /\
  (finishAt p = startAt p -> response p <> None -> fst (probe_trial p) = infinity).
Proof.
  intros Hdt Hbody.
  destruct (elapsed_seconds_plus p Hdt) as [Hplus Hzero].
  destruct (probe_trial_score_cases p Hbody) as [[-> Hnone] | (c & m & e & -> & Hc & Hsome)].
  - split; [ left; exact Hnone | ]. split; [ reflexivity | ].
    intros _ Hne. contradiction.
  - assert (Hscore : SF_plus (Prim2SF (c / elapsed_seconds p))).
    { rewrite div_spec, Hc. apply SFdiv_pos_plus. exact Hplus. }
    split; [ right; exact Hscore | ]. split; [ apply SF_plus_leb; exact Hscore | ].
    intros Hsame _. apply Prim2SF_inj. rewrite div_spec, Hc, (Hzero Hsame). reflexivity.
Qed.

(** *** The size of a score *)

Lemma SFdiv_within (x y : spec_float) (a1 b1 a2 b2 : Z) :
  SF_within a1 b1 x -> SF_within a2 b2 y ->
  -300 <= a1 -> b1 <= 300 -> -300 <= a2 -> b2 <= 300 ->
  SF_within (a1 - b2 - 106) (b1 - a2 + 54) (SF64div x y).
Proof.
  intros (mx & ex & -> & Hdx & Hex) (my & ey & -> & Hdy & Hey) Ha1 Hb1 Ha2 Hb2.
  unfold SF64div. cbn [SFdiv xorb]. unfold SFdiv_core_binary.
  pose proof (Zdigits2_pos (Z.pos mx) (Pos2Z.is_pos mx)) as Hdx0.
  pose proof (Zdigits2_pos (Z.pos my) (Pos2Z.is_pos my)) as Hdy0.
  set (d1 := Zdigits2 (Z.pos mx)) in *. set (d2 := Zdigits2 (Z.pos my)) in *.
  assert (He' : Z.min (fexp prec emax (d1 + ex - (d2 + ey))) (ex - ey)
                = d1 + ex - (d2 + ey) - 53).
  { unfold fexp, emin. change prec with 53. change emax with 1024. lia. }
  rewrite He'.
  replace (ex - ey - (d1 + ex - (d2 + ey) - 53)) with (53 + d2 - d1) by lia.
  destruct (53 + d2 - d1) as [ | s | s ] eqn:Hs; try lia.
  rewrite Z.shiftl_mul_pow2 by lia.
  assert (Hpow : 0 < 2 ^ Z.pos s) by (apply Z.pow_pos_nonneg; lia).
  destruct (Zdigits2_bounds mx) as [Hmx_hi Hmx_lo]. fold d1 in Hmx_hi, Hmx_lo.
  destruct (Zdigits2_bounds my) as [Hmy_hi _]. fold d2 in Hmy_hi.
  assert (Hbig : Z.pos my <= Z.pos mx * 2 ^ Z.pos s).
  { assert (H1 : 2 ^ (d2 + 1) <= 2 ^ (d1 + Z.pos s)) by (apply Z.pow_le_mono_r; lia).
    rewrite !Z.pow_add_r in H1 by lia. change (2 ^ 1) with 2 in H1. nia. }
  pose proof (Z.div_str_pos _ _ (conj (Pos2Z.is_pos my) Hbig)) as Hq.
  assert (Hqle : Z.pos mx * 2 ^ Z.pos s / Z.pos my <= Z.pos mx * 2 ^ Z.pos s).
  { apply Z.div_le_upper_bound; [ lia | nia ]. }
  assert (Hdq : Zdigits2 (Z.pos mx * 2 ^ Z.pos s / Z.pos my) <= d1 + Z.pos s).
  { apply (Z.le_trans _ (Zdigits2 (Z.pos mx * 2 ^ Z.pos s))).
    - apply Zdigits2_mono. lia.
    - apply Zdigits2_shift; lia. }
  unfold Z.div in Hq, Hqle, Hdq.
  destruct (Z.div_eucl (Z.pos mx * 2 ^ Z.pos s) (Z.pos my)) as [q r]. cbn [fst] in *.
  destruct (round_within q (d1 + ex - (d2 + ey) - 53) (new_location (Z.pos my) r) Hq)
    as (m & e & Hres & Hdm & He); [ lia | lia | ].
  exists m, e. split; [ exact Hres | ]. split; [ exact Hdm | lia ].
Qed.

Lemma SF_within_finite (lo hi : Z) (x : float) :
  SF_within lo hi (Prim2SF x) ->
  is_finite x = true /\ PrimFloat.ltb 0 x = true /\ x <> infinity.
Proof.
  intros (m & e & Hx & _). split; [ | split ].
  - unfold is_finite, is_nan, is_infinity.
    rewrite !FloatAxioms.eqb_spec, abs_spec, Hx. cbn.
    unfold SFeqb. cbn. rewrite Z.compare_refl, Pos.compare_cont_refl. reflexivity.
  - rewrite ltb_spec, Hx. reflexivity.
  - intros ->. discriminate.
Qed.

Lemma elapsed_seconds_within (p : Probe) :
  0 < finishAt p - startAt p <= MaxInt64 ->
  SF_within (-170) 118 (Prim2SF (elapsed_seconds p)).
Proof.
  intros Hdt. unfold elapsed_seconds.
  rewrite wrap_int64_small by (unfold MinInt64, MaxInt64 in *; lia).
  rewrite div_spec.
  apply (SFdiv_within _ _ (-52) 12 (-52) 12); try lia.
  - apply float64_of_Z_within. exact Hdt.
  - apply float64_of_Z_within. unfold Second, MaxInt64. lia.
Qed.

Lemma probe_trial_score_within (p : Probe) :
  0 < finishAt p - startAt p <= MaxInt64 ->
  (forall body, response p = Some body -> Z.of_nat (List.length body) <= MaxInt64) ->
  response p <> None ->
  SF_within (-276) 236 (Prim2SF (fst (probe_trial p))).
Proof.
  intros Hdt Hbody Hsome. pose proof (elapsed_seconds_within p Hdt) as Helapsed.
  unfold probe_trial.
  destruct (response p) as [ body | ] eqn:Hresp; [ | contradiction ].
  pose proof (Hbody body eq_refl) as Hlen.
  destruct (contentSize_of_scanLines body Hlen) as [Hsize Hle].
  destruct (Z.eqb_spec (contentSize_of (scanLines body)) 0) as [Hzero | Hpos]; cbn [negb fst];
    rewrite div_spec; apply (SFdiv_within _ _ (-52) 12 (-170) 118); try lia; try exact Helapsed.
  - exists 7036874417766400%positive, (-46). repeat split; try lia. vm_compute. discriminate.
  - apply float64_of_Z_within. lia.
Qed.

Lemma instant_dec (p : Probe) : {instant p} + {~ instant p}.
Proof.
  unfold instant. destruct (response p) as [ body | ].
  - destruct (Z.eq_dec (finishAt p) (startAt p)) as [Heq | Hne].
    + left. split; [ discriminate | exact Heq ].
    + right. intros [_ Heq]. contradiction.
  - right. intros [Hne _]. contradiction.
Qed.

Lemma probe_trial_score_finite (p : Probe) :
  clock_forward p -> ~ instant p ->
  PrimFloat.leb 0 (fst (probe_trial p)) = true /\ is_finite (fst (probe_trial p)) = true.
Proof.
  intros [Hdt Hbody] Hnot.
  destruct (probe_trial_score_plus p Hdt Hbody) as (_ & Hleb & _).
  split; [ exact Hleb | ].
  destruct (response p) as [ body | ] eqn:Hresp.
  - assert (Hne : finishAt p <> startAt p).
    { intros Heq. apply Hnot. split; [ rewrite Hresp; discriminate | exact Heq ]. }
    apply (SF_within_finite (-276) 236).
    apply probe_trial_score_within; [ lia | | ]; rewrite Hresp; [ exact Hbody | discriminate ].
  - unfold probe_trial. rewrite Hresp. reflexivity.
Qed.

(** X8. When the clock does not run backwards between the two readings of
    a probe, the score of the probe is not NaN and not negative; it is 0
    for a failed request; for a request that succeeds it is plus infinity
    exactly when the two readings are the same, and a finite number above 0
    when they differ. *)
Theorem probe_trial_score_sign (p : Probe) :
  0 <= finishAt p - startAt p <= MaxInt64 ->
  (forall body, response p = Some body -> Z.of_nat (List.length body) <= MaxInt64) ->
  PrimFloat.leb 0 (fst (probe_trial p)) = true /\
  is_nan (fst (probe_trial p)) = false /\
  (response p = None -> fst (probe_trial p) = 0%float) /\
  (response p <> None ->
   (fst (probe_trial p) = infinity <-> finishAt p = startAt p) /\
   (finishAt p <> startAt p ->
    is_finite (fst (probe_trial p)) = true /\ PrimFloat.ltb 0 (fst (probe_trial p)) = true)).
Proof.
  intros Hdt Hbody.
  destruct (probe_trial_score_plus p Hdt Hbody) as (Hcase & Hleb & Hinf).
  split; [ exact Hleb | ]. split; [ | split ].
  - destruct Hcase as [Hnone | Hplus]; [ | apply SF_plus_not_nan; exact Hplus ].
    unfold probe_trial. rewrite Hnone. reflexivity.
  - intros Hnone. unfold probe_trial. rewrite Hnone. reflexivity.
  - intros Hsome.
    assert (Hfinite : finishAt p <> startAt p ->
              is_finite (fst (probe_trial p)) = true /\
              PrimFloat.ltb 0 (fst (probe_trial p)) = true /\
              fst (probe_trial p) <> infinity).
    { intros Hne. apply (SF_within_finite (-276) 236).
      apply probe_trial_score_within; [ lia | exact Hbody | exact Hsome ]. }
    split; [ split | ].
    + intros Hscore. destruct (Z.eq_dec (finishAt p) (startAt p)) as [Heq | Hne];
        [ exact Heq | ].
      destruct (Hfinite Hne) as (_ & _ & Hno). contradiction.
    + intros Heq. apply Hinf; assumption.
    + intros Hne. destruct (Hfinite Hne) as (Hf & Hlt & _). split; assumption.
Qed.

Lemma probe_trial_score_sign_witness :
  PrimFloat.leb 0 (fst (probe_trial (instant_network 1%nat 0%nat))) = true /\
  is_nan (fst (probe_trial (instant_network 1%nat 0%nat))) = false /\
  (response (instant_network 1%nat 0%nat) = None ->
   fst (probe_trial (instant_network 1%nat 0%nat)) = 0%float) /\
  (response (instant_network 1%nat 0%nat) <> None ->
   (fst (probe_trial (instant_network 1%nat 0%nat)) = infinity
    <-> finishAt (instant_network 1%nat 0%nat) = startAt (instant_network 1%nat 0%nat)) /\
   (finishAt (instant_network 1%nat 0%nat) <> startAt (instant_network 1%nat 0%nat) ->
    is_finite (fst (probe_trial (instant_network 1%nat 0%nat))) = true /\
    PrimFloat.ltb 0 (fst (probe_trial (instant_network 1%nat 0%nat))) = true)).
Proof.
  apply (probe_trial_score_sign (instant_network 1%nat 0%nat)).
  - cbn. unfold MaxInt64. lia.
  - intros body Hbody. injection Hbody as <-. cbn. unfold MaxInt64. lia.
Defined.

(** *** A trial that scores plus infinity *)

Lemma Prim2SF_infinity (x : float) : Prim2SF x = S754_infinity false -> x = infinity.
Proof. intros Hx. apply Prim2SF_inj. rewrite Hx. reflexivity. Qed.

Lemma float64_sum_infinite (scores : list float) (acc : float) :
  Forall (fun x => PrimFloat.leb 0 x = true) scores ->
  PrimFloat.leb 0 acc = true ->
  acc = infinity \/ In infinity scores ->
  fold_left PrimFloat.add scores acc = infinity.
Proof.
  intros Hall. revert acc. induction Hall as [ | x rest Hx Hrest IH ]; intros acc Hacc Hinf.
  - destruct Hinf as [-> | []]. reflexivity.
  - cbn [fold_left]. apply IH; [ apply float64_add_nonneg; assumption | ].
    destruct Hinf as [-> | [-> | Hin]]; [ left | left | right; exact Hin ].
    + apply Prim2SF_infinity. rewrite add_spec. apply leb_zero_nonneg in Hx.
      change (Prim2SF infinity) with (S754_infinity false).
      destruct (Prim2SF x) as [ s | s | | s m e ]; cbn in *; subst; try contradiction;
        reflexivity.
    + apply Prim2SF_infinity. rewrite add_spec. apply leb_zero_nonneg in Hacc.
      change (Prim2SF infinity) with (S754_infinity false).
      destruct (Prim2SF acc) as [ s | s | | s m e ]; cbn in *; subst; try contradiction;
        reflexivity.
Qed.

Lemma float64_ltb_infinity (m : float) :
  is_nan m = false -> m <> infinity -> PrimFloat.ltb m infinity = true.
Proof.
  intros Hnan Hm. apply is_nan_false in Hnan. rewrite ltb_spec.
  change (Prim2SF infinity) with (S754_infinity false).
  destruct (Prim2SF m) as [ s | s | | s mm e ] eqn:Hsf; try contradiction.
  - reflexivity.
  - destruct s; [ reflexivity | ]. exfalso. apply Hm. apply Prim2SF_infinity. exact Hsf.
  - destruct s; reflexivity.
Qed.

Lemma float64_infinity_ltb (y : float) : PrimFloat.ltb infinity y = false.
Proof.
  rewrite ltb_spec. change (Prim2SF infinity) with (S754_infinity false).
  destruct (Prim2SF y) as [ s | s | | s m e ]; try reflexivity; destruct s; reflexivity.
Qed.

Lemma float64_maximum_infinite (scores : list float) (m0 : float) :
  Forall (fun x => is_nan x = false) scores ->
  is_nan m0 = false ->
  m0 = infinity \/ In infinity scores ->
  fold_left (fun m y => if PrimFloat.ltb m y then y else m) scores m0 = infinity.
Proof.
  intros Hall. revert m0. induction Hall as [ | x rest Hx Hrest IH ]; intros m0 Hm0 Hinf.
  - destruct Hinf as [-> | []]. reflexivity.
  - cbn [fold_left]. apply IH.
    + destruct (PrimFloat.ltb m0 x); assumption.
    + destruct Hinf as [-> | [-> | Hin]]; [ left | left | right; exact Hin ].
      * rewrite float64_infinity_ltb. reflexivity.
      * destruct (PrimFloat.ltb m0 infinity) eqn:Hlt; [ reflexivity | ].
        destruct (PrimFloat.eqb m0 infinity) eqn:Heq.
        -- apply Prim2SF_infinity. rewrite FloatAxioms.eqb_spec in Heq.
           change (Prim2SF infinity) with (S754_infinity false) in Heq.
           destruct (Prim2SF m0) as [ s | s | | s m e ]; try discriminate;
             destruct s; try discriminate; reflexivity.
        -- rewrite float64_ltb_infinity in Hlt; [ discriminate | exact Hm0 | ].
           intros ->. discriminate.
Qed.

Lemma float64_minimum_not_nan (scores : list float) (m0 : float) :
  Forall (fun x => is_nan x = false) scores ->
  is_nan m0 = false ->
  is_nan (fold_left (fun m y => if PrimFloat.ltb y m then y else m) scores m0) = false.
Proof.
  intros Hall. revert m0. induction Hall as [ | x rest Hx Hrest IH ]; intros m0 Hm0.
  - exact Hm0.
  - cbn [fold_left]. apply IH. destruct (PrimFloat.ltb x m0); assumption.
Qed.

Lemma float64_infinity_minus (mn d : float) :
  is_nan mn = false ->
  is_nan ((infinity - mn - infinity) / d) = true.
Proof.
  intros Hmn%is_nan_false.
  assert (Hsf : Prim2SF ((infinity - mn - infinity) / d) = S754_nan).
  { rewrite div_spec, !sub_spec. change (Prim2SF infinity) with (S754_infinity false).
    destruct (Prim2SF mn) as [ s | s | | s m e ]; try contradiction;
      try destruct s; reflexivity. }
  unfold is_nan. rewrite FloatAxioms.eqb_spec, Hsf. reflexivity.
Qed.

Lemma leb_zero_not_nan (x : float) : PrimFloat.leb 0 x = true -> is_nan x = false.
Proof.
  intros Hx%leb_zero_nonneg. unfold is_nan. rewrite FloatAxioms.eqb_spec.
  destruct (Prim2SF x) as [ s | s | | s m e ]; cbn in *; try contradiction.
  - reflexivity.
  - subst s. reflexivity.
  - subst s. unfold SFeqb. cbn. rewrite Z.compare_refl, Pos.compare_cont_refl. reflexivity.
Qed.

(** Of nonnegative scores with a plus infinity among them: the mean of one
    or two is plus infinity, and with three or more the trimmed sum is
    infinity minus infinity. *)
Lemma aggregate_infinite (s_count : Z) (scores : list float) :
  Forall (fun x => PrimFloat.leb 0 x = true) scores ->
  In infinity scores ->
  ((List.length scores < 3)%nat -> aggregate s_count scores = infinity) /\
  ((3 <= List.length scores)%nat -> is_nan (aggregate s_count scores) = true).
Proof.
  intros Hall Hin.
  assert (Hnan : Forall (fun x => is_nan x = false) scores).
  { revert Hall. apply Forall_impl. apply leb_zero_not_nan. }
  unfold aggregate, score_loop. rewrite score_loop_from.
  cbn [fadd fsub fdiv flt of_Z float64_arith].
  rewrite (float64_sum_infinite scores _ Hall) by (auto; vm_compute; reflexivity).
  split; intros Hlen.
  - replace (Z.of_nat (List.length scores) <? 3) with true by (symmetry; apply Z.ltb_lt; lia).
    destruct scores as [ | a [ | b [ | c rest ] ] ]; cbn [List.length] in *;
      [ contradiction | | | lia ]; vm_compute; reflexivity.
  - replace (Z.of_nat (List.length scores) <? 3) with false by (symmetry; apply Z.ltb_ge; lia).
    rewrite (float64_maximum_infinite scores _ Hnan) by (auto; vm_compute; reflexivity).
    apply float64_infinity_minus.
    apply float64_minimum_not_nan; [ exact Hnan | vm_compute; reflexivity ].
Qed.

Lemma mapM_pure {A B : Type} (f : A -> B) (l : list A) :
  mapM (fun a => Returned (f a)) l = Returned (map f l).
Proof.
  induction l as [ | a l IH ]; cbn; [ reflexivity | ].
  unfold bind. rewrite IH. reflexivity.
Qed.

Lemma trial_scores_value (s : OptimalStrategy) (net : Network) (oh : Handler) (n : Z) :
  url s <> None ->
  trial_scores s net oh n
  = Returned (map (fun i => fst (probe_trial (net oh i))) (seq 0 (Z.to_nat n))).
Proof.
  intros Hurl. unfold trial_scores. destruct (url s); [ | contradiction ].
  apply mapM_pure.
Qed.

(** *** An aggregated score that is a number *)

Lemma binary_round_aux_number (sx : bool) (m e : Z) (l : location) :
  0 <= m -> binary_round_aux prec emax sx m e l <> S754_nan.
Proof.
  intros Hm. unfold binary_round_aux.
  pose proof (shr_fexp_nonneg m e l Hm) as H1.
  destruct (shr_fexp prec emax m e l) as [mrs1 e1]. cbn [fst] in H1.
  pose proof (shr_fexp_nonneg _ e1 loc_Exact
                (round_nearest_even_nonneg _ (loc_of_shr_record mrs1) H1)) as H2.
  destruct (shr_fexp prec emax _ e1 loc_Exact) as [mrs2 e2]. cbn [fst] in H2.
  destruct (shr_m mrs2) as [ | p | p ]; [ discriminate | | lia ].
  destruct (e2 <=? emax - prec); discriminate.
Qed.

Lemma binary_normalize_number (m e : Z) (szero : bool) :
  binary_normalize prec emax m e szero <> S754_nan.
Proof.
  destruct m as [ | p | p ]; cbn [binary_normalize]; [ discriminate | | ];
    unfold binary_round; destruct (shl_align _ _ _) as [mz ez];
    apply binary_round_aux_number; lia.
Qed.

Lemma SFsub_number (x y : spec_float) :
  x <> S754_nan -> SF_finite y -> SF64sub x y <> S754_nan.
Proof.
  unfold SF64sub.
  destruct x as [ sx | sx | | sx mx ex ]; destruct y as [ sy | sy | | sy my ey ];
    cbn [SF_finite SFsub]; intros Hx Hy; try contradiction; try discriminate.
  - destruct sx, sy; discriminate.
  - apply binary_normalize_number.
Qed.

Lemma SFdiv_number (x : spec_float) (m : positive) (e : Z) :
  x <> S754_nan -> SF64div x (S754_finite false m e) <> S754_nan.
Proof.
  unfold SF64div.
  destruct x as [ sx | sx | | sx mx ex ]; cbn [SFdiv]; intros Hx;
    try contradiction; try discriminate.
  unfold SFdiv_core_binary.
  set (s := ex - e - _).
  set (m' := match s with Z0 => Z.pos mx | Z.pos _ => Z.shiftl (Z.pos mx) s | Z.neg _ => 0 end).
  assert (Hm' : 0 <= m').
  { subst m'. destruct s; try lia. apply Z.shiftl_nonneg. lia. }
  pose proof (Z.div_pos m' (Z.pos m) Hm' (Pos2Z.is_pos m)) as Hq.
  unfold Z.div in Hq. destruct (Z.div_eucl m' (Z.pos m)) as [q r].
  apply binary_round_aux_number. exact Hq.
Qed.

Lemma is_nan_true (x : float) : is_nan x = true <-> Prim2SF x = S754_nan.
Proof.
  unfold is_nan. rewrite FloatAxioms.eqb_spec.
  destruct (Prim2SF x) as [ s | s | | s m e ]; cbn.
  - split; discriminate.
  - destruct s; split; discriminate.
  - split; reflexivity.
  - unfold SFeqb. cbn. rewrite Z.compare_refl, Pos.compare_cont_refl.
    destruct s; split; discriminate.
Qed.

Lemma is_nan_number (x : float) : is_nan x = false <-> Prim2SF x <> S754_nan.
Proof.
  pose proof (is_nan_true x) as Ht. destruct (is_nan x); split; intros H; try discriminate;
    try reflexivity.
  - exfalso. apply H. apply Ht. reflexivity.
  - intros Hn. apply Ht in Hn. discriminate.
Qed.

Lemma is_finite_SF (x : float) : is_finite x = true -> SF_finite (Prim2SF x).
Proof.
  unfold is_finite, is_nan, is_infinity. rewrite !FloatAxioms.eqb_spec, abs_spec.
  destruct (Prim2SF x) as [ s | s | | s m e ]; cbn; auto; try discriminate.
  destruct s; discriminate.
Qed.

Lemma float64_sub_number (a b : float) :
  is_nan a = false -> is_finite b = true -> is_nan (a - b) = false.
Proof.
  rewrite !is_nan_number, sub_spec. intros Ha Hb%is_finite_SF.
  apply SFsub_number; assumption.
Qed.

Lemma float64_div_number (a d : float) (m : positive) (e : Z) :
  Prim2SF d = S754_finite false m e -> is_nan a = false -> is_nan (a / d) = false.
Proof.
  rewrite !is_nan_number, div_spec. intros -> Ha. apply SFdiv_number. exact Ha.
Qed.

Lemma fold_left_choice {A : Type} (P : A -> Prop) (pick : A -> A -> bool)
    (l : list A) (m0 : A) :
  Forall P l -> P m0 -> P (fold_left (fun m y => if pick m y then y else m) l m0).
Proof.
  intros Hall. revert m0. induction Hall as [ | x rest Hx Hrest IH ]; intros m0 Hm0.
  - exact Hm0.
  - cbn [fold_left]. apply IH. destruct (pick m0 x); assumption.
Qed.

(** Of finite nonnegative scores, one at least and as many as s.count
    says, the aggregated score is a number. *)
Lemma aggregate_number (s_count : Z) (scores : list float) :
  s_count = Z.of_nat (List.length scores) ->
  1 <= s_count <= MaxUint32 ->
  Forall (fun x => PrimFloat.leb 0 x = true /\ is_finite x = true) scores ->
  is_nan (aggregate s_count scores) = false.
Proof.
  intros Hlen Hcount Hall.
  assert (Hpos : Forall (fun x => PrimFloat.leb 0 x = true) scores).
  { revert Hall. apply Forall_impl. intros x [Hx _]. exact Hx. }
  assert (Hfin : Forall (fun x => is_finite x = true) scores).
  { revert Hall. apply Forall_impl. intros x [_ Hx]. exact Hx. }
  unfold aggregate, score_loop. rewrite score_loop_from.
  cbn [fadd fsub fdiv flt of_Z float64_arith].
  assert (Hsum : is_nan (fold_left PrimFloat.add scores (float64_of_Z 0)) = false).
  { apply leb_zero_not_nan, float64_sum_nonneg; [ vm_compute; reflexivity | exact Hpos ]. }
  rewrite <- Hlen.
  destruct (Z.ltb_spec s_count 3) as [Hfew | Hmany].
  - destruct (float64_of_Z_pos s_count) as (m & e & Hd); [ unfold MaxInt64, MaxUint32 in *; lia | ].
    apply (float64_div_number _ _ m e Hd Hsum).
  - rewrite wrap_uint32_small by lia.
    destruct (float64_of_Z_pos (s_count - 2)) as (m & e & Hd);
      [ unfold MaxInt64, MaxUint32 in *; lia | ].
    apply (float64_div_number _ _ m e Hd).
    apply float64_sub_number; [ apply float64_sub_number; [ exact Hsum | ] | ].
    + apply (fold_left_choice (fun x => is_finite x = true) (fun m y => PrimFloat.ltb y m));
        [ exact Hfin | vm_compute; reflexivity ].
    + apply (fold_left_choice (fun x => is_finite x = true) (fun m y => PrimFloat.ltb m y));
        [ exact Hfin | vm_compute; reflexivity ].
Qed.

Lemma trial_scores_finite (net : Network) (oh : Handler) (n : nat) :
  (forall j, (j < n)%nat -> clock_forward (net oh j)) ->
  (forall j, (j < n)%nat -> ~ instant (net oh j)) ->
  Forall (fun x => PrimFloat.leb 0 x = true /\ is_finite x = true)
    (map (fun j => fst (probe_trial (net oh j))) (seq 0 n)).
Proof.
  intros Hclock Hnot. apply Forall_map, Forall_forall. intros j Hj. apply in_seq in Hj.
  apply probe_trial_score_finite; [ apply Hclock | apply Hnot ]; lia.
Qed.

Lemma instant_trial_dec (net : Network) (oh : Handler) (n : nat) :
  (exists i, (i < n)%nat /\ instant (net oh i)) \/
  (forall j, (j < n)%nat -> ~ instant (net oh j)).
Proof.
  induction n as [ | n IH ].
  - right. intros j Hj. lia.
  - destruct IH as [(i & Hi & Hinst) | Hnone].
    + left. exists i. split; [ lia | exact Hinst ].
    + destruct (instant_dec (net oh n)) as [Hinst | Hnot].
      * left. exists n. split; [ lia | exact Hinst ].
      * right. intros j Hj. destruct (Nat.eq_dec j n) as [-> | Hne];
          [ exact Hnot | apply Hnone; lia ].
Qed.

(** X9. When the clock does not run backwards in any trial of a candidate
    whose handler the manager knows, testOutboud returns and keeps the tag
    of its result; with three trials or more the aggregated score is NaN
    exactly when some trial succeeds between two equal clock readings (then
    the sum and the maximum are both infinite); with one or two trials it
    is never negative or NaN, and it is plus infinity when some trial
    succeeds between two equal clock readings. *)
Theorem testOutboud_score_is_a_number (s : OptimalStrategy) (net : Network) (tag : string)
    (result : optimalStrategyTestResult) (m : Manager) (oh : Handler) :
  obm s = Some m -> m tag = Some oh -> url s <> None ->
  1 <= count s <= MaxUint32 ->
  (forall j, (j < Z.to_nat (count s))%nat -> clock_forward (net oh j)) ->
  exists r,
    testOutboud s net tag result (count s) = Returned r /\
    r_tag r = r_tag result /\
    (3 <= count s ->
     (is_nan (r_score r) = true
      <-> exists i, (i < Z.to_nat (count s))%nat /\ instant (net oh i))) /\
    (count s < 3 ->
     PrimFloat.leb 0 (r_score r) = true /\
     ((exists i, (i < Z.to_nat (count s))%nat /\ instant (net oh i)) ->
      r_score r = infinity)).
Proof.
  intros Hobm Hoh Hurl Hcount Hclock.
  unfold testOutboud, bind. rewrite Hobm, Hoh, (trial_scores_value s net oh _ Hurl).
  set (scores := map (fun j => fst (probe_trial (net oh j))) (seq 0 (Z.to_nat (count s)))).
  assert (Hlen : List.length scores = Z.to_nat (count s)).
  { subst scores. rewrite length_map, length_seq. reflexivity. }
  assert (Hall : Forall (fun x => PrimFloat.leb 0 x = true) scores).
  { subst scores. apply Forall_map, Forall_forall. intros j Hj. apply in_seq in Hj.
    destruct (Hclock j) as [Hdt Hbody]; [ lia | ].
    apply (probe_trial_score_plus (net oh j) Hdt Hbody). }
  assert (Hinf : (exists i, (i < Z.to_nat (count s))%nat /\ instant (net oh i)) ->
                 In infinity scores).
  { intros (i & Hi & Hsome & Hsame).
    subst scores. apply in_map_iff. exists i. split; [ | apply in_seq; lia ].
    destruct (Hclock i Hi) as [Hdt Hbody].
    apply (probe_trial_score_plus (net oh i) Hdt Hbody); assumption. }
  eexists. split; [ reflexivity | ]. cbn [r_score r_tag].
  split; [ reflexivity | ]. split.
  - intros Hmany. split.
    + intros Hnan.
      destruct (instant_trial_dec net oh (Z.to_nat (count s))) as [Hex | Hnot];
        [ exact Hex | ].
      rewrite aggregate_number in Hnan; [ discriminate | lia | exact Hcount | ].
      apply trial_scores_finite; assumption.
    + intros Hex.
      apply (aggregate_infinite (count s) scores Hall (Hinf Hex)). lia.
  - intros Hfew. split.
    + replace (count s) with (Z.of_nat (List.length scores)) by lia.
      apply aggregate_few_nonneg; [ lia | exact Hall ].
    + intros Hex. apply (aggregate_infinite (count s) scores Hall (Hinf Hex)). lia.
Qed.

Lemma instant_network_clock (j : nat) :
  (j < 3)%nat -> clock_forward (instant_network 1%nat j).
Proof.
  intros Hj. unfold clock_forward.
  destruct j as [ | [ | [ | j ] ] ]; try lia; cbn;
    (split; [ unfold MaxInt64; lia | ]);
    intros body Hbody; injection Hbody as <-; cbn; unfold MaxInt64; lia.
Qed.

Lemma testOutboud_score_witness :
  exists r,
    testOutboud three_strategy instant_network "b" {| r_tag := "b"; r_score := 0 |}
      (count three_strategy) = Returned r /\
    r_tag r = r_tag {| r_tag := "b"; r_score := 0 |} /\
    (3 <= count three_strategy ->
     (is_nan (r_score r) = true
      <-> exists i, (i < Z.to_nat (count three_strategy))%nat /\
                    instant (instant_network 1%nat i))) /\
    (count three_strategy < 3 ->
     PrimFloat.leb 0 (r_score r) = true /\
     ((exists i, (i < Z.to_nat (count three_strategy))%nat /\
                 instant (instant_network 1%nat i)) ->
      r_score r = infinity)).
Proof.
  apply (testOutboud_score_is_a_number three_strategy instant_network "b"
           {| r_tag := "b"; r_score := 0 |} sample_obm 1%nat).
  - reflexivity.
  - reflexivity.
  - discriminate.
  - cbn. unfold MaxUint32. lia.
  - apply instant_network_clock.
Defined.

(** *** The trimmed mean, where the loop finds the extremes *)

Lemma float64_is_nan (x : float) : is_nan x = true -> x = nan.
Proof.
  intros Hx. apply is_nan_true in Hx. apply Prim2SF_inj. rewrite Hx. reflexivity.
Qed.

Lemma float64_add_nan (x : float) : (nan + x = nan /\ x + nan = nan)%float.
Proof.
  split; apply Prim2SF_inj; rewrite add_spec.
  - reflexivity.
  - change (Prim2SF nan) with S754_nan. destruct (Prim2SF x) as [ s | s | | s m e ]; reflexivity.
Qed.

Lemma float64_sub_nan (x : float) : (nan - x = nan)%float.
Proof. apply Prim2SF_inj. rewrite sub_spec. reflexivity. Qed.

Lemma float64_div_nan (x : float) : (nan / x = nan)%float.
Proof. apply Prim2SF_inj. rewrite div_spec. reflexivity. Qed.

(** A sum with a NaN among its terms is NaN. *)
Lemma float64_sum_nan (scores : list float) (acc : float) :
  acc = nan \/ Exists (fun x => is_nan x = true) scores ->
  fold_left PrimFloat.add scores acc = nan.
Proof.
  revert acc. induction scores as [ | x rest IH ]; intros acc Hnan.
  - destruct Hnan as [-> | Hex]; [ reflexivity | inversion Hex ].
  - cbn [fold_left]. apply IH. destruct Hnan as [-> | Hex].
    + left. apply float64_add_nan.
    + inversion Hex as [ y l Hx | y l Hl ]; subst.
      * left. rewrite (float64_is_nan x Hx). apply float64_add_nan.
      * right. exact Hl.
Qed.

(** X18. With fewer than 3 trial scores the aggregated score is their
    arithmetic mean. With 3 or more, when some score is below
    float64(math.MaxInt64) and some score is above float64(math.MinInt64),
    the loop ends with the smallest and the largest score, and the
    aggregated score is (sum - minimum - maximum) / (count - 2); with a NaN
    among the scores both are NaN. *)
Theorem aggregate_within_the_sentinels (s_count : Z) (scores : list float) :
  s_count = Z.of_nat (List.length scores) ->
  uint32_range s_count ->
  (s_count < 3 -> aggregate s_count scores = arithmetic_mean scores) /\
  (3 <= s_count ->
   Exists (fun x => PrimFloat.ltb x (float64_of_Z MaxInt64) = true) scores ->
   Exists (fun x => PrimFloat.ltb (float64_of_Z MinInt64) x = true) scores ->
   Some (aggregate s_count scores) = trimmed_mean s_count scores).
Proof.
  intros Hlen Hrange.
  destruct (aggregate_is_trimmed_mean s_count scores Hlen Hrange) as (Hfew & Hmany & _).
  split; [ exact Hfew | ].
  intros Hthree Hlow Hhigh.
  destruct (Forall_Exists_dec (fun x => is_nan x = false)
              (fun x => bool_dec (is_nan x) false) scores) as [Hnum | Hnan].
  - apply Hmany; assumption.
  - assert (Hnan' : Exists (fun x => is_nan x = true) scores).
    { revert Hnan. apply Exists_impl. intros x Hx.
      destruct (is_nan x); [ reflexivity | contradiction ]. }
    assert (Hsum : list_sum scores = nan).
    { apply float64_sum_nan. right. exact Hnan'. }
    unfold aggregate, trimmed_mean, score_loop. rewrite score_loop_from.
    fold (list_sum scores). rewrite Hsum.
    rewrite <- Hlen. apply Z.ltb_ge in Hthree. rewrite Hthree.
    destruct scores as [ | x rest ]; [ inversion Hlow | ].
    cbn [list_minimum list_maximum fsub fdiv float64_arith].
    rewrite !float64_sub_nan, !float64_div_nan. reflexivity.
Qed.

Lemma aggregate_within_the_sentinels_witness :
  aggregate 2 [4; 1e19]%float = arithmetic_mean [4; 1e19]%float /\
  Some (aggregate 3 [4; nan; 7]%float) = trimmed_mean 3 [4; nan; 7]%float.
Proof.
  assert (Htwo : uint32_range 2) by (unfold uint32_range, MaxUint32; lia).
  assert (Hthree : uint32_range 3) by (unfold uint32_range, MaxUint32; lia).
  split.
  - apply (proj1 (aggregate_within_the_sentinels 2 [4; 1e19]%float eq_refl Htwo)).
    lia.
  - apply (proj2 (aggregate_within_the_sentinels 3 [4; nan; 7]%float eq_refl Hthree)).
    + lia.
    + apply Exists_cons_hd. reflexivity.
    + apply Exists_cons_hd. reflexivity.
Defined.

(** ** A round under a clock that advances *)

Lemma testOutboud_number (s : OptimalStrategy) (net : Network) (m : Manager) (t : string)
    (r : optimalStrategyTestResult) :
  obm s = Some m -> url s <> None -> 1 <= count s <= MaxUint32 ->
  (forall oh j, clock_forward (net oh j) /\ ~ instant (net oh j)) ->
  testOutboud s net t {| r_tag := t; r_score := 0 |} (count s) = Returned r ->
  is_nan (r_score r) = false.
Proof.
  intros Hobm Hurl Hcount Hnet. unfold testOutboud, bind. rewrite Hobm.
  destruct (m t) as [ oh | ].
  - rewrite (trial_scores_value s net oh _ Hurl). intros Hr. injection Hr as <-.
    cbn [r_score]. apply aggregate_number.
    + rewrite length_map, length_seq. lia.
    + exact Hcount.
    + apply trial_scores_finite; intros j _; apply Hnet.
  - intros Hr. injection Hr as <-. reflexivity.
Qed.

Lemma Forall2_right {A B : Type} (P : A -> B -> Prop) (Q : B -> Prop)
    (l : list A) (l' : list B) :
  (forall a b, P a b -> Q b) -> Forall2 P l l' -> Forall Q l'.
Proof.
  intros HPQ Hall. induction Hall as [ | a b l l' Hab Hrest IH ]; constructor;
    [ apply (HPQ a b Hab) | exact IH ].
Qed.

Section RankingFacts.

Variable sort_Slice :
  (optimalStrategyTestResult -> optimalStrategyTestResult -> bool) ->
  list optimalStrategyTestResult -> list optimalStrategyTestResult.

Hypothesis sort_Slice_sorts : sorts sort_Slice.

(** X10. A round on a strategy that has a manager, a probe URL and
    candidates, with a sort.Slice that sorts, under a clock that advances
    during every request that succeeds: the round returns, no aggregated
    score is NaN, and the tag published is the tag of a candidate that no
    candidate outscores. *)
Theorem run_ranks_when_the_clock_advances (s : OptimalStrategy) (net : Network)
    (m : Manager) :
  obm s = Some m -> url s <> None -> tags s <> [] ->
  1 <= count s <= MaxUint32 ->
  (forall oh j, clock_forward (net oh j) /\ ~ instant (net oh j)) ->
  exists results winner,
    probe_all s net = Returned results /\
    Forall (fun r => is_nan (r_score r) = false) results /\
    In winner results /\
    In (r_tag winner) (tags s) /\
    run sort_Slice s net = Returned (None, with_tag s (r_tag winner)) /\
    Forall (fun r => float64_gt (r_score r) (r_score winner) = false) results.
Proof.
  intros Hobm Hurl Htags Hcount Hnet.
  destruct (probe_all_total s net Hurl) as [results Hall]; [ rewrite Hobm; discriminate | ].
  assert (Hnan : Forall (fun r => is_nan (r_score r) = false) results).
  { apply (Forall2_right _ _ _ _ (fun t r => testOutboud_number s net m t r Hobm Hurl Hcount Hnet)
             (probe_all_slots s net results Hall)). }
  destruct sort_Slice_sorts as [Hperm Hsorted].
  pose proof (by_score_desc_orders results Hnan) as Horders.
  specialize (Hperm by_score_desc results).
  specialize (Hsorted by_score_desc results Horders).
  pose proof (probe_all_tags s net results Hall) as Hmap.
  destruct (sort_Slice by_score_desc results) as [ | r0 rest ] eqn:Hsort.
  - apply Permutation_nil in Hperm. subst results. cbn in Hmap. congruence.
  - assert (Hin : In r0 results).
    { apply (Permutation_in _ Hperm). left. reflexivity. }
    exists results, r0. split; [ exact Hall | ]. split; [ exact Hnan | ].
    split; [ exact Hin | ]. split; [ | split ].
    + rewrite <- Hmap. apply in_map. exact Hin.
    + apply (run_publishes_head sort_Slice s net results r0 rest Hall Hsort).
    + pose proof (in_order_head by_score_desc (r0 :: rest) r0 rest
                    (strict_weak_on_Permutation _ _ _ (Permutation_sym Hperm) Horders)
                    (fun z Hz => Hz) Hsorted) as Hhead.
      rewrite Forall_forall in *. intros r Hr.
      apply (Permutation_in _ (Permutation_sym Hperm)) in Hr.
      destruct Hr as [<- | Hr]; [ | apply (Hhead r Hr) ].
      destruct (float64_gt (r_score r0) (r_score r0)) eqn:Hself; [ | reflexivity ].
      apply float64_gt_asym in Hself as Hself'. congruence.
Qed.

End RankingFacts.

Lemma tie_network_clock (oh : Handler) (j : nat) :
  clock_forward (tie_network oh j) /\ ~ instant (tie_network oh j).
Proof.
  unfold clock_forward, instant.
  destruct oh as [ | [ | [ | [ | [ | [ | [ | oh ] ] ] ] ] ] ]; cbn;
    (split; [ split; [ unfold MaxInt64; lia | ] | ]);
    try (intros body Hbody; try discriminate; injection Hbody as <-; cbn; unfold MaxInt64; lia);
    intros [Hsome Hsame]; try discriminate; contradiction.
Qed.

Lemma run_ranks_witness :
  exists results winner,
    probe_all probed_strategy tie_network = Returned results /\
    Forall (fun r => is_nan (r_score r) = false) results /\
    In winner results /\
    In (r_tag winner) (tags probed_strategy) /\
    run (@shortSort optimalStrategyTestResult) probed_strategy tie_network
    = Returned (None, with_tag probed_strategy (r_tag winner)) /\
    Forall (fun r => float64_gt (r_score r) (r_score winner) = false) results.
Proof.
  apply (run_ranks_when_the_clock_advances (@shortSort optimalStrategyTestResult)
           shortSort_sorts probed_strategy tie_network sample_obm).
  - reflexivity.
  - discriminate.
  - discriminate.
  - cbn. unfold MaxUint32. lia.
  - apply tie_network_clock.
Defined.

(** ** What holds of every strategy in use *)

Section LifecycleInvariants.

Variable url_Parse : string -> URL + string.
Variable sort_Slice :
  (optimalStrategyTestResult -> optimalStrategyTestResult -> bool) ->
  list optimalStrategyTestResult -> list optimalStrategyTestResult.

Hypothesis default_url_parses : exists u, url_Parse default_url = inl u.

(** X11. Of every strategy that construction, calls of PickOutbound and
    rounds of the periodic task lead to: the probe URL is not nil; timeout,
    interval and trial count stay the positive values of construction; as
    long as no periodic task exists, no manager, tag or candidate is
    stored; and once it exists, it is the task of interval s.interval that
    executes s.run, a manager is stored, and at least two candidates. *)
Theorem Reachable_invariants (s : OptimalStrategy) :
  Reachable url_Parse sort_Slice s ->
  url s <> None /\
  0 < timeout s <= Millisecond * MaxUint32 /\
  0 < interval s <= Millisecond * MaxUint32 /\
  1 <= count s <= MaxUint32 /\
  (periodic s = None -> obm s = None /\ tag s = ""%string /\ tags s = []) /\
  (forall p, periodic s = Some p ->
     p = {| p_Interval := interval s; p_Execute := task_run |} /\
     obm s <> None /\ (2 <= List.length (tags s))%nat).
Proof.
  intros Hreach. induction Hreach as
    [ config s Hwf Hnew
    | s m ts t s' gs Hreach IH Hpick
    | s net e s' Hreach IH Hstarted Hrun ].
  - destruct (NewOptimalStrategy_ranges url_Parse config s Hwf Hnew) as (Ht & Hi & Hc).
    destruct (NewOptimalStrategy_fresh url_Parse config s Hnew) as (Hobm & Htag & Htags & Hp).
    repeat split; try assumption; try lia.
    + unfold NewOptimalStrategy, bind in Hnew.
      destruct (Url config =? "")%string.
      * injection Hnew as <-. cbn [url].
        destruct default_url_parses as [u ->]. discriminate.
      * destruct (url_Parse (Url config)) as [ u | err ]; [ | discriminate ].
        destruct (negb (Scheme u =? "http")%string && negb (Scheme u =? "https")%string);
          [ discriminate | ].
        injection Hnew as <-. discriminate.
    + congruence.
    + congruence.
    + congruence.
  - destruct IH as (Hurl & Ht & Hi & Hc & Hidle & Hstarted).
    destruct ts as [ | t0 [ | t1 rest ] ].
    + discriminate.
    + rewrite PickOutbound_one_tag in Hpick. injection Hpick as _ <- _.
      refine (conj Hurl (conj Ht (conj Hi (conj Hc (conj Hidle Hstarted))))).
    + destruct (periodic s) as [ p | ] eqn:Hp.
      * rewrite (PickOutbound_later_use _ _ _ _ _ _ Hp) in Hpick.
        injection Hpick as _ <- _.
        destruct (Hstarted p eq_refl) as (Hpval & _ & _).
        refine (conj Hurl (conj Ht (conj Hi (conj Hc (conj _ _))))).
        -- cbn. intros Hnil. congruence.
        -- cbn. intros q Hq. rewrite Hp in Hq. injection Hq as <-.
           split; [ exact Hpval | ]. split; [ discriminate | lia ].
      * rewrite (PickOutbound_first_use _ _ _ _ _ Hp) in Hpick.
        injection Hpick as _ <- _.
        refine (conj Hurl (conj Ht (conj Hi (conj Hc (conj _ _))))).
        -- cbn. discriminate.
        -- cbn. intros q Hq. injection Hq as <-.
           split; [ reflexivity | ]. split; [ discriminate | lia ].
  - unfold run, bind in Hrun.
    destruct (probe_all s net); [ | discriminate ].
    destruct (index _ 0); [ | discriminate ].
    injection Hrun as _ <-.
    destruct IH as (Hurl & Ht & Hi & Hc & Hidle & Hstart).
    refine (conj Hurl (conj Ht (conj Hi (conj Hc (conj _ Hstart))))).
    cbn. intros Hnil. contradiction.
Qed.

End LifecycleInvariants.

Lemma Reachable_invariants_witness :
  url lost_strategy <> None /\
  0 < timeout lost_strategy <= Millisecond * MaxUint32 /\
  0 < interval lost_strategy <= Millisecond * MaxUint32 /\
  1 <= count lost_strategy <= MaxUint32 /\
  (periodic lost_strategy = None ->
   obm lost_strategy = None /\ tag lost_strategy = ""%string /\ tags lost_strategy = []) /\
  (forall p, periodic lost_strategy = Some p ->
     p = {| p_Interval := interval lost_strategy; p_Execute := task_run |} /\
     obm lost_strategy <> None /\ (2 <= List.length (tags lost_strategy))%nat).
Proof.
  apply (Reachable_invariants sample_Parse (@shortSort optimalStrategyTestResult)).
  - exists google. reflexivity.
  - apply lost_strategy_Reachable.
Defined.

(** ** Concurrent calls: the mutex, progress, and panics *)

(** X12. However concurrent first calls interleave: two calls are never
    both between Lock and Unlock; the mutex is held only by a call that is
    between Lock and Unlock; and when every call has ended the mutex is
    unlocked. *)
Theorem mutex_guards_the_critical_section (s : OptimalStrategy)
    (calls : list (Manager * list string)) (sh : Shared) (pool : list Thread) :
  periodic s = None ->
  steps (initial s calls) (sh, pool) ->
  (forall i j ti tj,
     nth_error pool i = Some ti -> nth_error pool j = Some tj ->
     in_critical (t_pc ti) = true -> in_critical (t_pc tj) = true -> i = j) /\
  (forall k, sh_mutex sh = Some k ->
     exists t, nth_error pool k = Some t /\ in_critical (t_pc t) = true) /\
  (Forall (fun t => ended (t_pc t) = true) pool -> sh_mutex sh = None).
Proof.
  intros Hnil Hsteps.
  pose proof (Inv_steps s calls (sh, pool) Hnil Hsteps) as HInv. cbn [fst snd] in HInv.
  split; [ | split ].
  - intros i j ti tj Hi Hj Hci Hcj.
    pose proof (inv_excl _ _ HInv i ti Hi Hci) as Hmi.
    pose proof (inv_excl _ _ HInv j tj Hj Hcj) as Hmj. congruence.
  - intros k Hk. apply (mutex_holder sh pool k HInv Hk).
  - intros Hended. destruct (sh_mutex sh) as [ k | ] eqn:Hk; [ | reflexivity ].
    destruct (mutex_holder sh pool k HInv Hk) as (t & Ht & Hc).
    rewrite Forall_forall in Hended. specialize (Hended t (nth_error_In _ _ Ht)).
    destruct (t_pc t); discriminate.
Qed.

(** X13. However concurrent first calls interleave, they never deadlock:
    as long as some call has not ended, some call can execute its next
    statement; and every statement a call executes brings it nearer to its
    end, so that a call ends after 11 statements at most. *)
Theorem concurrent_calls_never_deadlock (s : OptimalStrategy)
    (calls : list (Manager * list string)) (sh : Shared) (pool : list Thread) :
  periodic s = None ->
  steps (initial s calls) (sh, pool) ->
  (Exists (fun t => ended (t_pc t) = false) pool ->
   exists j tj sh' tj',
     nth_error pool j = Some tj /\ thread_step j sh tj = Some (sh', tj')) /\
  (forall j tj sh' tj',
     thread_step j sh tj = Some (sh', tj') ->
     (statements_left (t_pc tj') < statements_left (t_pc tj))%nat).
Proof.
  intros Hnil Hsteps.
  pose proof (Inv_steps s calls (sh, pool) Hnil Hsteps) as HInv. cbn [fst snd] in HInv.
  split.
  - intros Hex. apply Exists_exists in Hex. destruct Hex as (t & Hin & Ht).
    apply In_nth_error in Hin. destruct Hin as [i Hi].
    destruct (thread_step i sh t) as [ [sh' t'] | ] eqn:Hstep.
    + exists i, t, sh', t'. split; assumption.
    + apply blocked_call in Hstep. destruct Hstep as [Hend | (_ & k & Hk)]; [ congruence | ].
      destruct (mutex_holder sh pool k HInv Hk) as (tk & Htk & Hc).
      destruct (critical_statement_steps k sh tk Hc) as (sh' & tk' & Hstep).
      exists k, tk, sh', tk'. split; assumption.
  - intros j tj sh' tj' Hstep. unfold thread_step in Hstep.
    destruct (t_pc tj); step_cases Hstep; cbn; lia.
Qed.

(** X14. However concurrent first calls interleave: a call keeps the
    candidates it was given; a call panics only if it was given no
    candidate, and then with "0 tags" (neither s.tags[0] nor
    s.periodic.Start() ever fails); and a call that has returned was given
    one candidate at least. *)
Theorem concurrent_call_panics_only_without_candidates (s : OptimalStrategy)
    (calls : list (Manager * list string)) (sh : Shared) (pool : list Thread)
    (j : nat) (t : Thread) :
  periodic s = None ->
  steps (initial s calls) (sh, pool) ->
  nth_error pool j = Some t ->
  (exists m, nth_error calls j = Some (m, t_tags t)) /\
  (forall msg, t_pc t = Crashed msg -> t_tags t = [] /\ msg = "0 tags"%string) /\
  (forall r, t_pc t = Done r -> t_tags t <> []).
Proof.
  intros Hnil Hsteps Hj.
  destruct (args_inv_steps s calls (sh, pool) Hnil Hsteps) as [Hmap Hargs].
  cbn [snd] in *. specialize (Hargs j t Hj). unfold args_at in Hargs.
  split; [ | split ].
  - pose proof (map_nth_error t_tags j pool Hj) as Hnth. rewrite Hmap in Hnth.
    rewrite nth_error_map in Hnth.
    destruct (nth_error calls j) as [ [m ts] | ]; [ | discriminate ].
    injection Hnth as <-. exists m. reflexivity.
  - intros msg Hpc. rewrite Hpc in Hargs. exact Hargs.
  - intros r Hpc. rewrite Hpc in Hargs. exact Hargs.
Qed.

Lemma mutex_guards_witness :
  let c := run_schedule racing_schedule (initial fresh_strategy two_calls) in
  (forall i j ti tj,
     nth_error (snd c) i = Some ti -> nth_error (snd c) j = Some tj ->
     in_critical (t_pc ti) = true -> in_critical (t_pc tj) = true -> i = j) /\
  (forall k, sh_mutex (fst c) = Some k ->
     exists t, nth_error (snd c) k = Some t /\ in_critical (t_pc t) = true) /\
  (Forall (fun t => ended (t_pc t) = true) (snd c) -> sh_mutex (fst c) = None).
Proof.
  apply (mutex_guards_the_critical_section fresh_strategy two_calls).
  - reflexivity.
  - exact (run_schedule_steps racing_schedule (initial fresh_strategy two_calls)).
Defined.

Lemma never_deadlock_witness :
  let c := run_schedule (firstn 6 racing_schedule) (initial fresh_strategy two_calls) in
  (Exists (fun t => ended (t_pc t) = false) (snd c) ->
   exists j tj sh' tj',
     nth_error (snd c) j = Some tj /\ thread_step j (fst c) tj = Some (sh', tj')) /\
  (forall j tj sh' tj',
     thread_step j (fst c) tj = Some (sh', tj') ->
     (statements_left (t_pc tj') < statements_left (t_pc tj))%nat).
Proof.
  apply (concurrent_calls_never_deadlock fresh_strategy two_calls).
  - reflexivity.
  - exact (run_schedule_steps (firstn 6 racing_schedule) (initial fresh_strategy two_calls)).
Defined.

Lemma panics_only_without_candidates_witness :
  let t := {| t_pc := Done "b"; t_obm := sample_obm; t_tags := ["a"; "b"]%string |} in
  (exists m, nth_error two_calls 0 = Some (m, t_tags t)) /\
  (forall msg, t_pc t = Crashed msg -> t_tags t = [] /\ msg = "0 tags"%string) /\
  (forall r, t_pc t = Done r -> t_tags t <> []).
Proof.
  apply (concurrent_call_panics_only_without_candidates fresh_strategy two_calls
           (fst (run_schedule racing_schedule (initial fresh_strategy two_calls)))
           (snd (run_schedule racing_schedule (initial fresh_strategy two_calls)))
           0%nat).
  - reflexivity.
  - exact (run_schedule_steps racing_schedule (initial fresh_strategy two_calls)).
  - vm_compute. reflexivity.
Defined.

(** ** The messages of config.pb.go *)

Ltac name_cases H v :=
  repeat match type of H with
  | context [if ?k =? v then _ else _] => destruct (Z.eqb_spec k v)
  end; try discriminate; subst v; injection H as <-; reflexivity.

Ltac value_cases H s :=
  repeat match type of H with
  | context [if (?k =? s)%string then _ else _] => destruct (String.eqb_spec k s)
  end; try discriminate; subst s; injection H as <-; reflexivity.

(** X15. The two maps of each enum are inverse to each other: the name map
    sends a number to a name exactly when the value map sends that name to
    that number, for Domain_Type and for Config_DomainStrategy. *)
Theorem enum_names_and_values_are_inverse (v : Z) (s : string) :
  (map_index Z.eqb Domain_Type_name v = Some s
   <-> map_index String.eqb Domain_Type_value s = Some v) /\
  (map_index Z.eqb Config_DomainStrategy_name v = Some s
   <-> map_index String.eqb Config_DomainStrategy_value s = Some v).
Proof.
  unfold Domain_Type_name, Domain_Type_value, Config_DomainStrategy_name,
    Config_DomainStrategy_value. cbn [map_index].
  split; split; intros H; first [ name_cases H v | value_cases H s ].
Qed.

(** X16. A routing rule has one target at most: when GetTag returns a
    non-empty tag GetBalancingTag returns the empty string, and the other
    way round; and each of the two getters panics exactly when the oneof
    holds a nil pointer of its own wrapper type. A nil rule has neither. *)
Theorem RoutingRule_target_is_one_of (PR PL NL N : Type)
    (m : option (RoutingRule.t PR PL NL N)) :
  (forall t, RoutingRule.GetTag _ _ _ _ m = Returned t -> t <> ""%string ->
     RoutingRule.GetBalancingTag _ _ _ _ m = Returned ""%string) /\
  (forall b, RoutingRule.GetBalancingTag _ _ _ _ m = Returned b -> b <> ""%string ->
     RoutingRule.GetTag _ _ _ _ m = Returned ""%string) /\
  ((exists msg, RoutingRule.GetTag _ _ _ _ m = Panicked msg)
   <-> RoutingRule.GetTargetTag _ _ _ _ m = Some (TargetTag_Tag None)) /\
  ((exists msg, RoutingRule.GetBalancingTag _ _ _ _ m = Panicked msg)
   <-> RoutingRule.GetTargetTag _ _ _ _ m = Some (TargetTag_BalancingTag None)).
Proof.
  unfold RoutingRule.GetTag, RoutingRule.GetBalancingTag.
  destruct (RoutingRule.GetTargetTag _ _ _ _ m) as [ [ [x | ] | [x | ] ] | ].
  all: repeat split; intros; try reflexivity; try congruence;
    try match goal with H : exists _, _ |- _ => destruct H; discriminate end;
    try (eexists; reflexivity).
Qed.

(** X17. A domain attribute has one typed value at most: when
    GetBoolValue returns true GetIntValue returns 0, when GetIntValue
    returns a number other than 0 GetBoolValue returns false; and each of
    the two getters panics exactly when the oneof holds a nil pointer of its
    own wrapper type. *)
Theorem Domain_Attribute_value_is_one_of (m : option Domain_Attribute.t) :
  (Domain_Attribute.GetBoolValue m = Returned true ->
   Domain_Attribute.GetIntValue m = Returned 0) /\
  (forall i, Domain_Attribute.GetIntValue m = Returned i -> i <> 0 ->
     Domain_Attribute.GetBoolValue m = Returned false) /\
  ((exists msg, Domain_Attribute.GetBoolValue m = Panicked msg)
   <-> Domain_Attribute.GetTypedValue m = Some (TypedValue_BoolValue None)) /\
  ((exists msg, Domain_Attribute.GetIntValue m = Panicked msg)
   <-> Domain_Attribute.GetTypedValue m = Some (TypedValue_IntValue None)).
Proof.
  unfold Domain_Attribute.GetBoolValue, Domain_Attribute.GetIntValue.
  destruct (Domain_Attribute.GetTypedValue m) as [ [ [x | ] | [x | ] ] | ].
  all: repeat split; intros; try reflexivity; try congruence;
    try match goal with H : exists _, _ |- _ => destruct H; discriminate end;
    try (eexists; reflexivity).
Qed.
